(** * Composite image rendering (cornerstone, [internal/drawCompositeImage.js])

    A shallow embedding of the layer synchroniser, the layer rescaler, the
    PET fusion transform and the composite renderer, followed by the
    properties established about them.

    JavaScript numbers are kept abstract behind the [Number] interface,
    whose instance is IEEE 754 binary64 ([float], what the engine computes
    with).  Layers are
    mutable objects shared between the "all layers", "visible layers" and
    "active layer" views of the registry, so they live in a store indexed by
    object identity, and every function is a computation in a state and
    exception monad over that store. *)

From Stdlib Require Import Floats.PrimFloat.
From stdpp Require Import gmap strings list.

(** ** JavaScript numbers *)

Class Number (num : Type) := {
  num_zero : num;                        (* the literal 0 *)
  num_one : num;                         (* the literal 1 *)
  num_two : num;                         (* the literal 2 *)
  num_180 : num;                         (* the literal 180 *)
  num_add : num -> num -> num;
  num_sub : num -> num -> num;
  num_mul : num -> num -> num;
  num_div : num -> num -> num;
  num_neg : num -> num;                  (* unary minus *)
  num_ltb : num -> num -> bool;          (* a < b *)
  num_eqb : num -> num -> bool;          (* a === b on two numbers *)
  num_eqb_zero : num_eqb num_zero num_zero = true
}.

Declare Scope js_scope.
Delimit Scope js_scope with js.
Infix "+" := num_add : js_scope.
Infix "-" := num_sub : js_scope.
Infix "*" := num_mul : js_scope.
Infix "/" := num_div : js_scope.
Notation "- x" := (num_neg x) : js_scope.
Infix "<?" := num_ltb : js_scope.

(** Truthiness of a number: everything but 0, -0 and NaN.  NaN is the only
    number that is not [===] to itself. *)
Definition num_truthy {num} `{Number num} (x : num) : bool :=
  negb (num_eqb x num_zero) && num_eqb x x.

(** The host's [Math] object, as far as this file uses it. *)
Record MathObj (num : Type) := {
  Math_cos : num -> num;
  Math_sin : num -> num;
  Math_PI : num
}.
Arguments Math_cos {num}.
Arguments Math_sin {num}.
Arguments Math_PI {num}.

(** binary64, the numbers of the running code *)
#[export] Instance float_Number : Number float := {|
  num_zero := 0%float;
  num_one := 1%float;
  num_two := 2%float;
  num_180 := 180%float;
  num_add := PrimFloat.add;
  num_sub := PrimFloat.sub;
  num_mul := PrimFloat.mul;
  num_div := PrimFloat.div;
  num_neg := PrimFloat.opp;
  num_ltb := PrimFloat.ltb;
  num_eqb := PrimFloat.eqb;
  num_eqb_zero := eq_refl
|}.

(** ** Strings *)

(** [s.indexOf(sub)]: position of the first occurrence, or -1. *)
Definition indexOf (s sub : string) : Z :=
  match String.index 0 sub s with
  | Some n => Z.of_nat n
  | None => (-1)%Z
  end.

(** Truthiness of a possibly undefined string: defined and not empty. *)
Definition str_truthy (s : option string) : bool :=
  match s with
  | Some s => negb (String.eqb s "")
  | None => false
  end.

(** [s === lit] for a possibly undefined [s]. *)
Definition str_is (s : option string) (lit : string) : bool :=
  match s with
  | Some s => String.eqb s lit
  | None => false
  end.

Definition isSome {A} (o : option A) : bool :=
  match o with Some _ => true | None => false end.

(** ** Data model *)

(** A colormap is given by its id or as a colormap object. *)
Inductive Colormap :=
| ColormapId (id : string)
| ColormapObject (o : nat).

(** Truthiness of [viewport.colormap] / [options.colormap]. *)
Definition colormap_truthy (c : option Colormap) : bool :=
  match c with
  | Some (ColormapId id) => negb (String.eqb id "")
  | Some (ColormapObject _) => true
  | None => false
  end.

(** [c !== ''] *)
Definition colormap_nonempty (c : option Colormap) : bool :=
  match c with
  | Some (ColormapId id) => negb (String.eqb id "")
  | _ => true
  end.

(** Identity of a layer object in the store. *)
Definition loc := nat.

(** A variable holding a layer: an object, or [undefined]. *)
Definition ref := option loc.

Inductive Exn :=
| TypeError                       (* property access on undefined *)
| Error (msg : string).           (* throw new Error(msg) *)

Inductive Outcome (A : Type) :=
| Ret (a : A)
| Throw (e : Exn).
Arguments Ret {A} a.
Arguments Throw {A} e.

Section Composite.

Context {num : Type} `{NumberOps : Number num}.
Local Open Scope js_scope.

Record Point := { px : num; py : num }.

Record DisplayedArea := {
  tlhc : Point;
  brhc : Point;
  da_columnPixelSpacing : num
}.

Record Viewport := {
  scale : num;
  rotation : num;
  translation : Point;
  hflip : bool;
  vflip : bool;
  displayedArea : DisplayedArea;
  vp_colormap : option Colormap;
  labelmap : bool;                 (* read only through [=== true] *)
  pixelReplication : bool
}.

Record Image := {
  imageId : option string;
  width : num;
  height : num;
  rowPixelSpacing : num;
  columnPixelSpacing : num;
  color : bool                     (* read only through [=== true] *)
}.

Record Options := {
  name : option string;
  opacity : option num;
  fillStyle : option string;
  opt_colormap : option Colormap;
  reSize : bool                    (* read only for truthiness *)
}.

Record SyncProps := { originalScale : num }.

Record Canvas := { canvas_width : num; canvas_height : num }.

Record Layer := {
  layerId : string;
  image : option Image;
  viewport : option Viewport;
  options : option Options;
  syncProps : option SyncProps;
  canvas : option Canvas;
  invalid : bool
}.

(** Field updates. *)
Definition set_scale (s : num) (v : Viewport) : Viewport :=
  {| scale := s; rotation := rotation v; translation := translation v;
     hflip := hflip v; vflip := vflip v; displayedArea := displayedArea v;
     vp_colormap := vp_colormap v; labelmap := labelmap v;
     pixelReplication := pixelReplication v |}.

Definition set_rotation (r : num) (v : Viewport) : Viewport :=
  {| scale := scale v; rotation := r; translation := translation v;
     hflip := hflip v; vflip := vflip v; displayedArea := displayedArea v;
     vp_colormap := vp_colormap v; labelmap := labelmap v;
     pixelReplication := pixelReplication v |}.

Definition set_translation (t : Point) (v : Viewport) : Viewport :=
  {| scale := scale v; rotation := rotation v; translation := t;
     hflip := hflip v; vflip := vflip v; displayedArea := displayedArea v;
     vp_colormap := vp_colormap v; labelmap := labelmap v;
     pixelReplication := pixelReplication v |}.

Definition set_hflip (b : bool) (v : Viewport) : Viewport :=
  {| scale := scale v; rotation := rotation v; translation := translation v;
     hflip := b; vflip := vflip v; displayedArea := displayedArea v;
     vp_colormap := vp_colormap v; labelmap := labelmap v;
     pixelReplication := pixelReplication v |}.

Definition set_vflip (b : bool) (v : Viewport) : Viewport :=
  {| scale := scale v; rotation := rotation v; translation := translation v;
     hflip := hflip v; vflip := b; displayedArea := displayedArea v;
     vp_colormap := vp_colormap v; labelmap := labelmap v;
     pixelReplication := pixelReplication v |}.

Definition set_reSize (b : bool) (o : Options) : Options :=
  {| name := name o; opacity := opacity o; fillStyle := fillStyle o;
     opt_colormap := opt_colormap o; reSize := b |}.

Definition set_viewport (v : option Viewport) (L : Layer) : Layer :=
  {| layerId := layerId L; image := image L; viewport := v;
     options := options L; syncProps := syncProps L; canvas := canvas L;
     invalid := invalid L |}.

Definition set_options (o : option Options) (L : Layer) : Layer :=
  {| layerId := layerId L; image := image L; viewport := viewport L;
     options := o; syncProps := syncProps L; canvas := canvas L;
     invalid := invalid L |}.

Definition set_syncProps (s : option SyncProps) (L : Layer) : Layer :=
  {| layerId := layerId L; image := image L; viewport := viewport L;
     options := options L; syncProps := s; canvas := canvas L;
     invalid := invalid L |}.

Definition set_canvas (c : option Canvas) (L : Layer) : Layer :=
  {| layerId := layerId L; image := image L; viewport := viewport L;
     options := options L; syncProps := syncProps L; canvas := c;
     invalid := invalid L |}.

Definition set_invalid (b : bool) (L : Layer) : Layer :=
  {| layerId := layerId L; image := image L; viewport := viewport L;
     options := options L; syncProps := syncProps L; canvas := canvas L;
     invalid := b |}.

(** What the canvas context and the external renderers are asked to do, in
    the order of the calls. *)
Inductive Event :=
| CtxSave
| CtxRestore
| CtxSetTransform (a b c d e f : num)
| CtxFillRect (x y w h : num)
| CtxGlobalAlpha (a : num)
| CtxFillStyle (s : string)
| CtxImageSmoothingEnabled (b : bool)
| CtxMozImageSmoothingEnabled (b : bool)
| CtxDrawImage (layer : loc) (sx sy sw sh dx dy dw dh : num)
| SetToPixelCoordinateSystem (layer : loc)
| AddLabelMapLayer (layer : loc) (isInvalid : bool)
| AddPseudoColorLayer (layer : loc) (isInvalid : bool)
| AddColorLayer (layer : loc) (isInvalid : bool)
| AddGrayscaleLayer (layer : loc) (isInvalid useAlphaChannel : bool).

(** The mutable world of one enabled element: its layer objects, the
    [lastSyncViewportsState] field, and the calls made so far. *)
Record State := {
  heap : gmap loc Layer;
  lastSyncViewportsState : bool;
  log : list Event
}.

Definition set_heap (h : gmap loc Layer) (st : State) : State :=
  {| heap := h; lastSyncViewportsState := lastSyncViewportsState st;
     log := log st |}.

Definition set_lastSync (b : bool) (st : State) : State :=
  {| heap := heap st; lastSyncViewportsState := b; log := log st |}.

Definition add_event (e : Event) (st : State) : State :=
  {| heap := heap st; lastSyncViewportsState := lastSyncViewportsState st;
     log := log st ++ [e] |}.

(** ** Computations: state plus exceptions.  A thrown exception keeps the
    mutations made before it. *)
Definition M (A : Type) : Type := State -> Outcome A * State.

Definition ret {A} (a : A) : M A := fun st => (Ret a, st).

Definition throw {A} (e : Exn) : M A := fun st => (Throw e, st).

Definition bind {A B} (m : M A) (k : A -> M B) : M B :=
  fun st =>
    match m st with
    | (Ret a, st') => k a st'
    | (Throw e, st') => (Throw e, st')
    end.

Notation "x <- m ;; k" := (bind m (fun x => k))
  (at level 100, m at next level, right associativity).
Notation "m ;; k" := (bind m (fun _ => k))
  (at level 100, right associativity).

(** [o.field] where [o] must be an object. *)
Definition prop {A} (o : option A) : M A :=
  match o with
  | Some a => ret a
  | None => throw TypeError
  end.

(** Reading through a layer variable. *)
Definition deref (r : ref) : M Layer :=
  fun st =>
    match r with
    | Some l => prop (heap st !! l) st
    | None => throw TypeError st
    end.

(** [layer.field = ...] *)
Definition assign (r : ref) (f : Layer -> Layer) : M unit :=
  fun st =>
    match r with
    | Some l =>
        match heap st !! l with
        | Some L => (Ret tt, set_heap (<[l := f L]> (heap st)) st)
        | None => (Throw TypeError, st)
        end
    | None => (Throw TypeError, st)
    end.

(** [layer.viewport.field = ...] *)
Definition assign_viewport (r : ref) (f : Viewport -> Viewport) : M unit :=
  L <- deref r ;;
  v <- prop (viewport L) ;;
  assign r (set_viewport (Some (f v))).

(** [layer.options.field = ...] *)
Definition assign_options (r : ref) (f : Options -> Options) : M unit :=
  L <- deref r ;;
  o <- prop (options L) ;;
  assign r (set_options (Some (f o))).

Definition emit (e : Event) : M unit := fun st => (Ret tt, add_event e st).

(** [xs.forEach((x, index) => body)] and [for (const x of xs) body] *)
Fixpoint forEach_from {A} (i : nat) (xs : list A) (body : A -> nat -> M unit)
  : M unit :=
  match xs with
  | [] => ret tt
  | x :: xs' => body x i ;; forEach_from (S i) xs' body
  end.

Definition forEach {A} (xs : list A) (body : A -> nat -> M unit) : M unit :=
  forEach_from 0 xs body.

(** [xs.some(p)] *)
Fixpoint Array_some {A} (xs : list A) (p : A -> M bool) : M bool :=
  match xs with
  | [] => ret false
  | x :: xs' => b <- p x ;; if b then ret true else Array_some xs' p
  end.

(** [xs.filter(p)] *)
Fixpoint Array_filter {A} (xs : list A) (p : A -> M bool) : M (list A) :=
  match xs with
  | [] => ret []
  | x :: xs' =>
      b <- p x ;;
      rest <- Array_filter xs' p ;;
      ret (if b then x :: rest else rest)
  end.

(** ** Viewport sync state *)

Definition updateLayerSyncProps (layer : ref) : M unit :=
  L <- deref layer ;;
  (* const syncProps = layer.syncProps || {};
     syncProps.originalScale = layer.viewport.scale; *)
  v <- prop (viewport L) ;;
  assign layer (set_syncProps (Some {| originalScale := scale v |})).

Definition getViewportRatio (baseLayer targetLayer : ref) : M num :=
  B <- deref baseLayer ;;
  (if isSome (syncProps B) then ret tt else updateLayerSyncProps baseLayer) ;;
  T <- deref targetLayer ;;
  (if isSome (syncProps T) then ret tt else updateLayerSyncProps targetLayer) ;;
  T <- deref targetLayer ;;
  ts <- prop (syncProps T) ;;
  B <- deref baseLayer ;;
  bs <- prop (syncProps B) ;;
  ret (originalScale ts / originalScale bs).

(** ** Viewport synchroniser *)

(** The callback of [layers.forEach]. *)
Definition syncLayer (activeLayer : ref) (layer : loc) (_ : nat) : M unit :=
  (* Don't do anything to the active layer
     Don't do anything if this layer has no viewport *)
  if bool_decide (Some layer = activeLayer) then ret tt else
  L <- deref (Some layer) ;;
  if negb (isSome (viewport L)) then ret tt else
  A <- deref activeLayer ;;
  if negb (isSome (viewport A)) then ret tt else
  (if isSome (syncProps L) then ret tt
   else updateLayerSyncProps (Some layer)) ;;
  viewportRatio <- getViewportRatio activeLayer (Some layer) ;;
  A <- deref activeLayer ;; av <- prop (viewport A) ;;
  assign_viewport (Some layer) (set_scale (scale av * viewportRatio)) ;;
  A <- deref activeLayer ;; av <- prop (viewport A) ;;
  assign_viewport (Some layer) (set_rotation (rotation av)) ;;
  A <- deref activeLayer ;; av <- prop (viewport A) ;;
  assign_viewport (Some layer) (set_translation
    {| px := px (translation av) / viewportRatio;
       py := py (translation av) / viewportRatio |}) ;;
  A <- deref activeLayer ;; av <- prop (viewport A) ;;
  assign_viewport (Some layer) (set_hflip (hflip av)) ;;
  A <- deref activeLayer ;; av <- prop (viewport A) ;;
  assign_viewport (Some layer) (set_vflip (vflip av)).

(** Sync all viewports based on active layer's viewport *)
Definition syncViewports (layers : list loc) (activeLayer : ref) : M unit :=
  forEach layers (syncLayer activeLayer).

(** ** Layer rescaler *)

Definition rescaleImage (baseLayer targetLayer : ref) : M unit :=
  B <- deref baseLayer ;;
  T <- deref targetLayer ;;
  if String.eqb (layerId B) (layerId T) then
    throw (Error "rescaleImage: both arguments represent the same layer")
  else
  (* Return if these images don't have an imageId *)
  baseImage <- prop (image B) ;;
  if negb (str_truthy (imageId baseImage)) then ret tt else
  targetImage <- prop (image T) ;;
  if negb (str_truthy (imageId targetImage)) then ret tt else
  tv <- prop (viewport T) ;;
  bv <- prop (viewport B) ;;
  let colRelative :=
    (da_columnPixelSpacing (displayedArea tv) * width targetImage) /
    (da_columnPixelSpacing (displayedArea bv) * width baseImage) in
  let viewportRatio := scale tv / scale bv * colRelative in
  assign_viewport targetLayer (set_scale (scale bv * viewportRatio)).

(** ** Affine transform *)

(** Modelled from the spec: the [Transform] class of [internal/transform.js],
    which is not part of the sources at hand.  Section 3 describes it as a
    2D matrix of six coefficients (linear 2x2 part, then translation) built
    by translate, rotate and scale operations, each composed on the right of
    the accumulated matrix; [m0 .. m5] are the [m[0] .. m[5]] handed to
    [context.setTransform]. *)
Record Transform := { m0 : num; m1 : num; m2 : num; m3 : num; m4 : num; m5 : num }.

(** Modelled from the spec: [new Transform()], the identity matrix. *)
Definition Transform_new : Transform :=
  {| m0 := num_one; m1 := num_zero; m2 := num_zero; m3 := num_one;
     m4 := num_zero; m5 := num_zero |}.

(** Modelled from the spec: [transform.translate(x, y)], a translation
    composed on the right. *)
Definition Transform_translate (x y : num) (t : Transform) : Transform :=
  {| m0 := m0 t; m1 := m1 t; m2 := m2 t; m3 := m3 t;
     m4 := m4 t + (m0 t * x + m2 t * y);
     m5 := m5 t + (m1 t * x + m3 t * y) |}.

(** Modelled from the spec: [transform.scale(sx, sy)], a scaling composed on
    the right. *)
Definition Transform_scale (sx sy : num) (t : Transform) : Transform :=
  {| m0 := m0 t * sx; m1 := m1 t * sx; m2 := m2 t * sy; m3 := m3 t * sy;
     m4 := m4 t; m5 := m5 t |}.

Variable Math : MathObj num.

(** Modelled from the spec: [transform.rotate(rad)], a rotation by [rad]
    radians composed on the right, with the host's [Math.cos] and
    [Math.sin]. *)
Definition Transform_rotate (rad : num) (t : Transform) : Transform :=
  let c := Math_cos Math rad in
  let s := Math_sin Math rad in
  {| m0 := m0 t * c + m2 t * s;
     m1 := m1 t * c + m3 t * s;
     m2 := m0 t * - s + m2 t * c;
     m3 := m1 t * - s + m3 t * c;
     m4 := m4 t; m5 := m5 t |}.

(** ** Fusion transform *)

(** The first argument is a layer, whatever its name says: [renderLayers]
    passes the layer being drawn. *)
Definition calculatePetFuisonTransform (enabledElement activeLayer : ref)
  : M Transform :=
  A <- deref activeLayer ;; av <- prop (viewport A) ;;
  let activeWidthScale := scale av in
  let activeHeightScale := scale av in
  ai <- prop (image A) ;;
  let activeWidthScale :=
    if rowPixelSpacing ai <? columnPixelSpacing ai
    then activeWidthScale * (columnPixelSpacing ai / rowPixelSpacing ai)
    else activeWidthScale in
  let activeHeightScale :=
    if rowPixelSpacing ai <? columnPixelSpacing ai then activeHeightScale
    else if columnPixelSpacing ai <? rowPixelSpacing ai
    then activeHeightScale * (rowPixelSpacing ai / columnPixelSpacing ai)
    else activeHeightScale in
  let transform := Transform_new in
  (* Move to center of canvas *)
  E <- deref enabledElement ;; ec <- prop (canvas E) ;;
  let transform :=
    Transform_translate (canvas_width ec / num_two) (canvas_height ec / num_two)
      transform in
  (* Apply the rotation before scaling for non square pixels *)
  ev <- prop (viewport E) ;;
  let angle := rotation ev in
  let transform :=
    if negb (num_eqb angle num_zero)
    then Transform_rotate (angle * Math_PI Math / num_180) transform
    else transform in
  let widthScale := activeWidthScale in
  let heightScale := activeHeightScale in
  let width :=
    px (brhc (displayedArea ev)) - (px (tlhc (displayedArea ev)) - num_one) in
  let height :=
    py (brhc (displayedArea ev)) - (py (tlhc (displayedArea ev)) - num_one) in
  let activeHeight :=
    py (brhc (displayedArea av)) - (py (tlhc (displayedArea av)) - num_one) in
  viewportRatio <- getViewportRatio activeLayer enabledElement ;;
  let widthScale := widthScale * viewportRatio in
  let heightScale := heightScale * (activeHeight / height) in
  let transform := Transform_scale widthScale heightScale transform in
  (* Unrotate to so we can translate unrotated *)
  let transform :=
    if negb (num_eqb angle num_zero)
    then Transform_rotate (- angle * Math_PI Math / num_180) transform
    else transform in
  (* Apply the pan offset *)
  let transform :=
    Transform_translate (px (translation ev)) (py (translation ev)) transform in
  (* Rotate again so we can apply general scale *)
  let transform :=
    if negb (num_eqb angle num_zero)
    then Transform_rotate (angle * Math_PI Math / num_180) transform
    else transform in
  (* Apply Flip if required *)
  let transform :=
    if hflip ev then Transform_scale (- num_one) num_one transform
    else transform in
  let transform :=
    if vflip ev then Transform_scale num_one (- num_one) transform
    else transform in
  (* Move back from center of image *)
  let transform :=
    Transform_translate (- width / num_two) (- height / num_two) transform in
  ret transform.

(** The steps of section 4.4 of the specification with the three rotation
    steps (2, 4 and 6) left open: each is given the reference frame's
    rotation angle and the matrix built so far.  Everything else is as in
    [calculatePetFuisonTransform]; it is there to compare the code with
    other choices for the rotation steps. *)
Definition fusionTransformWith
    (step2 step4 step6 : num -> Transform -> Transform)
    (enabledElement activeLayer : ref) : M Transform :=
  A <- deref activeLayer ;; av <- prop (viewport A) ;;
  ai <- prop (image A) ;;
  (* 3, first half: the anisotropic scale of the active layer *)
  let activeWidthScale :=
    if rowPixelSpacing ai <? columnPixelSpacing ai
    then scale av * (columnPixelSpacing ai / rowPixelSpacing ai)
    else scale av in
  let activeHeightScale :=
    if rowPixelSpacing ai <? columnPixelSpacing ai then scale av
    else if columnPixelSpacing ai <? rowPixelSpacing ai
    then scale av * (rowPixelSpacing ai / columnPixelSpacing ai)
    else scale av in
  E <- deref enabledElement ;; ec <- prop (canvas E) ;;
  ev <- prop (viewport E) ;;
  let angle := rotation ev in
  let width :=
    px (brhc (displayedArea ev)) - (px (tlhc (displayedArea ev)) - num_one) in
  let height :=
    py (brhc (displayedArea ev)) - (py (tlhc (displayedArea ev)) - num_one) in
  let activeHeight :=
    py (brhc (displayedArea av)) - (py (tlhc (displayedArea av)) - num_one) in
  viewportRatio <- getViewportRatio activeLayer enabledElement ;;
  (* 1 *)
  let transform :=
    Transform_translate (canvas_width ec / num_two) (canvas_height ec / num_two)
      Transform_new in
  (* 2 *)
  let transform := step2 angle transform in
  (* 3 *)
  let transform :=
    Transform_scale (activeWidthScale * viewportRatio)
      (activeHeightScale * (activeHeight / height)) transform in
  (* 4 *)
  let transform := step4 angle transform in
  (* 5 *)
  let transform :=
    Transform_translate (px (translation ev)) (py (translation ev)) transform in
  (* 6 *)
  let transform := step6 angle transform in
  (* 7 *)
  let transform :=
    if hflip ev then Transform_scale (- num_one) num_one transform
    else transform in
  let transform :=
    if vflip ev then Transform_scale num_one (- num_one) transform
    else transform in
  (* 8 *)
  let transform :=
    Transform_translate (- width / num_two) (- height / num_two) transform in
  ret transform.


(** The rotation steps without the short-circuit. *)
Definition rotate_always (sign : num -> num) (angle : num)
    (t : Transform) : Transform :=
  Transform_rotate (sign angle * Math_PI Math / num_180) t.


(** ** Per-layer drawing *)

(** The external renderer chosen for a layer. *)
Definition rasterize (layer : loc) (colormap : option Colormap)
    (labelmap isColor isInvalid : bool) (index : nat) : Event :=
  if colormap_truthy colormap && colormap_nonempty colormap && labelmap then
    AddLabelMapLayer layer isInvalid
  else if colormap_truthy colormap && colormap_nonempty colormap then
    AddPseudoColorLayer layer isInvalid
  else if isColor then
    AddColorLayer layer isInvalid
  else
    (* If this is the base layer, use the alpha channel *)
    let useAlphaChannel := Nat.eqb index 0 in
    AddGrayscaleLayer layer isInvalid useAlphaChannel.

(** The body of the loop of [renderLayers]; [ctxCanvas] is [context.canvas]. *)
Definition renderLayer (ctxCanvas : Canvas) (activeLayer : ref)
    (invalidated : bool) (layer : loc) (index : nat) : M unit :=
  L <- deref (Some layer) ;;
  if negb (isSome (image L)) then ret tt else
  emit CtxSave ;;
  (* Set the layer's canvas to the pixel coordinate system *)
  assign (Some layer) (set_canvas (Some ctxCanvas)) ;;
  img <- prop (image L) ;;
  id <- prop (imageId img) ;;
  (if (indexOf id "petmpr" >? -1)%Z && (indexOf id "Axial" =? -1)%Z then
     transform <- calculatePetFuisonTransform (Some layer) activeLayer ;;
     emit (CtxSetTransform (m0 transform) (m1 transform) (m2 transform)
             (m3 transform) (m4 transform) (m5 transform))
   else
     emit (SetToPixelCoordinateSystem layer)) ;;
  (* Render into the layer's canvas *)
  L <- deref (Some layer) ;;
  v <- prop (viewport L) ;;
  colormap <-
    (if colormap_truthy (vp_colormap v) then ret (vp_colormap v)
     else o <- prop (options L) ;; ret (opt_colormap o)) ;;
  let isInvalid := invalid L || invalidated in
  emit (rasterize layer colormap (labelmap v) (color img) isInvalid index) ;;
  (* Apply any global opacity settings that have been defined for this layer *)
  emit (CtxGlobalAlpha
          match options L with
          | Some o =>
              match opacity o with
              | Some a => if num_truthy a then a else num_one
              | None => num_one
              end
          | None => num_one
          end) ;;
  (match options L with
   | Some o =>
       if str_truthy (fillStyle o)
       then f <- prop (fillStyle o) ;; emit (CtxFillStyle f)
       else ret tt
   | None => ret tt
   end) ;;
  (* Set the pixelReplication property before drawing *)
  let imageSmoothingEnabled := negb (pixelReplication v) in
  emit (CtxImageSmoothingEnabled imageSmoothingEnabled) ;;
  emit (CtxMozImageSmoothingEnabled imageSmoothingEnabled) ;;
  (* Draw from the current layer's canvas onto the enabled element's canvas *)
  let sx := px (tlhc (displayedArea v)) - num_one in
  let sy := py (tlhc (displayedArea v)) - num_one in
  let width := px (brhc (displayedArea v)) - sx in
  let height := py (brhc (displayedArea v)) - sy in
  emit (CtxDrawImage layer sx sy width height num_zero num_zero width height) ;;
  emit CtxRestore ;;
  assign (Some layer) (set_invalid false).

Definition renderLayers (ctxCanvas : Canvas) (layers : list loc)
    (activeLayer : ref) (invalidated : bool) : M unit :=
  forEach layers (renderLayer ctxCanvas activeLayer invalidated).

(** ** Composite renderer *)

(** The answer of [getImageFitScale]. *)
Record FitScale := {
  verticalScale : num;
  horizontalScale : num;
  scaleFactor : num
}.

(** [getImageFitScale] ([internal/getImageFitScale.js]) is an external
    collaborator: any function of the canvas, the image and the rotation. *)
Variable getImageFitScale : Canvas -> Image -> num -> FitScale.

(** Modelled from the spec: the layer registry ([layers.js], not part of the
    sources at hand).  Section 6: it provides the ordered list of all
    layers, the active layer, and the list of currently visible layers; the
    three fields are what [getLayers], [getActiveLayer] and
    [getVisibleLayers] answer for the element being drawn. *)
Record Registry := {
  getLayers : list loc;
  getActiveLayer : ref;
  getVisibleLayers : list loc
}.

Record EnabledElement := {
  ee_canvas : Canvas;
  ee_syncViewports : bool;
  ee_registry : Registry
}.

Definition get_lastSyncViewportsState : M bool :=
  fun st => (Ret (lastSyncViewportsState st), st).

Definition put_lastSyncViewportsState (b : bool) : M unit :=
  fun st => (Ret tt, set_lastSync b st).

(** Stores a copy of all viewports if the user has just synced them. *)
Definition resyncLayers (allLayers : list loc) : M unit :=
  forEach allLayers (fun layer _ =>
    L <- deref (Some layer) ;;
    if isSome (viewport L) then updateLayerSyncProps (Some layer) else ret tt).

(** The callback of [allLayers.some]. *)
Definition petResizePending (L : Layer) : bool :=
  match options L with
  | Some o => str_truthy (name o) && str_is (name o) "PET" && reSize o
  | None => false
  end.

Definition bResetPetScale (allLayers : list loc) : M bool :=
  Array_some allLayers (fun layer =>
    L <- deref (Some layer) ;; ret (petResizePending L)).

Definition ctFusionLayer (allLayers : list loc) : M (list loc) :=
  Array_filter allLayers (fun layer =>
    L <- deref (Some layer) ;;
    o <- prop (options L) ;;
    ret (negb (str_is (name o) "PET"))).

(** The body of [for (const layer of allLayers)]; [base] is
    [ctFusionLayer[0]]. *)
Definition resizePetLayer (cnv : Canvas) (base : ref) (layer : loc) (_ : nat)
  : M unit :=
  L <- deref (Some layer) ;;
  o <- prop (options L) ;;
  (if str_is (name o) "PET" then
     img <- prop (image L) ;;
     id <- prop (imageId img) ;;
     (if (indexOf id "petmpr" >? -1)%Z && (indexOf id "Axial" =? -1)%Z then
        if height img <? width img then
          assign_viewport (Some layer)
            (set_scale (horizontalScale (getImageFitScale cnv img num_zero)))
        else
          assign_viewport (Some layer)
            (set_scale (verticalScale (getImageFitScale cnv img num_zero)))
      else
        assign_viewport (Some layer)
          (set_scale (scaleFactor (getImageFitScale cnv img num_zero)))) ;;
     rescaleImage base (Some layer) ;;
     assign_options (Some layer) (set_reSize false)
   else ret tt) ;;
  L <- deref (Some layer) ;;
  if isSome (viewport L) then updateLayerSyncProps (Some layer) else ret tt.

Definition resetPetScale (cnv : Canvas) (allLayers : list loc) : M unit :=
  ct <- ctFusionLayer allLayers ;;
  forEach allLayers (resizePetLayer cnv (head ct)).

(** Reset the transform and clear the canvas. *)
Definition clearCanvas (cnv : Canvas) : M unit :=
  emit (CtxSetTransform num_one num_zero num_zero num_one num_zero num_zero) ;;
  emit (CtxFillStyle "black") ;;
  emit (CtxFillRect num_zero num_zero (canvas_width cnv) (canvas_height cnv)).

Definition drawCompositeImage (enabledElement : EnabledElement)
    (invalidated : bool) : M unit :=
  let allLayers := getLayers (ee_registry enabledElement) in
  let activeLayer := getActiveLayer (ee_registry enabledElement) in
  let visibleLayers := getVisibleLayers (ee_registry enabledElement) in
  last <- get_lastSyncViewportsState ;;
  let resynced := negb last && ee_syncViewports enabledElement in
  put_lastSyncViewportsState (ee_syncViewports enabledElement) ;;
  (if resynced then resyncLayers allLayers else ret tt) ;;
  reset <- bResetPetScale allLayers ;;
  (if reset then
     resetPetScale (ee_canvas enabledElement) allLayers ;;
     syncViewports visibleLayers activeLayer
   else ret tt) ;;
  (* Sync all viewports in case it's activated *)
  (if ee_syncViewports enabledElement
   then syncViewports visibleLayers activeLayer else ret tt) ;;
  clearCanvas (ee_canvas enabledElement) ;;
  renderLayers (ee_canvas enabledElement) visibleLayers activeLayer invalidated.

(** ** Vocabulary of the properties: the rescaler *)

Definition same_layer_error : Exn :=
  Error "rescaleImage: both arguments represent the same layer".

(** The scale [rescaleImage] gives the target layer. *)
Definition rescaled_scale (bv tv : Viewport) (bi ti : Image) : num :=
  let colRelative :=
    (da_columnPixelSpacing (displayedArea tv) * width ti) /
    (da_columnPixelSpacing (displayedArea bv) * width bi) in
  let ratio := scale tv / scale bv * colRelative in
  scale bv * ratio.

(** ** Vocabulary of the properties: the synchroniser *)

(** The layer after [if (!layer.syncProps) updateLayerSyncProps(layer)]. *)
Definition capture (v : Viewport) (L : Layer) : Layer :=
  if isSome (syncProps L) then L
  else set_syncProps (Some {| originalScale := scale v |}) L.

(** The scale a layer is anchored at: its snapshot, or its present scale
    when no snapshot has been taken yet. *)
Definition anchorScale (v : Viewport) (L : Layer) : num :=
  match syncProps L with
  | Some s => originalScale s
  | None => scale v
  end.

(** The viewport [syncViewports] leaves on a layer, from the active layer's
    viewport [av] and the ratio [r]. *)
Definition synced_viewport (av : Viewport) (r : num) (lv : Viewport)
  : Viewport :=
  set_vflip (vflip av)
    (set_hflip (hflip av)
      (set_translation
         {| px := px (translation av) / r; py := py (translation av) / r |}
         (set_rotation (rotation av) (set_scale (scale av * r) lv)))).

(** The layer [syncViewports] leaves behind, from the active layer's
    viewport [av] and anchor [ka]. *)
Definition synced_layer (av : Viewport) (ka : num)
    (lv : Viewport) (L : Layer) : Layer :=
  set_viewport (Some (synced_viewport av (anchorScale lv L / ka) lv))
    (capture lv L).

(** Layer [k] has been brought in line with the active layer [a], which
    was [A] with viewport [av] when [syncViewports] started in [st0]. *)
Definition Done (st0 : State) (a : loc) (A : Layer) (av : Viewport)
    (st : State) (k : loc) : Prop :=
  exists L0 lv0,
    heap st0 !! k = Some L0 /\ viewport L0 = Some lv0 /\
    heap st !! a = Some (capture av A) /\
    heap st !! k = Some (synced_layer av (anchorScale av A) lv0 L0).

(** What holds between two iterations of the loop of [syncViewports]. *)
Definition Inv (st0 : State) (a : loc) (A : Layer) (av : Viewport)
    (st : State) : Prop :=
  (heap st !! a = Some A \/ heap st !! a = Some (capture av A)) /\
  forall k, k <> a -> heap st !! k = heap st0 !! k \/ Done st0 a A av st k.

(** ** Vocabulary of the properties: outcomes and what a run may change *)

(** [wp m st Q]: running [m] from [st] ends in an outcome and a state that
    satisfy [Q]. *)
Definition wp {A} (m : M A) (st : State)
    (Q : Outcome A -> State -> Prop) : Prop :=
  Q (m st).1 (m st).2.

(** A relation between the state before and the state after that every
    run of [m] respects, whatever its outcome. *)
Definition respects {A} (R : State -> State -> Prop)
    (m : M A) : Prop :=
  forall st, R st (m st).2.

(** [K'] is [K], or [K] with a first snapshot. *)
Definition same_but_snapshot (K K' : Layer) : Prop :=
  K' = K \/ (syncProps K = None /\ exists s, K' = set_syncProps (Some s) K).

(** Between [st] and [st'] nothing happened but first snapshots. *)
Definition only_snapshots (st st' : State) : Prop :=
  log st' = log st /\
  lastSyncViewportsState st' = lastSyncViewportsState st /\
  forall k,
    match heap st !! k with
    | Some K => exists K', heap st' !! k = Some K' /\ same_but_snapshot K K'
    | None => heap st' !! k = None
    end.

(** Every snapshot of [st] is still there in [st']. *)
Definition snapshots_kept (st st' : State) : Prop :=
  forall k K s,
    heap st !! k = Some K -> syncProps K = Some s ->
    exists K', heap st' !! k = Some K' /\ syncProps K' = Some s.

(** Between [st] and [st'] only snapshots were written. *)
Definition only_syncProps (st st' : State) : Prop :=
  log st' = log st /\
  lastSyncViewportsState st' = lastSyncViewportsState st /\
  forall k,
    match heap st !! k with
    | Some K => exists K', heap st' !! k = Some K' /\
                           set_syncProps (syncProps K) K' = K
    | None => heap st' !! k = None
    end.

(** A relation between states that does not look at the layers. *)
Class HeapBlind (R : State -> State -> Prop) : Prop := {
  heap_blind_refl :: Reflexive R;
  heap_blind_trans :: Transitive R;
  heap_blind : forall h st, R st (set_heap h st)
}.

(** The calls made so far are as before. *)
Definition quiet (st st' : State) : Prop := log st' = log st.

(** The remembered sync flag is as before. *)
Definition flag_kept (st st' : State) : Prop :=
  lastSyncViewportsState st' = lastSyncViewportsState st.

(** What [clearCanvas] asks of the context. *)
Definition clear_events (cnv : Canvas) : list Event :=
  [CtxSetTransform num_one num_zero num_zero num_one num_zero num_zero;
   CtxFillStyle "black";
   CtxFillRect num_zero num_zero (canvas_width cnv) (canvas_height cnv)].

(** ** Vocabulary of the properties: the PET resize branch *)

(** Every layer of the list is a live object. *)
Definition live (st : State) (ls : list loc) : Prop :=
  Forall (fun l => is_Some (heap st !! l)) ls.

(** Some layer of the list is a PET layer with a pending resize request. *)
Definition resize_requested (st : State) (ls : list loc) : Prop :=
  exists l L, l ∈ ls /\ heap st !! l = Some L /\ petResizePending L = true.

(** [layer.options.name !== 'PET'], read in [st]. *)
Definition non_pet (st : State) (l : loc) : bool :=
  match heap st !! l with
  | Some L =>
      match options L with
      | Some o => negb (str_is (name o) "PET")
      | None => false
      end
  | None => false
  end.

(** ** Vocabulary of the properties: drawing one layer *)

(** The value of [layer.viewport.colormap || layer.options.colormap];
    [None] when reading it throws. *)
Definition layer_colormap (v : Viewport) (L : Layer)
  : option (option Colormap) :=
  if colormap_truthy (vp_colormap v) then Some (vp_colormap v)
  else match options L with
       | Some o => Some (opt_colormap o)
       | None => None
       end.

(** The global alpha a layer is drawn with. *)
Definition layer_alpha (L : Layer) : num :=
  match options L with
  | Some o =>
      match opacity o with
      | Some a => if num_truthy a then a else num_one
      | None => num_one
      end
  | None => num_one
  end.

(** The fill style assignment, if any. *)
Definition layer_fill (L : Layer) : list Event :=
  match options L with
  | Some o =>
      match fillStyle o with
      | Some f => if str_truthy (fillStyle o) then [CtxFillStyle f] else []
      | None => []
      end
  | None => []
  end.

(** The image is a PET MPR reformat other than the axial one. *)
Definition is_fusion_image (id : string) : bool :=
  (indexOf id "petmpr" >? -1)%Z && (indexOf id "Axial" =? -1)%Z.

(** The coordinate system set for a layer: the standard one, or an explicit
    matrix. *)
Definition is_transform (l : loc) (e : Event) : Prop :=
  e = SetToPixelCoordinateSystem l \/
  exists a b c d x y, e = CtxSetTransform a b c d x y.

(** The calls made for one layer, in order. *)
Definition layer_events (l : loc) (T R : Event) (L : Layer)
    (v : Viewport) : list Event :=
  let sx := px (tlhc (displayedArea v)) - num_one in
  let sy := py (tlhc (displayedArea v)) - num_one in
  let width := px (brhc (displayedArea v)) - sx in
  let height := py (brhc (displayedArea v)) - sy in
  [CtxSave; T; R; CtxGlobalAlpha (layer_alpha L)] ++ layer_fill L ++
  [CtxImageSmoothingEnabled (negb (pixelReplication v));
   CtxMozImageSmoothingEnabled (negb (pixelReplication v));
   CtxDrawImage l sx sy width height num_zero num_zero width height;
   CtxRestore].

(** A call to one of the four external renderers. *)
Definition is_renderer_call (e : Event) : bool :=
  match e with
  | AddLabelMapLayer _ _ | AddPseudoColorLayer _ _
  | AddColorLayer _ _ | AddGrayscaleLayer _ _ _ => true
  | _ => false
  end.

(** The renderer the stated precedence selects: label map when a colormap
    is set and the labelmap flag is true, otherwise pseudo color when a
    colormap is set, otherwise true color for a color image, otherwise
    grayscale, with the alpha channel exactly at index 0. *)
Definition selected_renderer (l : loc)
    (colormapSet labelmapFlag isColor isInvalid : bool) (index : nat)
  : Event :=
  if colormapSet && labelmapFlag then AddLabelMapLayer l isInvalid
  else if colormapSet then AddPseudoColorLayer l isInvalid
  else if isColor then AddColorLayer l isInvalid
  else AddGrayscaleLayer l isInvalid (bool_decide (index = 0)).

(** The global alpha values assigned in a sequence of calls. *)
Definition global_alphas (evs : list Event) : list num :=
  omap (fun e => match e with CtxGlobalAlpha a => Some a | _ => None end) evs.

Local Close Scope js_scope.

End Composite.

Notation "x <- m ;; k" := (bind m (fun x => k))
  (at level 100, m at next level, right associativity).
Notation "m ;; k" := (bind m (fun _ => k))
  (at level 100, right associativity).

(** ** The render and the synchroniser it calls *)

Section Synchronised.

Context {num : Type} `{NumberOps : Number num}.
Variable sync : list loc -> ref -> @M num unit.
Variable Math : MathObj num.
Variable getImageFitScale : @Canvas num -> @Image num -> num -> @FitScale num.

(** The default export with the procedure it calls at the two places where
    the source says [syncViewports] left open: [sync] stands for it in the
    PET resize branch and under the test of the sync flag.  Everything else
    is as in [drawCompositeImage], which is this function with
    [syncViewports] for [sync]; it is there to tell where and how often a
    render calls its synchroniser. *)
Definition drawCompositeImage_with (enabledElement : EnabledElement)
    (invalidated : bool) : M unit :=
  let allLayers := getLayers (ee_registry enabledElement) in
  let activeLayer := getActiveLayer (ee_registry enabledElement) in
  let visibleLayers := getVisibleLayers (ee_registry enabledElement) in
  last <- get_lastSyncViewportsState ;;
  let resynced := negb last && ee_syncViewports enabledElement in
  put_lastSyncViewportsState (ee_syncViewports enabledElement) ;;
  (if resynced then resyncLayers allLayers else ret tt) ;;
  reset <- bResetPetScale allLayers ;;
  (if reset then
     resetPetScale getImageFitScale (ee_canvas enabledElement) allLayers ;;
     sync visibleLayers activeLayer
   else ret tt) ;;
  (* Sync all viewports in case it's activated *)
  (if ee_syncViewports enabledElement
   then sync visibleLayers activeLayer else ret tt) ;;
  clearCanvas (ee_canvas enabledElement) ;;
  renderLayers Math (ee_canvas enabledElement) visibleLayers activeLayer
    invalidated.

End Synchronised.

(** * Concrete layers and states *)

(** ** Over binary64 *)

Local Open Scope float_scope.

Definition area (w h cps : float) : @DisplayedArea float :=
  {| tlhc := {| px := 1; py := 1 |}; brhc := {| px := w; py := h |};
     da_columnPixelSpacing := cps |}.

Definition ct_viewport : @Viewport float :=
  {| scale := 1; rotation := 0; translation := {| px := 10; py := 20 |};
     hflip := true; vflip := false; displayedArea := area 256 256 1;
     vp_colormap := None; labelmap := false; pixelReplication := false |}.

Definition pet_viewport : @Viewport float :=
  {| scale := 2; rotation := 90; translation := {| px := 0; py := 0 |};
     hflip := false; vflip := false; displayedArea := area 512 512 0.5;
     vp_colormap := Some (ColormapId "hotIron"); labelmap := false;
     pixelReplication := false |}.

Definition ct_image : @Image float :=
  {| imageId := Some "ct:1"; width := 256; height := 256;
     rowPixelSpacing := 1; columnPixelSpacing := 1; color := false |}.

Definition pet_image : @Image float :=
  {| imageId := Some "pet:1"; width := 512; height := 512;
     rowPixelSpacing := 0.5; columnPixelSpacing := 0.5; color := false |}.

Definition ct_layer : @Layer float :=
  {| layerId := "ct"; image := Some ct_image; viewport := Some ct_viewport;
     options := Some {| name := Some "CT"; opacity := None; fillStyle := None;
                        opt_colormap := None; reSize := false |};
     syncProps := None; canvas := None; invalid := true |}.

Definition pet_layer : @Layer float :=
  {| layerId := "pet"; image := Some pet_image; viewport := Some pet_viewport;
     options := Some {| name := Some "PET"; opacity := Some 0.5%float;
                        fillStyle := None; opt_colormap := None;
                        reSize := false |};
     syncProps := None; canvas := None; invalid := true |}.

(** Layer 1 is the CT layer, layer 2 the PET layer. *)
Definition ct_pet : @State float :=
  {| heap := {[ 1%nat := ct_layer; 2%nat := pet_layer ]};
     lastSyncViewportsState := false; log := [] |}.

(** A layer showing a dynamic image, which has no [imageId]. *)
Definition dynamic_layer : @Layer float :=
  {| layerId := "dyn";
     image := Some {| imageId := None; width := 64; height := 64;
                      rowPixelSpacing := 1; columnPixelSpacing := 1;
                      color := false |};
     viewport := Some ct_viewport; options := None;
     syncProps := None; canvas := None; invalid := true |}.

Definition ct_dynamic : @State float :=
  {| heap := {[ 1%nat := ct_layer; 3%nat := dynamic_layer ]};
     lastSyncViewportsState := false; log := [] |}.

(** A host [Math] over binary64; [cos] and [sin] are low-order polynomial
    approximations. *)
Definition approx_Math : MathObj float :=
  {| Math_cos := fun x => 1 - x * x / 2 + x * x * x * x / 24;
     Math_sin := fun x => x - x * x * x / 6 + x * x * x * x * x / 120;
     Math_PI := 0x1.921fb54442d18p+1 |}.

(** A fit-scale collaborator: canvas extent over image extent. *)
Definition fit_extent (cnv : @Canvas float) (img : @Image float) (_ : float)
  : @FitScale float :=
  let v := canvas_height cnv / height img in
  let h := canvas_width cnv / width img in
  {| verticalScale := v; horizontalScale := h;
     scaleFactor := if v <? h then v else h |}.

Definition canvas512 : @Canvas float :=
  {| canvas_width := 512; canvas_height := 512 |}.

(** The host's [Math] over binary64 at the angles of 10 and -10 degrees, in
    radians: [cos] and [sin] return the host's binary64 results there, and
    the polynomial approximations elsewhere (1 and 0 at 0). *)
Definition host_Math : MathObj float :=
  {| Math_cos := fun x =>
       if (x =? 0x1.657184ae74487p-3) || (x =? -0x1.657184ae74487p-3)
       then 0x1.f838b8c811c17p-1
       else Math_cos approx_Math x;
     Math_sin := fun x =>
       if x =? 0x1.657184ae74487p-3 then 0x1.63a1a7e0b7389p-3
       else if x =? -0x1.657184ae74487p-3 then -0x1.63a1a7e0b7389p-3
       else Math_sin approx_Math x;
     Math_PI := 0x1.921fb54442d18p+1 |}.

(** An active layer with anisotropic pixels, and over it the frame of a
    fusion reformat: a layer without rotation that holds the output
    canvas. *)
Definition fusion_active : @Layer float :=
  {| layerId := "ct";
     image := Some {| imageId := Some "ct:1"; width := 256; height := 256;
                      rowPixelSpacing := 1; columnPixelSpacing := 2;
                      color := false |};
     viewport := Some {| scale := 2; rotation := 0;
                         translation := {| px := 0; py := 0 |};
                         hflip := false; vflip := false;
                         displayedArea := area 256 256 1;
                         vp_colormap := None; labelmap := false;
                         pixelReplication := false |};
     options := None; syncProps := None; canvas := None; invalid := false |}.

Definition fusion_frame : @Layer float :=
  {| layerId := "pet";
     image := Some {| imageId := Some "petmpr:Coronal"; width := 128;
                      height := 128; rowPixelSpacing := 1;
                      columnPixelSpacing := 1; color := false |};
     viewport := Some {| scale := 1; rotation := 0;
                         translation := {| px := 3; py := 4 |};
                         hflip := true; vflip := false;
                         displayedArea := area 128 128 1;
                         vp_colormap := None; labelmap := false;
                         pixelReplication := false |};
     options := None; syncProps := None; canvas := Some canvas512;
     invalid := false |}.

(** Layer 1 is the active layer, layer 2 the frame. *)
Definition fusion_state : @State float :=
  {| heap := {[ 1%nat := fusion_active; 2%nat := fusion_frame ]};
     lastSyncViewportsState := false; log := [] |}.

(** The CT layer zoomed to 3 after a snapshot at scale 1, and the PET layer
    asking for a resize. *)
Definition ct_zoomed : @Layer float :=
  {| layerId := "ct"; image := Some ct_image;
     viewport := Some (set_scale 3 ct_viewport);
     options := options ct_layer;
     syncProps := Some {| originalScale := 1 |};
     canvas := None; invalid := true |}.

Definition pet_resizing : @Layer float :=
  {| layerId := "pet"; image := Some pet_image; viewport := Some pet_viewport;
     options := Some {| name := Some "PET"; opacity := Some 0.5;
                        fillStyle := None; opt_colormap := None;
                        reSize := true |};
     syncProps := Some {| originalScale := 2 |}; canvas := None;
     invalid := true |}.

Definition resize_pending : @State float :=
  {| heap := {[ 1%nat := ct_zoomed; 2%nat := pet_resizing ]};
     lastSyncViewportsState := false; log := [] |}.

(** Both layers registered and visible, the CT layer active, sync off. *)
Definition element_sync_off : @EnabledElement float :=
  {| ee_canvas := canvas512; ee_syncViewports := false;
     ee_registry := {| getLayers := [1%nat; 2%nat];
                       getActiveLayer := Some 1%nat;
                       getVisibleLayers := [1%nat; 2%nat] |} |}.

Local Close Scope float_scope.

(** The same element with sync on. *)
Definition element_sync_on : @EnabledElement float :=
  {| ee_canvas := canvas512; ee_syncViewports := true;
     ee_registry := {| getLayers := [1; 2];
                       getActiveLayer := Some 1;
                       getVisibleLayers := [1; 2] |} |}.

(** A registry holding the resizing PET layer alone. *)
Definition pet_alone : @State float :=
  {| heap := {[ 2 := pet_resizing ]};
     lastSyncViewportsState := false; log := [] |}.

Definition element_pet_alone : @EnabledElement float :=
  {| ee_canvas := canvas512; ee_syncViewports := false;
     ee_registry := {| getLayers := [2];
                       getActiveLayer := Some 2;
                       getVisibleLayers := [2] |} |}.

(** Both layers registered, none visible, sync on. *)
Definition element_nothing_visible : @EnabledElement float :=
  {| ee_canvas := canvas512; ee_syncViewports := true;
     ee_registry := {| getLayers := [1; 2];
                       getActiveLayer := Some 1;
                       getVisibleLayers := [] |} |}.

(** * Further vocabulary of the properties *)

Section Vocabulary.

Context {num : Type} `{NumberOps : Number num}.
Local Open Scope js_scope.

Local Abbreviation Layer := (@Layer num).
Local Abbreviation Viewport := (@Viewport num).
Local Abbreviation Options := (@Options num).
Local Abbreviation State := (@State num).

(** ** Anchors *)

(** The scale a layer is anchored at, when it has one: its snapshot, or its
    present scale when no snapshot has been taken yet. *)
Definition anchor (L : Layer) : option num :=
  match syncProps L with
  | Some s => Some (originalScale s)
  | None =>
      match viewport L with
      | Some v => Some (scale v)
      | None => None
      end
  end.

(** The layer after [if (!layer.syncProps) updateLayerSyncProps(layer)] has
    returned. *)
Definition snapshotted (L : Layer) : Layer :=
  match syncProps L with
  | Some _ => L
  | None =>
      match viewport L with
      | Some v => set_syncProps (Some {| originalScale := scale v |}) L
      | None => L
      end
  end.

(** [layer.viewport] is an object, read in [st]. *)
Definition has_viewport (st : State) (l : loc) : bool :=
  match heap st !! l with
  | Some L => isSome (viewport L)
  | None => false
  end.

(** [layer.image] is an object, read in [st]. *)
Definition has_image (st : State) (l : loc) : bool :=
  match heap st !! l with
  | Some L => isSome (image L)
  | None => false
  end.

(** ** What happened to each layer *)

(** Every layer of [st] is still there in [st'], and it is related by [P]
    to what it was; no layer has appeared. *)
Definition layerwise (P : loc -> Layer -> Layer -> Prop)
    (st st' : State) : Prop :=
  forall k,
    match heap st !! k with
    | Some K => exists K', heap st' !! k = Some K' /\ P k K K'
    | None => heap st' !! k = None
    end.

(** A relation between the old and the new value of each layer that can be
    followed along a run. *)
Class LayerRel (P : loc -> Layer -> Layer -> Prop) : Prop := {
  layer_rel_refl : forall k K, P k K K;
  layer_rel_trans : forall k K1 K2 K3, P k K1 K2 -> P k K2 K3 -> P k K1 K3
}.

(** [P] lets layer [l] receive its first snapshot. *)
Definition allows_first_snapshot (P : loc -> Layer -> Layer -> Prop)
    (l : loc) : Prop :=
  forall K v,
    syncProps K = None -> viewport K = Some v ->
    P l K (set_syncProps (Some {| originalScale := scale v |}) K).

(** [P] lets layer [l] receive a snapshot, first or not. *)
Definition allows_snapshot (P : loc -> Layer -> Layer -> Prop)
    (l : loc) : Prop :=
  forall K v,
    viewport K = Some v ->
    P l K (set_syncProps (Some {| originalScale := scale v |}) K).

(** Both relations hold between the state before and the state after. *)
Definition both (R1 R2 : State -> State -> Prop) (st st' : State) : Prop :=
  R1 st st' /\ R2 st st'.

(** The layers outside [ls] are as they were. *)
Definition only_touching (ls : list loc) (k : loc) (K K' : Layer) : Prop :=
  k ∈ ls \/ K' = K.

(** The fields of a viewport the synchroniser never writes. *)
Definition same_display (v v' : Viewport) : Prop :=
  displayedArea v' = displayedArea v /\ vp_colormap v' = vp_colormap v /\
  labelmap v' = labelmap v /\ pixelReplication v' = pixelReplication v.

(** [K'] is [K] up to a first snapshot and the synchronised fields of its
    viewport (scale, rotation, translation, flips). *)
Definition resynced (K K' : Layer) : Prop :=
  layerId K' = layerId K /\ image K' = image K /\ options K' = options K /\
  canvas K' = canvas K /\ invalid K' = invalid K /\
  (syncProps K = None \/ syncProps K' = syncProps K) /\
  match viewport K, viewport K' with
  | Some v, Some v' => same_display v v'
  | None, None => True
  | _, _ => False
  end.

(** [P] lets the viewport of layer [l] be replaced by one that displays
    the same. *)
Definition allows_resync (P : loc -> Layer -> Layer -> Prop)
    (l : loc) : Prop :=
  forall K v v',
    viewport K = Some v -> same_display v v' ->
    P l K (set_viewport (Some v') K).

(** [P] lets layer [l] be drawn: its canvas and its invalid flag may be
    written. *)
Definition allows_drawing (P : loc -> Layer -> Layer -> Prop)
    (l : loc) : Prop :=
  forall K, (forall c, P l K (set_canvas c K)) /\ P l K (set_invalid false K).

(** [P] lets the resize request of layer [l] be withdrawn. *)
Definition allows_withdrawal (P : loc -> Layer -> Layer -> Prop)
    (l : loc) : Prop :=
  forall K o,
    options K = Some o -> P l K (set_options (Some (set_reSize false o)) K).

(** What [syncViewports(layers, act)] may do to layer [k]. *)
Definition sync_touch (layers : list loc) (act : ref)
    (k : loc) (K K' : Layer) : Prop :=
  if bool_decide (Some k = act) then same_but_snapshot K K'
  else if bool_decide (k ∈ layers) then resynced K K'
  else K' = K.

(** [K'] is [K], or [K] with another viewport scale. *)
Definition rescaled (K K' : Layer) : Prop :=
  K' = K \/
  exists v s, viewport K = Some v /\ K' = set_viewport (Some (set_scale s v)) K.

(** What [rescaleImage(base, target)] may do to layer [k]. *)
Definition rescale_touch (target : ref) (k : loc) (K K' : Layer) : Prop :=
  if bool_decide (Some k = target) then rescaled K K' else K' = K.

(** Only the layers held by the variables [rs] may have changed, and those
    by a first snapshot only. *)
Definition snapshot_touch (rs : list ref) (k : loc) (K K' : Layer) : Prop :=
  if bool_decide (Some k ∈ rs) then same_but_snapshot K K' else K' = K.

(** [K'] is [K] up to its canvas, its invalid flag and a first snapshot. *)
Definition drawn_over (K K' : Layer) : Prop :=
  layerId K' = layerId K /\ image K' = image K /\
  viewport K' = viewport K /\ options K' = options K /\
  (syncProps K = None \/ syncProps K' = syncProps K).

(** What [renderLayers(context, layers, act)] may do to layer [k]. *)
Definition render_touch (layers : list loc) (act : ref)
    (k : loc) (K K' : Layer) : Prop :=
  if bool_decide (k ∈ layers) then drawn_over K K'
  else if bool_decide (Some k = act) then same_but_snapshot K K'
  else K' = K.

(** The options other than the resize request. *)
Definition same_settings (o o' : Options) : Prop :=
  name o' = name o /\ opacity o' = opacity o /\
  fillStyle o' = fillStyle o /\ opt_colormap o' = opt_colormap o.

(** What no function of the composite renderer changes on a layer: its id,
    its image, whether it has a viewport and what that viewport displays,
    whether it has options and what they say apart from the resize
    request. *)
Definition same_subject (K K' : Layer) : Prop :=
  layerId K' = layerId K /\ image K' = image K /\
  match viewport K, viewport K' with
  | Some v, Some v' => same_display v v'
  | None, None => True
  | _, _ => False
  end /\
  match options K, options K' with
  | Some o, Some o' => same_settings o o'
  | None, None => True
  | _, _ => False
  end.

(** The calls made to draw layer [l] as it is in [st]: save, its coordinate
    system, one renderer call, the global alpha, the fill style if any, the
    image smoothing flags, [drawImage], restore. *)
Definition is_block (st : State) (l : loc) (block : list Event) : Prop :=
  exists L v T R,
    heap st !! l = Some L /\ viewport L = Some v /\
    is_transform l T /\ is_renderer_call R = true /\
    block = layer_events l T R L v.

(** Layer [l] can be drawn from [st] along the standard path: it is a live
    object, and either it has no image (it is skipped), or its image has an
    id that is not a fusion reformat's, it has a viewport, and a colormap
    can be read from its viewport or its options. *)
Definition drawable (st : State) (l : loc) : Prop :=
  exists L,
    heap st !! l = Some L /\
    match image L with
    | None => True
    | Some img =>
        exists id v c,
          imageId img = Some id /\ is_fusion_image id = false /\
          viewport L = Some v /\ layer_colormap v L = Some c
    end.

(** The calls made so far are still there, possibly followed by more. *)
Definition log_grows (st st' : State) : Prop :=
  exists evs, log st' = log st ++ evs.

(** No resize request has appeared. *)
Definition no_new_request (K K' : Layer) : Prop :=
  petResizePending K' = true -> petResizePending K = true.

(** Layer [l] follows layer [a] in [st]: both carry a snapshot, and the
    viewport of [l] is the one of [a] through the ratio of the snapshots. *)
Definition in_line (st : State) (a l : loc) : Prop :=
  exists A L av lv sa sl,
    heap st !! a = Some A /\ heap st !! l = Some L /\
    viewport A = Some av /\ viewport L = Some lv /\
    syncProps A = Some sa /\ syncProps L = Some sl /\
    let r := originalScale sl / originalScale sa in
    scale lv = scale av * r /\
    rotation lv = rotation av /\
    px (translation lv) = px (translation av) / r /\
    py (translation lv) = py (translation av) / r /\
    hflip lv = hflip av /\
    vflip lv = vflip av.

Local Close Scope js_scope.

End Vocabulary.

(** * Further concrete layers and states *)

(** The zoomed CT layer, which carries a snapshot, and the PET layer, which
    carries none. *)
Definition zoomed_ct_pet : @State float :=
  {| heap := {[ 1 := ct_zoomed; 2 := pet_layer ]};
     lastSyncViewportsState := true; log := [] |}.

(** A layer that has an image but no viewport. *)
Definition bare_layer : @Layer float :=
  {| layerId := "bare"; image := Some ct_image; viewport := None;
     options := None; syncProps := None; canvas := None; invalid := true |}.

Definition ct_bare : @State float :=
  {| heap := {[ 1 := ct_layer; 4 := bare_layer ]};
     lastSyncViewportsState := false; log := [] |}.


(** * Properties *)

(** ** Running computations *)

Section Running.

Context {num : Type} `{NumberOps : Number num}.

Lemma bind_Ret {A B} (m : @M num A) (k : A -> @M num B) st a st' :
  m st = (Ret a, st') -> bind m k st = k a st'.
Proof. unfold bind. intros ->. reflexivity. Qed.

Lemma bind_Throw {A B} (m : @M num A) (k : A -> @M num B) st e st' :
  m st = (Throw e, st') -> bind m k st = (Throw e, st').
Proof. unfold bind. intros ->. reflexivity. Qed.

Lemma deref_Some (st : @State num) l L :
  heap st !! l = Some L -> deref (Some l) st = (Ret L, st).
Proof. unfold deref. intros ->. reflexivity. Qed.

Lemma deref_None (st : @State num) l :
  heap st !! l = None -> deref (Some l) st = (Throw TypeError, st).
Proof. unfold deref. intros ->. reflexivity. Qed.

Lemma set_heap_id (st : @State num) : set_heap (heap st) st = st.
Proof. destruct st; reflexivity. Qed.

Lemma set_heap_set_heap h h' (st : @State num) : set_heap h (set_heap h' st) = set_heap h st.
Proof. reflexivity. Qed.

Lemma assign_Some (st : @State num) l L f :
  heap st !! l = Some L ->
  assign (Some l) f st = (Ret tt, set_heap (<[l := f L]> (heap st)) st).
Proof. unfold assign. intros ->. reflexivity. Qed.

Lemma assign_viewport_Some (st : @State num) l L v f :
  heap st !! l = Some L -> viewport L = Some v ->
  assign_viewport (Some l) f st
  = (Ret tt, set_heap (<[l := set_viewport (Some (f v)) L]> (heap st)) st).
Proof.
  intros Hl Hv. unfold assign_viewport.
  rewrite (bind_Ret _ _ _ _ _ (deref_Some _ _ _ Hl)), Hv. simpl.
  unfold bind, ret. apply assign_Some, Hl.
Qed.

End Running.

(** ** Layer rescaler *)

Section Rescaler.

Context {num : Type} `{NumberOps : Number num}.
Local Open Scope js_scope.

Lemma layerId_eqb_false (B T : @Layer num) :
  layerId B <> layerId T -> String.eqb (layerId B) (layerId T) = false.
Proof. intros Hne. apply String.eqb_neq, Hne. Qed.

Lemma rescaleImage_run (st : @State num) b t B T bi ti bv tv :
  heap st !! b = Some B -> heap st !! t = Some T ->
  layerId B <> layerId T ->
  image B = Some bi -> image T = Some ti ->
  str_truthy (imageId bi) = true -> str_truthy (imageId ti) = true ->
  viewport B = Some bv -> viewport T = Some tv ->
  rescaleImage (Some b) (Some t) st
  = (Ret tt,
     set_heap
       (<[t := set_viewport (Some (set_scale (rescaled_scale bv tv bi ti) tv)) T]>
          (heap st)) st).
Proof.
  intros Hb Ht Hid Hbi Hti Hbid Htid Hbv Htv. unfold rescaleImage.
  rewrite (bind_Ret _ _ _ _ _ (deref_Some _ _ _ Hb)).
  rewrite (bind_Ret _ _ _ _ _ (deref_Some _ _ _ Ht)).
  rewrite (layerId_eqb_false _ _ Hid), Hbi, Hti, Hbv, Htv. simpl.
  unfold bind at 1. simpl. rewrite Hbid. simpl.
  unfold bind at 1. simpl. rewrite Htid. simpl.
  unfold bind at 1. simpl. unfold bind at 1. simpl.
  apply (assign_viewport_Some st t T tv _ Ht Htv).
Qed.

(** C3: [rescaleImage(A, A)] throws at once, whatever the layer holds: the
    outcome is the error and never a normal return, nothing has been
    mutated, and the code after the call in any caller is not run. *)
Theorem rescaleImage_same_layer_throws (st : @State num) (a : loc) A :
  heap st !! a = Some A ->
  rescaleImage (Some a) (Some a) st = (Throw same_layer_error, st) /\
  forall (k : unit -> @M num unit),
    (rescaleImage (Some a) (Some a) ;; k tt) st = (Throw same_layer_error, st).
Proof.
  intros Ha.
  assert (Hrun : rescaleImage (Some a) (Some a) st
                 = (Throw same_layer_error, st)).
  { unfold rescaleImage.
    rewrite (bind_Ret _ _ _ _ _ (deref_Some _ _ _ Ha)).
    rewrite (bind_Ret _ _ _ _ _ (deref_Some _ _ _ Ha)).
    rewrite String.eqb_refl. reflexivity. }
  split; [exact Hrun|].
  intros k. apply bind_Throw, Hrun.
Qed.

(** C4: for two layers with different ids, both with an image, when the
    image of either has no [imageId], [rescaleImage] returns normally and
    leaves the whole state, the target's viewport included, as it was. *)
Theorem rescaleImage_without_imageId (st : @State num) (a b : loc) A B ia ib :
  heap st !! a = Some A -> heap st !! b = Some B ->
  layerId A <> layerId B ->
  image A = Some ia -> image B = Some ib ->
  str_truthy (imageId ia) = false \/ str_truthy (imageId ib) = false ->
  rescaleImage (Some a) (Some b) st = (Ret tt, st).
Proof.
  intros Ha Hb Hid Hia Hib Hno. unfold rescaleImage.
  rewrite (bind_Ret _ _ _ _ _ (deref_Some _ _ _ Ha)).
  rewrite (bind_Ret _ _ _ _ _ (deref_Some _ _ _ Hb)).
  rewrite (layerId_eqb_false _ _ Hid), Hia, Hib.
  unfold bind at 1. simpl.
  destruct (str_truthy (imageId ia)) eqn:Ea; simpl; [|reflexivity].
  unfold bind at 1. simpl.
  destruct Hno as [Hno|Hno]; [discriminate|]. rewrite Hno. reflexivity.
Qed.

End Rescaler.

(** ** Layer rescaler: the scale formula, and runs *)

(** C2: for a base and a target layer with different ids whose images both
    have an [imageId], [rescaleImage] sets the target's viewport scale to
    [base.scale * ratio], with [ratio = (target.scale / base.scale) *
    colRelative] and [colRelative = (target column spacing * target width) /
    (base column spacing * base width)], and touches nothing else; with base
    scale 1.0, target scale 2.0, target column spacing 0.5 and width 512,
    base column spacing 1.0 and width 256, computed in binary64, the target
    scale comes out as 2.0 and the state is left as it was. *)
Theorem rescaleImage_sets_target_scale :
  (forall (num : Type) (N : Number num) (st : @State num) b t B T bi ti bv tv,
     heap st !! b = Some B -> heap st !! t = Some T ->
     layerId B <> layerId T ->
     image B = Some bi -> image T = Some ti ->
     str_truthy (imageId bi) = true -> str_truthy (imageId ti) = true ->
     viewport B = Some bv -> viewport T = Some tv ->
     let colRelative :=
       ((da_columnPixelSpacing (displayedArea tv) * width ti) /
        (da_columnPixelSpacing (displayedArea bv) * width bi))%js in
     let ratio := (scale tv / scale bv * colRelative)%js in
     rescaleImage (Some b) (Some t) st
     = (Ret tt,
        set_heap
          (<[t := set_viewport (Some (set_scale (scale bv * ratio)%js tv)) T]>
             (heap st)) st)) /\
  (forall (st : @State float) b t B T bi ti bv tv,
     heap st !! b = Some B -> heap st !! t = Some T ->
     layerId B <> layerId T ->
     image B = Some bi -> image T = Some ti ->
     str_truthy (imageId bi) = true -> str_truthy (imageId ti) = true ->
     viewport B = Some bv -> viewport T = Some tv ->
     scale bv = 1%float -> scale tv = 2%float ->
     da_columnPixelSpacing (displayedArea tv) = 0.5%float ->
     width ti = 512%float ->
     da_columnPixelSpacing (displayedArea bv) = 1%float ->
     width bi = 256%float ->
     rescaled_scale bv tv bi ti = 2%float /\
     rescaleImage (Some b) (Some t) st = (Ret tt, st)).
Proof.
  split.
  - intros num N st b t B T bi ti bv tv Hb Ht Hid Hbi Hti Hbid Htid Hbv Htv.
    apply (rescaleImage_run st b t B T bi ti bv tv); assumption.
  - intros st b t B T bi ti bv tv Hb Ht Hid Hbi Hti Hbid Htid Hbv Htv
      Hbs Hts Htc Htw Hbc Hbw.
    assert (Hs : rescaled_scale bv tv bi ti = 2%float).
    { unfold rescaled_scale. rewrite Hbs, Hts, Htc, Htw, Hbc, Hbw.
      reflexivity. }
    split; [exact Hs|].
    rewrite (rescaleImage_run st b t B T bi ti bv tv) by assumption.
    rewrite Hs, <- Hts.
    assert (Hsame : set_viewport (Some (set_scale (scale tv) tv)) T = T).
    { destruct T; simpl in *. subst. destruct tv; reflexivity. }
    rewrite Hsame, (insert_id _ _ _ Ht), set_heap_id. reflexivity.
Qed.

Lemma rescaleImage_sets_target_scale_witness :
  rescaled_scale ct_viewport pet_viewport ct_image pet_image = 2%float /\
  rescaleImage (Some 1) (Some 2) ct_pet = (Ret tt, ct_pet).
Proof.
  apply (proj2 rescaleImage_sets_target_scale ct_pet 1 2 ct_layer pet_layer
           ct_image pet_image ct_viewport pet_viewport);
    try reflexivity.
  discriminate.
Defined.

Lemma rescaleImage_same_layer_throws_witness :
  rescaleImage (Some 2) (Some 2) ct_pet = (Throw same_layer_error, ct_pet) /\
  forall k : unit -> @M float unit,
    (rescaleImage (Some 2) (Some 2) ;; k tt) ct_pet
    = (Throw same_layer_error, ct_pet).
Proof. apply (rescaleImage_same_layer_throws ct_pet 2 pet_layer). reflexivity. Defined.

Lemma rescaleImage_without_imageId_witness :
  rescaleImage (Some 1) (Some 3) ct_dynamic = (Ret tt, ct_dynamic).
Proof.
  apply (rescaleImage_without_imageId ct_dynamic 1 3 ct_layer dynamic_layer
           ct_image {| imageId := None; width := 64; height := 64;
                       rowPixelSpacing := 1; columnPixelSpacing := 1;
                       color := false |}%float);
    try reflexivity.
  - discriminate.
  - right. reflexivity.
Defined.

(** ** Viewport sync state and synchroniser *)

Section Synchroniser.

Context {num : Type} `{NumberOps : Number num}.
Local Open Scope js_scope.

Lemma capture_viewport (v : @Viewport num) (L : @Layer num) : viewport (capture v L) = viewport L.
Proof. unfold capture. destruct (isSome (syncProps L)); reflexivity. Qed.

Lemma capture_syncProps (v : @Viewport num) (L : @Layer num) :
  syncProps (capture v L) = Some {| originalScale := anchorScale v L |}.
Proof.
  unfold capture, anchorScale.
  destruct (syncProps L) as [[s]|] eqn:E; simpl; [rewrite E|]; reflexivity.
Qed.

Lemma capture_idem (v : @Viewport num) (L : @Layer num) : capture v (capture v L) = capture v L.
Proof.
  unfold capture at 1. rewrite capture_syncProps. reflexivity.
Qed.

Lemma anchorScale_capture (v : @Viewport num) (L : @Layer num) : anchorScale v (capture v L) = anchorScale v L.
Proof. unfold anchorScale at 1. rewrite capture_syncProps. reflexivity. Qed.

Lemma updateLayerSyncProps_run (st : @State num) l L v :
  heap st !! l = Some L -> viewport L = Some v ->
  updateLayerSyncProps (Some l) st
  = (Ret tt,
     set_heap
       (<[l := set_syncProps (Some {| originalScale := scale v |}) L]> (heap st))
       st).
Proof.
  intros Hl Hv. unfold updateLayerSyncProps.
  rewrite (bind_Ret _ _ _ _ _ (deref_Some _ _ _ Hl)), Hv.
  unfold bind. simpl. apply assign_Some, Hl.
Qed.

(** [if (!layer.syncProps) updateLayerSyncProps(layer)] *)
Lemma ensure_snapshot_run (st : @State num) l L v :
  heap st !! l = Some L -> viewport L = Some v ->
  (if isSome (syncProps L) then ret tt else updateLayerSyncProps (Some l)) st
  = (Ret tt, set_heap (<[l := capture v L]> (heap st)) st).
Proof.
  intros Hl Hv. unfold capture. destruct (isSome (syncProps L)).
  - rewrite (insert_id _ _ _ Hl), set_heap_id. reflexivity.
  - apply updateLayerSyncProps_run; assumption.
Qed.

Lemma getViewportRatio_run (st : @State num) b t B T bv tv :
  b <> t ->
  heap st !! b = Some B -> viewport B = Some bv ->
  heap st !! t = Some T -> viewport T = Some tv ->
  getViewportRatio (Some b) (Some t) st
  = (Ret (anchorScale tv T / anchorScale bv B),
     set_heap (<[t := capture tv T]> (<[b := capture bv B]> (heap st))) st).
Proof.
  intros Hne Hb Hbv Ht Htv. unfold getViewportRatio.
  rewrite (bind_Ret _ _ _ _ _ (deref_Some _ _ _ Hb)).
  rewrite (bind_Ret _ _ _ _ _ (ensure_snapshot_run st b B bv Hb Hbv)).
  set (st1 := set_heap (<[b := capture bv B]> (heap st)) st).
  assert (Ht1 : heap st1 !! t = Some T)
    by (unfold st1; simpl; rewrite lookup_insert_ne; assumption).
  rewrite (bind_Ret _ _ _ _ _ (deref_Some _ _ _ Ht1)).
  rewrite (bind_Ret _ _ _ _ _ (ensure_snapshot_run st1 t T tv Ht1 Htv)).
  set (st2 := set_heap (<[t := capture tv T]> (heap st1)) st1).
  assert (Ht2 : heap st2 !! t = Some (capture tv T))
    by (unfold st2; simpl; apply lookup_insert_eq).
  assert (Hb2 : heap st2 !! b = Some (capture bv B)).
  { unfold st2, st1; simpl.
    rewrite lookup_insert_ne by congruence. apply lookup_insert_eq. }
  rewrite (bind_Ret _ _ _ _ _ (deref_Some _ _ _ Ht2)).
  rewrite capture_syncProps. unfold bind at 1. simpl.
  rewrite (bind_Ret _ _ _ _ _ (deref_Some _ _ _ Hb2)).
  rewrite capture_syncProps. reflexivity.
Qed.

Ltac run_deref H := rewrite (bind_Ret _ _ _ _ _ (deref_Some _ _ _ H)).

Lemma syncLayer_run (st : @State num) a l A L av lv i :
  l <> a ->
  heap st !! a = Some A -> viewport A = Some av ->
  heap st !! l = Some L -> viewport L = Some lv ->
  syncLayer (Some a) l i st
  = (Ret tt,
     set_heap
       (<[l := set_viewport
                 (Some (synced_viewport av
                          (anchorScale lv L / anchorScale av A) lv))
                 (capture lv L)]>
          (<[a := capture av A]> (heap st))) st).
Proof.
  intros Hne Ha Hav Hl Hlv. unfold syncLayer.
  rewrite bool_decide_eq_false_2 by congruence.
  run_deref Hl. rewrite Hlv. simpl.
  run_deref Ha. rewrite Hav. simpl.
  rewrite (bind_Ret _ _ _ _ _ (ensure_snapshot_run st l L lv Hl Hlv)).
  set (st1 := set_heap (<[l := capture lv L]> (heap st)) st).
  assert (Ha1 : heap st1 !! a = Some A)
    by (unfold st1; simpl; rewrite lookup_insert_ne; assumption).
  assert (Hl1 : heap st1 !! l = Some (capture lv L))
    by (unfold st1; simpl; apply lookup_insert_eq).
  assert (Hlv1 : viewport (capture lv L) = Some lv)
    by (rewrite capture_viewport; assumption).
  rewrite (bind_Ret _ _ _ _ _
             (getViewportRatio_run st1 a l A (capture lv L) av lv
                (not_eq_sym Hne) Ha1 Hav Hl1 Hlv1)).
  rewrite capture_idem, anchorScale_capture.
  set (r := anchorScale lv L / anchorScale av A).
  set (st2 := set_heap _ st1).
  assert (Ha2 : heap st2 !! a = Some (capture av A)).
  { unfold st2; simpl. rewrite lookup_insert_ne by assumption.
    apply lookup_insert_eq. }
  assert (Hav2 : viewport (capture av A) = Some av)
    by (rewrite capture_viewport; assumption).
  assert (Hl2 : heap st2 !! l = Some (capture lv L))
    by (unfold st2; simpl; apply lookup_insert_eq).
  assert (Hstep : forall (st' : @State num) Lc vc f (k : unit -> @M num unit),
    heap st' !! a = Some (capture av A) ->
    heap st' !! l = Some Lc -> viewport Lc = Some vc ->
    (A' <- deref (Some a) ;; av' <- prop (viewport A') ;;
     (assign_viewport (Some l) (f av') ;; k tt)) st'
    = k tt (set_heap (<[l := set_viewport (Some (f av vc)) Lc]> (heap st')) st')).
  { intros st' Lc vc f k Ha' Hl' Hv'. run_deref Ha'. rewrite Hav2.
    unfold bind at 1. simpl.
    rewrite (bind_Ret _ _ _ _ _ (assign_viewport_Some st' l Lc vc _ Hl' Hv')).
    reflexivity. }
  rewrite (Hstep st2 _ _ (fun av' => set_scale (scale av' * r))
             (fun _ => _) Ha2 Hl2 Hlv1).
  match goal with |- _ ?s = _ => set (st3 := s) end.
  assert (Ha3 : heap st3 !! a = Some (capture av A))
    by (unfold st3; simpl; rewrite lookup_insert_ne; assumption).
  rewrite (Hstep st3 _ _ (fun av' => set_rotation (rotation av'))
             (fun _ => _) Ha3 (lookup_insert_eq _ _ _) eq_refl).
  match goal with |- _ ?s = _ => set (st4 := s) end.
  assert (Ha4 : heap st4 !! a = Some (capture av A))
    by (unfold st4; simpl; rewrite lookup_insert_ne; assumption).
  rewrite (Hstep st4 _ _
             (fun av' => set_translation
                {| px := px (translation av') / r;
                   py := py (translation av') / r |})
             (fun _ => _) Ha4 (lookup_insert_eq _ _ _) eq_refl).
  match goal with |- _ ?s = _ => set (st5 := s) end.
  assert (Ha5 : heap st5 !! a = Some (capture av A))
    by (unfold st5; simpl; rewrite lookup_insert_ne; assumption).
  rewrite (Hstep st5 _ _ (fun av' => set_hflip (hflip av'))
             (fun _ => _) Ha5 (lookup_insert_eq _ _ _) eq_refl).
  match goal with |- _ ?s = _ => set (st6 := s) end.
  assert (Ha6 : heap st6 !! a = Some (capture av A))
    by (unfold st6; simpl; rewrite lookup_insert_ne; assumption).
  run_deref Ha6. rewrite Hav2. unfold bind at 1. simpl.
  rewrite (assign_viewport_Some st6 l _ _ _ (lookup_insert_eq _ _ _) eq_refl).
  f_equal. unfold st6, st5, st4, st3, st2, st1.
  rewrite !set_heap_set_heap. f_equal.
  cbn [heap set_heap lastSyncViewportsState log].
  repeat rewrite insert_insert_eq.
  rewrite (insert_insert_ne _ a l) by congruence.
  rewrite insert_insert_eq. reflexivity.
Qed.

Lemma syncLayer_active (st : @State num) a i :
  syncLayer (Some a) a i st = (Ret tt, st).
Proof. unfold syncLayer. rewrite bool_decide_eq_true_2; reflexivity. Qed.

Lemma syncLayer_no_viewport (st : @State num) act l L i :
  Some l <> act ->
  heap st !! l = Some L -> viewport L = None ->
  syncLayer act l i st = (Ret tt, st).
Proof.
  intros Hne Hl Hv. unfold syncLayer.
  rewrite bool_decide_eq_false_2 by assumption.
  run_deref Hl. rewrite Hv. reflexivity.
Qed.

Lemma synced_layer_again (av : @Viewport num) ka lv (L : @Layer num) :
  let L' := synced_layer av ka lv L in
  let lv' := synced_viewport av (anchorScale lv L / ka) lv in
  viewport L' = Some lv' /\ synced_layer av ka lv' L' = L'.
Proof.
  simpl. split; [reflexivity|].
  unfold synced_layer at 1.
  assert (Hs : syncProps (synced_layer av ka lv L)
               = Some {| originalScale := anchorScale lv L |})
    by apply capture_syncProps.
  unfold capture, anchorScale at 1. rewrite Hs. reflexivity.
Qed.

Section Loop.

(** The state [syncViewports] starts from, and its active layer. *)
Variables (st0 : @State num) (a : loc) (A : @Layer num) (av : @Viewport num).
Hypothesis Ha0 : heap st0 !! a = Some A.
Hypothesis Hav0 : viewport A = Some av.

Local Abbreviation Done := (Done st0 a A av).
Local Abbreviation Inv := (Inv st0 a A av).

Lemma Inv_init : Inv st0.
Proof. split; [left; exact Ha0 | intros; left; reflexivity]. Qed.

Lemma Inv_active st :
  Inv st ->
  exists A', heap st !! a = Some A' /\ viewport A' = Some av /\
             anchorScale av A' = anchorScale av A /\
             capture av A' = capture av A.
Proof.
  intros [[H|H] _].
  - exists A. repeat split; assumption.
  - exists (capture av A). repeat split; try assumption.
    + rewrite capture_viewport. exact Hav0.
    + apply anchorScale_capture.
    + apply capture_idem.
Qed.

Lemma syncLayer_Inv st l i :
  Inv st -> is_Some (heap st0 !! l) ->
  exists st',
    syncLayer (Some a) l i st = (Ret tt, st') /\ Inv st' /\
    (forall k, k <> a -> Done st k -> Done st' k) /\
    (l <> a -> forall L0 lv0,
       heap st0 !! l = Some L0 -> viewport L0 = Some lv0 -> Done st' l).
Proof.
  intros HI [L0 HL0].
  destruct (decide (l = a)) as [->|Hne].
  { exists st. rewrite syncLayer_active. repeat split; try assumption.
    - apply HI.
    - apply HI.
    - intros k _ Hk; exact Hk.
    - intros Hne; contradiction. }
  destruct (Inv_active st HI) as (A' & HA' & HvA' & Hanc & Hcap).
  assert (Hcur : exists L lv_opt, heap st !! l = Some L /\
            viewport L = lv_opt /\
            match lv_opt with
            | None => viewport L0 = None /\ L = L0
            | Some lv =>
                exists lv0, viewport L0 = Some lv0 /\
                  synced_layer av (anchorScale av A) lv L
                  = synced_layer av (anchorScale av A) lv0 L0
            end).
  { destruct HI as [_ HI]. destruct (HI l Hne) as [Heq|HD].
    - exists L0, (viewport L0). rewrite Heq. repeat split; [assumption|].
      destruct (viewport L0) as [lv0|]; [|split; reflexivity].
      exists lv0. split; reflexivity.
    - destruct HD as (L0' & lv0 & H1 & H2 & H3 & H4).
      assert (L0' = L0) by congruence. subst L0'.
      destruct (synced_layer_again av (anchorScale av A) lv0 L0) as [Hv Hag].
      eexists _, _. split; [exact H4|]. split; [exact Hv|].
      exists lv0. split; [assumption|]. exact Hag. }
  destruct Hcur as (L & [lv|] & Hl & Hlv & Hrel).
  - destruct Hrel as (lv0 & HvL0 & Hsame).
    eexists. split.
    { apply (syncLayer_run st a l A' L av lv i Hne HA' HvA' Hl Hlv). }
    rewrite Hanc, Hcap. fold (synced_layer av (anchorScale av A) lv L).
    rewrite Hsame.
    assert (HD : Done
      (set_heap (<[l := synced_layer av (anchorScale av A) lv0 L0]>
                   (<[a := capture av A]> (heap st))) st) l).
    { exists L0, lv0. repeat split; try assumption; simpl.
      - rewrite lookup_insert_ne by assumption. apply lookup_insert_eq.
      - apply lookup_insert_eq. }
    assert (Hkeep : forall k, k <> a -> Done st k ->
      Done (set_heap (<[l := synced_layer av (anchorScale av A) lv0 L0]>
                        (<[a := capture av A]> (heap st))) st) k).
    { intros k Hk HDk. destruct (decide (k = l)) as [->|Hkl]; [exact HD|].
      destruct HDk as (K0 & kv0 & H1 & H2 & H3 & H4).
      exists K0, kv0. repeat split; try assumption; simpl.
      - rewrite lookup_insert_ne by assumption. apply lookup_insert_eq.
      - rewrite !lookup_insert_ne by congruence. exact H4. }
    repeat split.
    + right. simpl. rewrite lookup_insert_ne by assumption.
      apply lookup_insert_eq.
    + intros k Hk. destruct (decide (k = l)) as [->|Hkl]; [right; exact HD|].
      destruct HI as [_ HI]. destruct (HI k Hk) as [Heq|HDk].
      * left. simpl. rewrite !lookup_insert_ne by congruence. exact Heq.
      * right. apply Hkeep; assumption.
    + exact Hkeep.
    + intros _ L0' lv0' _ _. exact HD.
  - destruct Hrel as [HvL0 ->].
    exists st. split.
    { apply (syncLayer_no_viewport st (Some a) l L0 i); congruence. }
    repeat split; try apply HI.
    + intros k _ Hk; exact Hk.
    + intros _ L0' lv0' HL0' Hlv0'. congruence.
Qed.

Lemma syncLoop_Inv layers : forall st i,
  Inv st -> Forall (fun l => is_Some (heap st0 !! l)) layers ->
  exists st',
    forEach_from i layers (syncLayer (Some a)) st = (Ret tt, st') /\
    Inv st' /\
    (forall k, k <> a -> Done st k -> Done st' k) /\
    (forall l, l ∈ layers -> l <> a -> forall L0 lv0,
       heap st0 !! l = Some L0 -> viewport L0 = Some lv0 -> Done st' l).
Proof.
  induction layers as [|l layers IH]; intros st i HI Hlive.
  - exists st. repeat split; try apply HI; try (intros; assumption).
    intros l Hin. inversion Hin.
  - inversion Hlive as [|? ? Hl Hrest]; subst.
    destruct (syncLayer_Inv st l i HI Hl) as (st1 & Hrun & HI1 & Hkeep1 & Hnew1).
    destruct (IH st1 (S i) HI1 Hrest) as (st2 & Hrun2 & HI2 & Hkeep2 & Hnew2).
    exists st2. split.
    { simpl. rewrite (bind_Ret _ _ _ _ _ Hrun). exact Hrun2. }
    repeat split; try apply HI2.
    + intros k Hk HD. apply Hkeep2, Hkeep1; assumption.
    + intros k Hin Hk L0 lv0 HL0 Hlv0.
      apply elem_of_cons in Hin as [->|Hin].
      * apply Hkeep2; [assumption|]. apply (Hnew1 Hk L0 lv0); assumption.
      * apply (Hnew2 k Hin Hk L0 lv0); assumption.
Qed.

End Loop.

(** Once both layers carry a snapshot, [getViewportRatio] only reads. *)
Lemma getViewportRatio_pure (st : @State num) b t B T bv tv bs ts :
  b <> t ->
  heap st !! b = Some B -> viewport B = Some bv -> syncProps B = Some bs ->
  heap st !! t = Some T -> viewport T = Some tv -> syncProps T = Some ts ->
  getViewportRatio (Some b) (Some t) st
  = (Ret (originalScale ts / originalScale bs), st).
Proof.
  intros Hne Hb Hbv Hbs Ht Htv Hts.
  rewrite (getViewportRatio_run st b t B T bv tv Hne Hb Hbv Ht Htv).
  unfold anchorScale, capture. rewrite Hbs, Hts. simpl.
  rewrite (insert_id _ _ _ Hb), (insert_id _ _ _ Ht), set_heap_id.
  reflexivity.
Qed.

(** C1: after [syncViewports(layers, activeLayer)], every layer of the set
    other than the active one, when both have a viewport, has scale
    [activeLayer.viewport.scale * r], the active layer's rotation, the active
    layer's translation divided by [r] in both components, and the active
    layer's flip flags, where [r = getViewportRatio(activeLayer, layer)]; the
    ratio is the same whether it is taken before or after the call, and the
    active layer's viewport is left as it was. *)
Theorem syncViewports_brings_layers_in_line
    (st : @State num) (layers : list loc) (a : loc) A av :
  heap st !! a = Some A -> viewport A = Some av ->
  Forall (fun l => is_Some (heap st !! l)) layers ->
  exists st',
    syncViewports layers (Some a) st = (Ret tt, st') /\
    (exists A', heap st' !! a = Some A' /\ viewport A' = Some av) /\
    forall l L lv,
      l ∈ layers -> l <> a ->
      heap st !! l = Some L -> viewport L = Some lv ->
      exists L' lv' r,
        heap st' !! l = Some L' /\ viewport L' = Some lv' /\
        getViewportRatio (Some a) (Some l) st' = (Ret r, st') /\
        fst (getViewportRatio (Some a) (Some l) st) = Ret r /\
        scale lv' = scale av * r /\
        rotation lv' = rotation av /\
        px (translation lv') = px (translation av) / r /\
        py (translation lv') = py (translation av) / r /\
        hflip lv' = hflip av /\
        vflip lv' = vflip av.
Proof.
  intros Ha Hav Hlive.
  destruct (syncLoop_Inv st a A av Hav layers st 0 (Inv_init st a A av Ha) Hlive)
    as (st' & Hrun & HI & _ & Hdone).
  exists st'. split; [exact Hrun|]. split.
  { destruct (Inv_active st a A av Hav st' HI) as (A' & HA' & HvA' & _).
    exists A'. split; assumption. }
  intros l L lv Hin Hne Hl Hlv.
  destruct (Hdone l Hin Hne L lv Hl Hlv) as (L0 & lv0 & HL0 & Hlv0 & Ha' & Hl').
  assert (L0 = L) by congruence. subst L0.
  assert (lv0 = lv) by congruence. subst lv0.
  set (r := anchorScale lv L / anchorScale av A).
  exists (synced_layer av (anchorScale av A) lv L), (synced_viewport av r lv), r.
  split; [exact Hl'|]. split; [reflexivity|]. split.
  { apply (getViewportRatio_pure st' a l (capture av A)
             (synced_layer av (anchorScale av A) lv L)
             av (synced_viewport av r lv)
             {| originalScale := anchorScale av A |}
             {| originalScale := anchorScale lv L |}
             (not_eq_sym Hne) Ha').
    - rewrite capture_viewport. exact Hav.
    - apply capture_syncProps.
    - exact Hl'.
    - reflexivity.
    - apply (capture_syncProps lv L). }
  split.
  { rewrite (getViewportRatio_run st a l A L av lv (not_eq_sym Hne) Ha Hav Hl Hlv).
    reflexivity. }
  repeat split.
Qed.

End Synchroniser.

(** ** Viewport synchroniser: a run *)

Lemma syncViewports_brings_layers_in_line_witness :
  exists st',
    syncViewports [1; 2] (Some 1) ct_pet = (Ret tt, st') /\
    (exists A', heap st' !! 1 = Some A' /\ viewport A' = Some ct_viewport) /\
    forall l L lv,
      l ∈ [1; 2] -> l <> 1 ->
      heap ct_pet !! l = Some L -> viewport L = Some lv ->
      exists L' lv' r,
        heap st' !! l = Some L' /\ viewport L' = Some lv' /\
        getViewportRatio (Some 1) (Some l) st' = (Ret r, st') /\
        fst (getViewportRatio (Some 1) (Some l) ct_pet) = Ret r /\
        scale lv' = (scale ct_viewport * r)%js /\
        rotation lv' = rotation ct_viewport /\
        px (translation lv') = (px (translation ct_viewport) / r)%js /\
        py (translation lv') = (py (translation ct_viewport) / r)%js /\
        hflip lv' = hflip ct_viewport /\
        vflip lv' = vflip ct_viewport.
Proof.
  apply (syncViewports_brings_layers_in_line ct_pet [1; 2] 1 ct_layer
           ct_viewport); try reflexivity.
  repeat constructor; eexists; reflexivity.
Defined.

(** ** Reasoning about outcomes and final states *)

Section Outcomes.

Context {num : Type} `{NumberOps : Number num}.

Lemma wp_bind {A B} (m : @M num A) (k : A -> @M num B) st Q :
  wp m st (fun o st1 =>
             match o with
             | Ret a => wp (k a) st1 Q
             | Throw e => Q (Throw e) st1
             end) ->
  wp (bind m k) st Q.
Proof. unfold wp, bind. destruct (m st) as [[a|e] st1]; simpl; auto. Qed.

Lemma wp_ret {A} (a : A) st (Q : Outcome A -> @State num -> Prop) :
  Q (Ret a) st -> wp (ret a) st Q.
Proof. auto. Qed.

Lemma wp_throw {A} e st (Q : Outcome A -> @State num -> Prop) :
  Q (Throw e) st -> wp (throw e) st Q.
Proof. auto. Qed.

Lemma wp_prop {A} (o : option A) st (Q : Outcome A -> @State num -> Prop) :
  (forall a, o = Some a -> Q (Ret a) st) ->
  (o = None -> Q (Throw TypeError) st) ->
  wp (prop o) st Q.
Proof. destruct o; unfold wp; simpl; auto. Qed.

Lemma wp_deref r st (Q : Outcome (@Layer num) -> @State num -> Prop) :
  (forall l L, r = Some l -> heap st !! l = Some L -> Q (Ret L) st) ->
  ((forall l, r = Some l -> heap st !! l = None) -> Q (Throw TypeError) st) ->
  wp (deref r) st Q.
Proof.
  intros HR HT. unfold wp, deref. destruct r as [l|]; [|apply HT; discriminate].
  destruct (heap st !! l) as [L|] eqn:E; simpl.
  - apply (HR l L eq_refl E).
  - apply HT. intros l' [= <-]. exact E.
Qed.

Lemma wp_assign r f st (Q : Outcome unit -> @State num -> Prop) :
  (forall l L, r = Some l -> heap st !! l = Some L ->
     Q (Ret tt) (set_heap (<[l := f L]> (heap st)) st)) ->
  ((forall l, r = Some l -> heap st !! l = None) -> Q (Throw TypeError) st) ->
  wp (assign r f) st Q.
Proof.
  intros HR HT. unfold wp, assign. destruct r as [l|]; [|apply HT; discriminate].
  destruct (heap st !! l) as [L|] eqn:E; simpl.
  - apply (HR l L eq_refl E).
  - apply HT. intros l' [= <-]. exact E.
Qed.

Lemma wp_emit e st (Q : Outcome unit -> @State num -> Prop) :
  Q (Ret tt) (add_event e st) -> wp (emit e) st Q.
Proof. auto. Qed.

Lemma wp_mono {A} (m : @M num A) st (Q Q' : Outcome A -> @State num -> Prop) :
  wp m st Q -> (forall o s, Q o s -> Q' o s) -> wp m st Q'.
Proof. unfold wp. auto. Qed.

Lemma wp_respects {A} (R : @State num -> @State num -> Prop)
    `{!Transitive R} (m : @M num A) st0 st
    (Q : Outcome A -> @State num -> Prop) :
  respects R m -> R st0 st ->
  (forall o st1, R st0 st1 -> Q o st1) ->
  wp m st Q.
Proof.
  intros Hm H0 HQ. unfold wp. apply HQ.
  transitivity st; [exact H0 | apply Hm].
Qed.

Lemma respects_intro {A} (R : @State num -> @State num -> Prop)
    `{!Reflexive R} (m : @M num A) :
  (forall st0 st, R st0 st -> wp m st (fun _ s => R st0 s)) ->
  respects R m.
Proof. intros H st. apply (H st st). reflexivity. Qed.

Lemma respects_forEach {A} (R : @State num -> @State num -> Prop)
    `{!Reflexive R, !Transitive R} (xs : list A) body :
  (forall x i, respects R (body x i)) ->
  forall i, respects R (forEach_from i xs body).
Proof.
  intros Hbody. induction xs as [|x xs IH]; intros i st; simpl.
  - reflexivity.
  - unfold bind. pose proof (Hbody x i st) as H1.
    destruct (body x i st) as [[[]|e] st1]; simpl in *; [|exact H1].
    transitivity st1; [exact H1 | apply IH].
Qed.

End Outcomes.

(** One step of symbolic execution. *)
Ltac wp_step :=
  lazymatch goal with
  | |- wp (bind _ _) _ _ => apply wp_bind
  | |- wp (ret _) _ _ => apply wp_ret
  | |- wp (throw _) _ _ => apply wp_throw
  | |- wp (deref _) _ _ => apply wp_deref; [intros ? ? ? ? | intros ? ]
  | |- wp (prop _) _ _ => apply wp_prop; [intros ? ? | intros ? ]
  | |- wp (assign _ _) _ _ => apply wp_assign; [intros ? ? ? ? | intros ? ]
  | |- wp (emit _) _ _ => apply wp_emit
  | |- wp (if ?b then _ else _) _ _ => destruct b eqn:?
  | |- wp (match ?o with _ => _ end) _ _ => destruct o eqn:?
  end.

(** ** What a run may change *)

Section Frames.

Context {num : Type} `{NumberOps : Number num}.

#[export] Instance same_but_snapshot_refl : Reflexive (@same_but_snapshot num).
Proof. intros K. left. reflexivity. Qed.

#[export] Instance same_but_snapshot_trans : Transitive (@same_but_snapshot num).
Proof.
  intros K1 K2 K3 [->|[Hn [s ->]]] H23; [exact H23|].
  destruct H23 as [->|[Hn' _]]; [|discriminate].
  right. split; [exact Hn|]. exists s. reflexivity.
Qed.

#[export] Instance only_snapshots_refl : Reflexive (@only_snapshots num).
Proof.
  intros st. repeat split. intros k. destruct (heap st !! k) as [K|].
  - exists K. split; reflexivity.
  - reflexivity.
Qed.

#[export] Instance only_snapshots_trans : Transitive (@only_snapshots num).
Proof.
  intros s1 s2 s3 (Hl1 & Hs1 & H1) (Hl2 & Hs2 & H2).
  split; [congruence|]. split; [congruence|]. intros k.
  specialize (H1 k). specialize (H2 k).
  destruct (heap s1 !! k) as [K1|].
  - destruct H1 as (K2 & HK2 & HR). rewrite HK2 in H2.
    destruct H2 as (K3 & HK3 & HR'). exists K3. split; [assumption|].
    etransitivity; eassumption.
  - rewrite H1 in H2. exact H2.
Qed.

#[export] Instance snapshots_kept_refl : Reflexive (@snapshots_kept num).
Proof. intros st k K s HK Hs. exists K. split; assumption. Qed.

#[export] Instance snapshots_kept_trans : Transitive (@snapshots_kept num).
Proof.
  intros s1 s2 s3 H1 H2 k K s HK Hs.
  destruct (H1 k K s HK Hs) as (K2 & HK2 & Hs2).
  apply (H2 k K2 s HK2 Hs2).
Qed.

Lemma only_snapshots_kept (st st' : @State num) :
  only_snapshots st st' -> snapshots_kept st st'.
Proof.
  intros (_ & _ & H) k K s HK Hs. specialize (H k). rewrite HK in H.
  destruct H as (K' & HK' & [->|[Hn _]]); [|congruence].
  exists K. split; assumption.
Qed.

(** Writing a layer back. *)
Lemma only_snapshots_store (st : @State num) l L L' :
  heap st !! l = Some L -> same_but_snapshot L L' ->
  only_snapshots st (set_heap (<[l := L']> (heap st)) st).
Proof.
  intros Hl HR. repeat split. intros k. simpl.
  destruct (decide (l = k)) as [<-|Hne].
  - rewrite Hl, lookup_insert_eq. exists L'. split; [reflexivity|exact HR].
  - rewrite lookup_insert_ne by assumption.
    destruct (heap st !! k) as [K|]; [|reflexivity].
    exists K. split; reflexivity.
Qed.

Lemma snapshots_kept_store (st : @State num) l L L' :
  heap st !! l = Some L ->
  (forall s, syncProps L = Some s -> syncProps L' = Some s) ->
  snapshots_kept st (set_heap (<[l := L']> (heap st)) st).
Proof.
  intros Hl HR k K s HK Hs. simpl.
  destruct (decide (l = k)) as [<-|Hne].
  - rewrite lookup_insert_eq. exists L'. split; [reflexivity|].
    apply HR. congruence.
  - rewrite lookup_insert_ne by assumption. exists K. split; assumption.
Qed.

Lemma snapshots_kept_log (st : @State num) e :
  snapshots_kept st (add_event e st).
Proof. intros k K s HK Hs. exists K. split; assumption. Qed.

(** A state change that respects [R], inside a longer run. *)
Lemma wp_change {A} (R : @State num -> @State num -> Prop) `{!Transitive R}
    (m : @M num A) st0 st (Q : Outcome A -> @State num -> Prop) :
  R st (m st).2 -> R st0 st ->
  (forall o st1, R st0 st1 -> Q o st1) ->
  wp m st Q.
Proof.
  intros Hm H0 HQ. unfold wp. apply HQ. transitivity st; assumption.
Qed.

(** [if (!layer.syncProps) updateLayerSyncProps(layer)], for the layer
    just read. *)
Lemma ensure_snapshot_only_snapshots (st : @State num) l L :
  heap st !! l = Some L ->
  only_snapshots st
    ((if isSome (syncProps L) then ret tt
      else updateLayerSyncProps (Some l)) st).2.
Proof.
  intros Hl. destruct (syncProps L) as [s|] eqn:Es; simpl; [reflexivity|].
  destruct (viewport L) as [v|] eqn:Ev.
  - rewrite (updateLayerSyncProps_run st l L v Hl Ev). simpl.
    apply (only_snapshots_store st l L _ Hl). right. split; [exact Es|].
    eexists. reflexivity.
  - unfold updateLayerSyncProps.
    rewrite (bind_Ret _ _ _ _ _ (deref_Some _ _ _ Hl)), Ev. reflexivity.
Qed.

Lemma getViewportRatio_only_snapshots b t :
  respects only_snapshots (getViewportRatio b t).
Proof.
  apply respects_intro; [typeclasses eauto|]. intros st0 st H0.
  unfold getViewportRatio.
  wp_step. wp_step; [subst b|exact H0].
  wp_step.
  apply (wp_change only_snapshots _ st0 st);
    [apply ensure_snapshot_only_snapshots; assumption | exact H0 |].
  clear dependent st. intros [[]|e] st H0; [|exact H0].
  wp_step. wp_step; [subst t|exact H0].
  wp_step.
  apply (wp_change only_snapshots _ st0 st);
    [apply ensure_snapshot_only_snapshots; assumption | exact H0 |].
  clear dependent st. intros [[]|e] st H0; [|exact H0].
  repeat (wp_step; try exact H0).
Qed.

End Frames.

(** Carry [H0 : R st0 st] across a step that respects [R]. *)
Tactic Notation "wp_across" uconstr(lem) hyp(H0) :=
  lazymatch goal with
  | |- wp _ ?st _ =>
      lazymatch type of H0 with
      | ?R ?st0 st =>
          apply (wp_respects R _ st0 st _ lem H0);
          clear dependent st; intros [?|?] st H0; [|try exact H0]
      end
  end.

(** ** What the synchroniser and the drawing loop may change *)

Section RunFrames.
Context {num : Type} `{NumberOps : Number num}.
Variable Math : MathObj num.

Lemma calculatePetFuisonTransform_only_snapshots e a :
  respects only_snapshots (calculatePetFuisonTransform Math e a).
Proof.
  apply respects_intro; [typeclasses eauto|]. intros st0 st H0.
  unfold calculatePetFuisonTransform.
  repeat (wp_step; try exact H0).
  apply (wp_respects only_snapshots _ st0 st _
           (getViewportRatio_only_snapshots a e) H0).
  intros [r|ex] st1 Hst1; [|exact Hst1].
  apply wp_ret. exact Hst1.
Qed.

Lemma respects_weaken {A} (R R' : @State num -> @State num -> Prop)
    (m : @M num A) :
  (forall s s', R s s' -> R' s s') -> respects R m -> respects R' m.
Proof. intros HRR Hm st. apply HRR, Hm. Qed.

Lemma assign_snapshots_kept r f :
  (forall K : @Layer num, syncProps (f K) = syncProps K) ->
  respects snapshots_kept (assign r f).
Proof.
  intros Hf st. unfold assign. destruct r as [l|]; [|reflexivity].
  destruct (heap st !! l) as [L|] eqn:E; [|reflexivity]. simpl.
  apply (snapshots_kept_store st l L _ E). intros s. rewrite Hf. auto.
Qed.

Lemma assign_viewport_snapshots_kept r f :
  respects snapshots_kept (@assign_viewport num r f).
Proof.
  apply respects_intro; [typeclasses eauto|]. intros st0 st H0.
  unfold assign_viewport. repeat (wp_step; try exact H0).
  transitivity st; [exact H0|].
  eapply snapshots_kept_store; [eassumption | auto].
Qed.

Lemma assign_options_snapshots_kept r f :
  respects snapshots_kept (@assign_options num r f).
Proof.
  apply respects_intro; [typeclasses eauto|]. intros st0 st H0.
  unfold assign_options. repeat (wp_step; try exact H0).
  transitivity st; [exact H0|].
  eapply snapshots_kept_store; [eassumption | auto].
Qed.

Lemma getViewportRatio_snapshots_kept b t :
  respects snapshots_kept (@getViewportRatio num _ b t).
Proof.
  apply (respects_weaken only_snapshots); [apply only_snapshots_kept|].
  apply getViewportRatio_only_snapshots.
Qed.

Lemma syncLayer_snapshots_kept act l i :
  respects snapshots_kept (syncLayer act l i).
Proof.
  apply respects_intro; [typeclasses eauto|]. intros st0 st H0.
  unfold syncLayer.
  wp_step; [apply wp_ret; exact H0|].
  wp_step. wp_step; [|exact H0].
  wp_step; [apply wp_ret; exact H0|].
  wp_step. wp_step; [|exact H0].
  wp_step; [apply wp_ret; exact H0|].
  wp_step.
  match goal with H : Some l = Some _ |- _ => injection H as <- end.
  apply (wp_change snapshots_kept _ st0 st);
    [apply only_snapshots_kept, ensure_snapshot_only_snapshots; assumption
    | exact H0 |].
  clear dependent st. intros [[]|ex] st H0; [|exact H0].
  wp_step. wp_across (getViewportRatio_snapshots_kept act (Some l)) H0.
  do 4 (wp_step; wp_step; [|exact H0]; wp_step; wp_step; [|exact H0];
        wp_step;
        wp_across (assign_viewport_snapshots_kept (Some l) _) H0).
  wp_step. wp_step; [|exact H0]. wp_step. wp_step; [|exact H0].
  wp_across (assign_viewport_snapshots_kept (Some l) _) H0.
  exact H0.
Qed.

Lemma syncViewports_snapshots_kept layers act :
  respects snapshots_kept (@syncViewports num _ layers act).
Proof.
  apply respects_forEach; try typeclasses eauto.
  intros x i. apply syncLayer_snapshots_kept.
Qed.

Lemma emit_snapshots_kept e : respects snapshots_kept (@emit num e).
Proof. intros st. apply snapshots_kept_log. Qed.

Lemma calculatePetFuisonTransform_snapshots_kept e a :
  respects snapshots_kept (calculatePetFuisonTransform Math e a).
Proof.
  apply (respects_weaken only_snapshots); [apply only_snapshots_kept|].
  apply calculatePetFuisonTransform_only_snapshots.
Qed.

Lemma renderLayer_snapshots_kept cnv act inv l i :
  respects snapshots_kept (renderLayer Math cnv act inv l i).
Proof.
  apply respects_intro; [typeclasses eauto|]. intros st0 st H0.
  unfold renderLayer.
  wp_step. wp_step; [|exact H0].
  wp_step; [apply wp_ret; exact H0|].
  wp_step. wp_across (emit_snapshots_kept _) H0.
  wp_step.
  wp_across (assign_snapshots_kept (Some l) (set_canvas (Some cnv))
               (fun _ => eq_refl)) H0.
  wp_step. wp_step; [|exact H0]. wp_step. wp_step; [|exact H0].
  wp_step.
  apply (wp_mono _ _ (fun _ s => snapshots_kept st0 s)).
  { wp_step.
    - wp_step.
      wp_across (calculatePetFuisonTransform_snapshots_kept (Some l) act) H0.
      wp_across (emit_snapshots_kept _) H0; exact H0.
    - wp_across (emit_snapshots_kept _) H0; exact H0. }
  clear dependent st. intros [[]|ex] st H0; [|exact H0].
  wp_step. wp_step; [|exact H0]. wp_step. wp_step; [|exact H0].
  wp_step.
  apply (wp_mono _ _ (fun _ s => s = st)).
  { repeat (wp_step; try reflexivity). }
  intros [c|ex] ? ->; [|exact H0].
  wp_step. wp_across (emit_snapshots_kept _) H0.
  wp_step. wp_across (emit_snapshots_kept _) H0.
  wp_step.
  apply (wp_mono _ _ (fun _ s => snapshots_kept st0 s)).
  { repeat (wp_step; try exact H0). }
  clear dependent st. intros [[]|ex] st H0; [|exact H0].
  do 4 (wp_step; wp_across (emit_snapshots_kept _) H0).
  wp_across (assign_snapshots_kept (Some l) (set_invalid false)
               (fun _ => eq_refl)) H0.
  exact H0.
Qed.

Lemma renderLayers_snapshots_kept cnv layers act inv :
  respects snapshots_kept (renderLayers Math cnv layers act inv).
Proof.
  apply respects_forEach; try typeclasses eauto.
  intros x i. apply renderLayer_snapshots_kept.
Qed.

End RunFrames.

(** ** What a whole render may change *)

Section CompositeFrames.
Context {num : Type} `{NumberOps : Number num}.
Variable Math : MathObj num.
Variable getImageFitScale : @Canvas num -> @Image num -> num -> @FitScale num.

(** [allLayers.some(...)] only reads. *)
Lemma bResetPetScale_reads allLayers (st : @State num) :
  (bResetPetScale allLayers st).2 = st.
Proof.
  unfold bResetPetScale. induction allLayers as [|l ls IH]; [reflexivity|].
  simpl. unfold bind at 1. unfold bind at 1.
  unfold deref, prop. destruct (heap st !! l) as [L|]; simpl; [|reflexivity].
  destruct (petResizePending L); [reflexivity | exact IH].
Qed.

(** It answers [true] only when some layer is a PET layer with a pending
    resize request. *)
Lemma bResetPetScale_true allLayers (st : @State num) :
  (bResetPetScale allLayers st).1 = Ret true ->
  exists l L, l ∈ allLayers /\ heap st !! l = Some L /\
              petResizePending L = true.
Proof.
  unfold bResetPetScale. induction allLayers as [|l ls IH]; [discriminate|].
  simpl. unfold bind at 1. unfold bind at 1.
  unfold deref, prop. destruct (heap st !! l) as [L|] eqn:E; simpl;
    [|discriminate].
  destruct (petResizePending L) eqn:EP.
  - intros _. exists l, L. split; [left|split; assumption].
  - intros H. destruct (IH H) as (l' & L' & Hin & Hl' & HP).
    exists l', L'. split; [right; exact Hin|split; assumption].
Qed.

(** When every layer is a live object and one of them is a PET layer with
    a pending resize request, it answers [true]. *)
Lemma bResetPetScale_pending allLayers (st : @State num) l L :
  Forall (fun l => is_Some (heap st !! l)) allLayers ->
  l ∈ allLayers -> heap st !! l = Some L -> petResizePending L = true ->
  bResetPetScale allLayers st = (Ret true, st).
Proof.
  unfold bResetPetScale. intros Hlive Hin Hl HP.
  induction allLayers as [|x ls IH]; [inversion Hin|].
  inversion Hlive as [|? ? [X HX] Hrest]; subst.
  simpl. rewrite (bind_Ret _ _ _ _ _
                    (bind_Ret _ _ _ _ _ (deref_Some _ _ _ HX))).
  simpl. unfold ret at 1.
  destruct (petResizePending X) eqn:EX; [reflexivity|].
  apply elem_of_cons in Hin as [->|Hin]; [congruence|].
  apply IH; assumption.
Qed.

Lemma clearCanvas_snapshots_kept cnv :
  respects snapshots_kept (@clearCanvas num _ cnv).
Proof. intros st. intros k K s HK Hs. exists K. split; assumption. Qed.

(** C6, amended: in a composite render in which the sync flag does not go
    from off to on and no layer of the registry is a PET layer with a
    pending resize request, every layer keeps the sync snapshot it already
    has, whatever the outcome of the call. *)
Theorem snapshots_kept_without_resync_or_resize ee inv (st : @State num) :
  negb (lastSyncViewportsState st) && ee_syncViewports ee = false ->
  (forall l L, l ∈ getLayers (ee_registry ee) ->
     heap st !! l = Some L -> petResizePending L = false) ->
  forall k K s,
    heap st !! k = Some K -> syncProps K = Some s ->
    exists K',
      heap (drawCompositeImage Math getImageFitScale ee inv st).2 !! k = Some K'
      /\ syncProps K' = Some s.
Proof.
  intros Hre Hno.
  change (snapshots_kept st
            (drawCompositeImage Math getImageFitScale ee inv st).2).
  change (wp (drawCompositeImage Math getImageFitScale ee inv) st
            (fun _ s => snapshots_kept st s)).
  unfold drawCompositeImage.
  apply wp_bind. unfold wp at 1, get_lastSyncViewportsState. simpl.
  rewrite Hre.
  apply wp_bind. unfold wp at 1, put_lastSyncViewportsState. simpl.
  set (st1 := set_lastSync _ st).
  assert (H0 : snapshots_kept st st1).
  { intros k K s HK Hs. exists K. split; assumption. }
  apply wp_bind. apply wp_ret.
  apply wp_bind. unfold wp at 1.
  pose proof (bResetPetScale_reads (getLayers (ee_registry ee)) st1) as Hrd.
  pose proof (bResetPetScale_true (getLayers (ee_registry ee)) st1) as Htr.
  destruct (bResetPetScale (getLayers (ee_registry ee)) st1) as [[b|ex] st2];
    simpl in *; subst st2; [|exact H0].
  destruct b.
  { destruct (Htr eq_refl) as (l & L & Hin & Hl & HP).
    rewrite (Hno l L Hin Hl) in HP. discriminate. }
  clear Htr.
  apply wp_bind. apply wp_ret.
  apply wp_bind.
  apply (wp_mono _ _ (fun _ s => snapshots_kept st s)).
  { destruct (ee_syncViewports ee); [|apply wp_ret; exact H0].
    apply (wp_respects snapshots_kept _ st st1 _
             (syncViewports_snapshots_kept _ _) H0).
    intros o s Hs; exact Hs. }
  clear dependent st1. intros [[]|ex] st1 H0; [|exact H0].
  apply wp_bind.
  wp_across (clearCanvas_snapshots_kept _) H0.
  wp_across (renderLayers_snapshots_kept Math _ _ _ _) H0.
  exact H0.
Qed.

End CompositeFrames.

(** ** Sync snapshots: a render that recomputes one, and one that keeps them *)

Lemma float_3_neq_1 : 3%float <> 1%float.
Proof.
  intros H.
  assert (E : PrimFloat.eqb 3 1 = PrimFloat.eqb 1 1) by (rewrite H; reflexivity).
  discriminate E.
Qed.

(** C6 as stated fails: with sync off before and after, the CT layer (not a
    PET layer, snapshot at scale 1, zoomed to 3) has its snapshot
    recomputed to 3 because the PET layer asks for a resize. *)
Lemma snapshot_recomputed_on_pet_resize :
  ~ (forall (st : @State float) (ee : @EnabledElement float) (inv : bool),
       negb (lastSyncViewportsState st) && ee_syncViewports ee = false ->
       forall k K s,
         heap st !! k = Some K -> syncProps K = Some s ->
         petResizePending K = false ->
         exists K',
           heap (drawCompositeImage approx_Math fit_extent ee inv st).2 !! k
           = Some K' /\ syncProps K' = Some s).
Proof.
  intros H.
  destruct (H resize_pending element_sync_off false eq_refl 1 ct_zoomed
              {| originalScale := 1%float |} eq_refl eq_refl eq_refl)
    as (K' & HK' & Hs).
  vm_compute in HK'.
  assert (E := f_equal (fun o => match o with
                                 | Some L => syncProps L
                                 | None => None
                                 end) HK').
  cbn in E. rewrite Hs in E.
  assert (E' := f_equal (fun o => match o with
                                  | Some s => originalScale s
                                  | None => 0%float
                                  end) E).
  exact (float_3_neq_1 E').
Qed.

Lemma snapshots_kept_without_resync_or_resize_witness :
  exists K',
    heap (drawCompositeImage approx_Math fit_extent
            {| ee_canvas := canvas512; ee_syncViewports := true;
               ee_registry := {| getLayers := [1; 2];
                                 getActiveLayer := Some 1;
                                 getVisibleLayers := [1; 2] |} |}
            false
            {| heap := {[ 1 := ct_zoomed; 2 := pet_layer ]};
               lastSyncViewportsState := true; log := [] |}).2 !! 1
    = Some K' /\ syncProps K' = Some {| originalScale := 1%float |}.
Proof.
  apply (snapshots_kept_without_resync_or_resize approx_Math fit_extent
           {| ee_canvas := canvas512; ee_syncViewports := true;
              ee_registry := {| getLayers := [1; 2];
                                getActiveLayer := Some 1;
                                getVisibleLayers := [1; 2] |} |}
           false
           {| heap := {[ 1 := ct_zoomed; 2 := pet_layer ]};
              lastSyncViewportsState := true; log := [] |}
           eq_refl) with (K := ct_zoomed); try reflexivity.
  intros l L Hin Hl.
  apply elem_of_cons in Hin as [->|Hin];
    [|apply elem_of_cons in Hin as [->|Hin]; [|inversion Hin]];
    vm_compute in Hl; injection Hl as <-; reflexivity.
Defined.

(** ** The PET resize branch of the composite renderer *)

Section Resize.
Context {num : Type} `{NumberOps : Number num}.
Variable Math : MathObj num.
Variable getImageFitScale : @Canvas num -> @Image num -> num -> @FitScale num.

Lemma bind_assoc {A B C} (m : @M num A) (k : A -> @M num B)
    (h : B -> @M num C) st :
  bind (bind m k) h st = bind m (fun a => bind (k a) h) st.
Proof.
  unfold bind. destruct (m st) as [[a|e] st1]; reflexivity.
Qed.

(** Two continuations that agree wherever the first part returns. *)
Lemma bind_ext_on {A B} (m : @M num A) (k k' : A -> @M num B) st :
  (forall a st1, m st = (Ret a, st1) -> k a st1 = k' a st1) ->
  bind m k st = bind m k' st.
Proof.
  intros H. unfold bind. destruct (m st) as [[a|e] st1]; [|reflexivity].
  apply H. reflexivity.
Qed.

#[export] Instance only_syncProps_refl : Reflexive (@only_syncProps num).
Proof.
  intros st. repeat split. intros k. destruct (heap st !! k) as [K|].
  - exists K. split; [reflexivity | destruct K; reflexivity].
  - reflexivity.
Qed.

#[export] Instance only_syncProps_trans : Transitive (@only_syncProps num).
Proof.
  intros s1 s2 s3 (Hl1 & Hs1 & H1) (Hl2 & Hs2 & H2).
  split; [congruence|]. split; [congruence|]. intros k.
  specialize (H1 k). specialize (H2 k).
  destruct (heap s1 !! k) as [K1|].
  - destruct H1 as (K2 & HK2 & HR). rewrite HK2 in H2.
    destruct H2 as (K3 & HK3 & HR'). exists K3. split; [assumption|].
    rewrite <- HR, <- HR'. reflexivity.
  - rewrite H1 in H2. exact H2.
Qed.

Lemma only_syncProps_live (st st' : @State num) ls :
  only_syncProps st st' -> live st ls -> live st' ls.
Proof.
  intros (_ & _ & H) Hl. unfold live in *. rewrite Forall_forall in *.
  intros l Hin. destruct (Hl l Hin) as [L HL]. specialize (H l).
  rewrite HL in H. destruct H as (K' & HK' & _). eexists; exact HK'.
Qed.

Lemma only_syncProps_lookup (st st' : @State num) k K :
  only_syncProps st st' -> heap st !! k = Some K ->
  exists K', heap st' !! k = Some K' /\ options K' = options K /\
             image K' = image K /\ viewport K' = viewport K /\
             layerId K' = layerId K.
Proof.
  intros (_ & _ & H) HK. specialize (H k). rewrite HK in H.
  destruct H as (K' & HK' & <-). exists K'. repeat split. exact HK'.
Qed.

Lemma only_syncProps_requested (st st' : @State num) ls :
  only_syncProps st st' -> resize_requested st ls -> resize_requested st' ls.
Proof.
  intros H (l & L & Hin & HL & HP).
  destruct (only_syncProps_lookup st st' l L H HL) as (K' & HK' & Ho & _).
  exists l, K'. repeat split; try assumption.
  unfold petResizePending in *. rewrite Ho. exact HP.
Qed.

Lemma resyncLayers_run allLayers : forall (st : @State num) i,
  live st allLayers ->
  exists st',
    forEach_from i allLayers (fun layer _ =>
      L <- deref (Some layer) ;;
      if isSome (viewport L) then updateLayerSyncProps (Some layer)
      else ret tt) st = (Ret tt, st') /\
    only_syncProps st st'.
Proof.
  induction allLayers as [|l ls IH]; intros st i Hlive.
  - exists st. split; reflexivity.
  - inversion Hlive as [|? ? [L HL] Hrest]; subst.
    assert (Hstep : exists st1,
      (L <- deref (Some l) ;;
       if isSome (viewport L) then updateLayerSyncProps (Some l)
       else ret tt) st = (Ret tt, st1) /\ only_syncProps st st1).
    { rewrite (bind_Ret _ _ _ _ _ (deref_Some _ _ _ HL)).
      destruct (viewport L) as [v|] eqn:Ev; simpl.
      - rewrite (updateLayerSyncProps_run st l L v HL Ev).
        eexists. split; [reflexivity|]. repeat split. intros k. simpl.
        destruct (decide (l = k)) as [<-|Hne].
        + rewrite HL, lookup_insert_eq. eexists. split; [reflexivity|].
          destruct L; reflexivity.
        + rewrite lookup_insert_ne by assumption.
          destruct (heap st !! k) as [K|]; [|reflexivity].
          exists K. split; [reflexivity | destruct K; reflexivity].
      - exists st. split; reflexivity. }
    destruct Hstep as (st1 & Hrun1 & H1).
    destruct (IH st1 (S i) (only_syncProps_live _ _ _ H1 Hrest))
      as (st2 & Hrun2 & H2).
    exists st2. split.
    + simpl. rewrite (bind_Ret _ _ _ _ _ Hrun1). exact Hrun2.
    + etransitivity; eassumption.
Qed.

(** The program a render amounts to when a PET resize is pending. *)
Lemma drawCompositeImage_when_resize_requested ee inv (st : @State num) :
  let allLayers := getLayers (ee_registry ee) in
  let activeLayer := getActiveLayer (ee_registry ee) in
  let visibleLayers := getVisibleLayers (ee_registry ee) in
  live st allLayers -> resize_requested st allLayers ->
  drawCompositeImage Math getImageFitScale ee inv st
  = (last <- get_lastSyncViewportsState ;;
     put_lastSyncViewportsState (ee_syncViewports ee) ;;
     (if negb last && ee_syncViewports ee
      then resyncLayers allLayers else ret tt) ;;
     resetPetScale getImageFitScale (ee_canvas ee) allLayers ;;
     syncViewports visibleLayers activeLayer ;;
     (if ee_syncViewports ee
      then syncViewports visibleLayers activeLayer else ret tt) ;;
     clearCanvas (ee_canvas ee) ;;
     renderLayers Math (ee_canvas ee) visibleLayers activeLayer inv) st.
Proof.
  intros allLayers activeLayer visibleLayers Hlive Hreq.
  unfold drawCompositeImage. fold allLayers activeLayer visibleLayers.
  apply bind_ext_on. intros last st0 H0.
  unfold get_lastSyncViewportsState in H0. injection H0 as <- <-.
  apply bind_ext_on. intros [] st1 H1.
  unfold put_lastSyncViewportsState in H1. injection H1 as <-.
  apply bind_ext_on. intros [] st2 H2.
  assert (H12 : only_syncProps (set_lastSync (ee_syncViewports ee) st) st2).
  { destruct (negb (lastSyncViewportsState st) && ee_syncViewports ee).
    - destruct (resyncLayers_run allLayers
                  (set_lastSync (ee_syncViewports ee) st) 0 Hlive)
        as (st' & Hrun & Hrel).
      unfold resyncLayers, forEach in H2. rewrite Hrun in H2.
      injection H2 as <-. exact Hrel.
    - injection H2 as <-. reflexivity. }
  assert (Hlive2 : live st2 allLayers)
    by (apply (only_syncProps_live _ _ _ H12); exact Hlive).
  assert (Hreq2 : resize_requested st2 allLayers)
    by (apply (only_syncProps_requested _ _ _ H12); exact Hreq).
  destruct Hreq2 as (l & L & Hin & HL & HP).
  rewrite (bind_Ret _ _ _ _ _
             (bResetPetScale_pending allLayers st2 l L Hlive2 Hin HL HP)).
  rewrite bind_assoc. apply bind_ext_on. intros [] st3 _.
  reflexivity.
Qed.

Lemma ctFusionLayer_run allLayers (st : @State num) :
  (forall l, l ∈ allLayers ->
     exists L o, heap st !! l = Some L /\ options L = Some o) ->
  ctFusionLayer allLayers st = (Ret (List.filter (non_pet st) allLayers), st).
Proof.
  unfold ctFusionLayer. induction allLayers as [|x xs IH]; intros Hopt.
  - reflexivity.
  - destruct (Hopt x) as (X & o & HX & Ho); [left|].
    simpl. unfold non_pet at 1. rewrite HX, Ho.
    assert (Hp : (L <- deref (Some x) ;; o0 <- prop (options L) ;;
                  ret (negb (str_is (name o0) "PET"))) st
                 = (Ret (negb (str_is (name o) "PET")), st)).
    { rewrite (bind_Ret _ _ _ _ _ (deref_Some _ _ _ HX)), Ho. reflexivity. }
    rewrite (bind_Ret _ _ _ _ _ Hp).
    rewrite (bind_Ret _ _ _ _ _
               (IH (fun l Hl => Hopt l (proj2 (elem_of_cons _ _ _) (or_intror Hl))))).
    reflexivity.
Qed.

Lemma ctFusionLayer_throws allLayers (st : @State num) l L :
  live st allLayers ->
  l ∈ allLayers -> heap st !! l = Some L -> options L = None ->
  ctFusionLayer allLayers st = (Throw TypeError, st).
Proof.
  unfold ctFusionLayer. intros Hlive Hin HL Ho.
  induction allLayers as [|x xs IH]; [inversion Hin|].
  inversion Hlive as [|? ? [X HX] Hrest]; subst. simpl.
  destruct (options X) as [o|] eqn:EX.
  - assert (Hp : (L <- deref (Some x) ;; o0 <- prop (options L) ;;
                  ret (negb (str_is (name o0) "PET"))) st
                 = (Ret (negb (str_is (name o) "PET")), st)).
    { rewrite (bind_Ret _ _ _ _ _ (deref_Some _ _ _ HX)), EX. reflexivity. }
    rewrite (bind_Ret _ _ _ _ _ Hp).
    apply elem_of_cons in Hin as [->|Hin]; [congruence|].
    rewrite (bind_Throw _ _ _ _ _ (IH Hrest Hin)). reflexivity.
  - assert (Hp : (L <- deref (Some x) ;; o0 <- prop (options L) ;;
                  ret (negb (str_is (name o0) "PET"))) st
                 = (Throw TypeError, st)).
    { rewrite (bind_Ret _ _ _ _ _ (deref_Some _ _ _ HX)), EX. reflexivity. }
    rewrite (bind_Throw _ _ _ _ _ Hp). reflexivity.
Qed.

(** With no base layer, resizing a PET layer fails before anything is
    drawn. *)
Lemma resizePetLayer_no_base cnv (st : @State num) l L o i :
  heap st !! l = Some L -> options L = Some o ->
  str_is (name o) "PET" = true ->
  wp (resizePetLayer getImageFitScale cnv None l i) st
    (fun out s => out = Throw TypeError /\ log s = log st).
Proof.
  intros HL Ho HP. unfold resizePetLayer.
  wp_step. wp_step; [|split; reflexivity].
  match goal with H : Some l = Some _ |- _ => injection H as <- end.
  match goal with H : heap st !! l = Some ?X |- _ =>
    assert (X = L) by congruence; subst X end.
  rewrite Ho. wp_step. wp_step; [|discriminate].
  match goal with H : Some o = Some _ |- _ => injection H as <- end.
  rewrite HP.
  wp_step.
  wp_step. wp_step; [|split; reflexivity].
  wp_step. wp_step; [|split; reflexivity].
  wp_step.
  apply (wp_mono _ _ (fun out s => log s = log st /\
                         (out = Throw TypeError \/ out = Ret tt))).
  { unfold assign_viewport.
    repeat (wp_step; try (split; [reflexivity | auto])). }
  intros [[]|ex] s [Hlog [Hout|Hout]]; try discriminate;
    [|split; [exact Hout | exact Hlog]].
  wp_step. unfold rescaleImage.
  wp_step. wp_step; [discriminate | split; [reflexivity | exact Hlog]].
Qed.


Lemma rescaleImage_no_base t (st : @State num) :
  rescaleImage None t st = (Throw TypeError, st).
Proof. reflexivity. Qed.

(** Either some layer has no options object, or all of them have one. *)
Lemma options_everywhere_or_not (st : @State num) ls :
  live st ls ->
  (exists l L, l ∈ ls /\ heap st !! l = Some L /\ options L = None) \/
  (forall l, l ∈ ls ->
     exists L o, heap st !! l = Some L /\ options L = Some o).
Proof.
  induction ls as [|x xs IH]; intros Hlive.
  - right. intros l Hin. inversion Hin.
  - inversion Hlive as [|? ? [X HX] Hrest]; subst.
    destruct (options X) as [o|] eqn:EX.
    + destruct (IH Hrest) as [(l & L & Hin & HL & Ho)|Hall].
      * left. exists l, L. split; [right; exact Hin|split; assumption].
      * right. intros l Hin. apply elem_of_cons in Hin as [->|Hin].
        -- exists X, o. split; assumption.
        -- apply Hall, Hin.
    + left. exists x, X. split; [left|split; assumption].
Qed.

(** When the resize branch throws, so does the render, before anything is
    drawn. *)
Lemma drawCompositeImage_resize_fails ee inv (st : @State num) :
  let allLayers := getLayers (ee_registry ee) in
  live st allLayers -> resize_requested st allLayers ->
  (forall st2,
     only_syncProps (set_lastSync (ee_syncViewports ee) st) st2 ->
     exists st3,
       resetPetScale getImageFitScale (ee_canvas ee) allLayers st2
       = (Throw TypeError, st3) /\ log st3 = log st2) ->
  (drawCompositeImage Math getImageFitScale ee inv st).1 = Throw TypeError /\
  log (drawCompositeImage Math getImageFitScale ee inv st).2 = log st.
Proof.
  intros allLayers Hlive Hreq Hfail.
  assert (Hrun : exists st3,
    drawCompositeImage Math getImageFitScale ee inv st = (Throw TypeError, st3)
    /\ log st3 = log st).
  { rewrite (drawCompositeImage_when_resize_requested ee inv st Hlive Hreq).
    fold allLayers.
    unfold bind at 1. unfold get_lastSyncViewportsState at 1. cbn beta iota.
    unfold bind at 1. unfold put_lastSyncViewportsState at 1. cbn beta iota.
    set (st1 := set_lastSync (ee_syncViewports ee) st).
    assert (Hpre : exists st2,
      (if negb (lastSyncViewportsState st) && ee_syncViewports ee
       then resyncLayers allLayers else ret tt) st1 = (Ret tt, st2) /\
      only_syncProps st1 st2).
    { destruct (negb (lastSyncViewportsState st) && ee_syncViewports ee).
      - apply (resyncLayers_run allLayers st1 0 Hlive).
      - exists st1. split; reflexivity. }
    destruct Hpre as (st2 & Hrun2 & H12).
    rewrite (bind_Ret _ _ _ _ _ Hrun2).
    destruct (Hfail st2 H12) as (st3 & Hrun3 & Hlog3).
    rewrite (bind_Throw _ _ _ _ _ Hrun3).
    exists st3. split; [reflexivity|]. rewrite Hlog3.
    destruct H12 as (Hlog2 & _). rewrite Hlog2. reflexivity. }
  destruct Hrun as (st3 & -> & Hlog). split; [reflexivity | exact Hlog].
Qed.

Lemma filter_non_pet_nil (st : @State num) ls :
  (forall l, l ∈ ls -> non_pet st l = false) ->
  List.filter (non_pet st) ls = [].
Proof.
  induction ls as [|x xs IH]; intros Hall; [reflexivity|]. simpl.
  rewrite (Hall x) by left. apply IH. intros l Hin. apply Hall. right.
  exact Hin.
Qed.

(** C10: when some layer is a PET layer with a pending resize request (all
    layers being live objects), the render reads the options of every layer
    of the registry, so it throws before drawing anything when a layer has
    none; the base handed to [rescaleImage] is the first layer whose options
    name is not "PET"; when no such layer exists the base is undefined and
    the render throws a TypeError before drawing anything; hence a render
    that returns had options on every layer and some layer not named
    "PET". *)
Theorem pet_resize_needs_options_and_a_base ee inv (st : @State num) :
  let allLayers := getLayers (ee_registry ee) in
  let run := drawCompositeImage Math getImageFitScale ee inv st in
  live st allLayers -> resize_requested st allLayers ->
  ((exists l L, l ∈ allLayers /\ heap st !! l = Some L /\ options L = None) ->
   run.1 = Throw TypeError /\ log run.2 = log st) /\
  (forall cnv st2,
     (forall l, l ∈ allLayers ->
        exists L o, heap st2 !! l = Some L /\ options L = Some o) ->
     resetPetScale getImageFitScale cnv allLayers st2
     = forEach allLayers
         (resizePetLayer getImageFitScale cnv
            (head (List.filter (non_pet st2) allLayers))) st2) /\
  ((forall l, l ∈ allLayers -> non_pet st l = false) ->
   head (List.filter (non_pet st) allLayers) = None /\
   (forall t st', @rescaleImage num _ None t st' = (Throw TypeError, st')) /\
   run.1 = Throw TypeError /\ log run.2 = log st) /\
  (run.1 = Ret tt ->
   (forall l L, l ∈ allLayers -> heap st !! l = Some L ->
      is_Some (options L)) /\
   exists l, l ∈ allLayers /\ non_pet st l = true).
Proof.
  intros allLayers run Hlive Hreq.
  assert (Hnone :
    (exists l L, l ∈ allLayers /\ heap st !! l = Some L /\ options L = None) ->
    run.1 = Throw TypeError /\ log run.2 = log st).
  { intros (l & L & Hin & HL & Ho).
    apply (drawCompositeImage_resize_fails ee inv st Hlive Hreq).
    intros st2 H12.
    destruct (only_syncProps_lookup _ _ l L H12 HL) as (K' & HK' & HoK & _).
    exists st2. split; [|reflexivity].
    unfold resetPetScale.
    rewrite (bind_Throw _ _ _ _ _
               (ctFusionLayer_throws (getLayers (ee_registry ee)) st2 l K'
                  (only_syncProps_live _ _ _ H12 Hlive) Hin HK'
                  (eq_trans HoK Ho))).
    reflexivity. }
  assert (Hbase : forall cnv st2,
    (forall l, l ∈ allLayers ->
       exists L o, heap st2 !! l = Some L /\ options L = Some o) ->
    resetPetScale getImageFitScale cnv allLayers st2
    = forEach allLayers
        (resizePetLayer getImageFitScale cnv
           (head (List.filter (non_pet st2) allLayers))) st2).
  { intros cnv st2 Hopt. unfold resetPetScale.
    rewrite (bind_Ret _ _ _ _ _ (ctFusionLayer_run allLayers st2 Hopt)).
    reflexivity. }
  assert (Hallpet :
    (forall l, l ∈ allLayers -> non_pet st l = false) ->
    run.1 = Throw TypeError /\ log run.2 = log st).
  { intros Hpet.
    destruct (options_everywhere_or_not st allLayers Hlive) as [Hn|Hopt];
      [apply Hnone, Hn|].
    apply (drawCompositeImage_resize_fails ee inv st Hlive Hreq).
    intros st2 H12. fold allLayers.
    assert (Hopt2 : forall l, l ∈ allLayers ->
      exists L o, heap st2 !! l = Some L /\ options L = Some o /\
                  str_is (name o) "PET" = true).
    { intros l Hin. destruct (Hopt l Hin) as (L & o & HL & Ho).
      destruct (only_syncProps_lookup _ _ l L H12 HL) as (K' & HK' & HoK & _).
      exists K', o. split; [exact HK'|]. split; [congruence|].
      specialize (Hpet l Hin). unfold non_pet in Hpet.
      rewrite HL, Ho in Hpet. apply negb_false_iff, Hpet. }
    rewrite (Hbase (ee_canvas ee) st2)
      by (intros l Hin; destruct (Hopt2 l Hin) as (L & o & ? & ? & _);
          exists L, o; split; assumption).
    rewrite filter_non_pet_nil.
    2:{ intros l Hin. destruct (Hopt2 l Hin) as (L & o & HL & Ho & HP).
        unfold non_pet. rewrite HL, Ho, HP. reflexivity. }
    destruct Hreq as (l0 & _ & Hin0 & _).
    fold allLayers in Hin0.
    destruct allLayers as [|x xs]; [inversion Hin0|].
    destruct (Hopt2 x) as (X & o & HX & Ho & HP); [left|].
    pose proof (resizePetLayer_no_base (ee_canvas ee) st2 x X o 0 HX Ho HP)
      as Hwp.
    unfold wp in Hwp. unfold forEach. simpl. unfold bind.
    destruct (resizePetLayer getImageFitScale (ee_canvas ee) None x 0 st2)
      as [out st3]. simpl in Hwp. destruct Hwp as [-> Hlog].
    exists st3. split; [reflexivity | exact Hlog]. }
  split; [exact Hnone|]. split; [exact Hbase|]. split.
  { intros Hpet. split; [rewrite filter_non_pet_nil by exact Hpet; reflexivity|].
    split; [intros; apply rescaleImage_no_base|]. apply Hallpet, Hpet. }
  intros Hret. split.
  - intros l L Hin HL. destruct (options L) as [o|] eqn:Ho; [eexists; reflexivity|].
    destruct Hnone as [Hthrow _]; [exists l, L; repeat split; assumption|].
    rewrite Hret in Hthrow. discriminate.
  - destruct (existsb (non_pet st) allLayers) eqn:Eex.
    + apply existsb_exists in Eex as (l & Hin & Hl). exists l.
      split; [apply list_elem_of_In; exact Hin | exact Hl].
    + destruct Hallpet as [Hthrow _]; [|rewrite Hret in Hthrow; discriminate].
      intros l Hin. destruct (non_pet st l) eqn:El; [|reflexivity].
      assert (existsb (non_pet st) allLayers = true).
      { apply existsb_exists. exists l. split; [|exact El].
        apply list_elem_of_In. exact Hin. }
      congruence.
Qed.

End Resize.

(** ** The PET resize branch: runs *)

Lemma resize_pending_live : live resize_pending [1; 2].
Proof. repeat constructor; eexists; reflexivity. Qed.

Lemma resize_pending_requested : resize_requested resize_pending [1; 2].
Proof.
  exists 2, pet_resizing. split; [right; left|]. split; reflexivity.
Qed.

Lemma pet_resize_needs_options_and_a_base_witness :
  (forall l L, l ∈ [1; 2] -> heap resize_pending !! l = Some L ->
     is_Some (options L)) /\
  exists l, l ∈ [1; 2] /\ non_pet resize_pending l = true.
Proof.
  apply (proj2 (proj2 (proj2
           (pet_resize_needs_options_and_a_base approx_Math fit_extent
              element_sync_off false resize_pending
              resize_pending_live resize_pending_requested)))).
  vm_compute. reflexivity.
Defined.

(** With the PET layer alone in the registry the render throws a TypeError
    and draws nothing. *)
Example pet_alone_render_throws :
  (drawCompositeImage approx_Math fit_extent element_pet_alone false
     pet_alone).1 = Throw TypeError /\
  log (drawCompositeImage approx_Math fit_extent element_pet_alone false
         pet_alone).2 = [].
Proof. split; vm_compute; reflexivity. Qed.

(** ** What drawing one layer asks of the context and the renderers *)

Section DrawLog.
Context {num : Type} `{NumberOps : Number num}.
Variable Math : MathObj num.
Local Open Scope js_scope.

Lemma same_but_snapshot_fields (K K' : @Layer num) :
  same_but_snapshot K K' ->
  viewport K' = viewport K /\ options K' = options K /\
  invalid K' = invalid K /\ image K' = image K.
Proof. intros [->|[_ [s ->]]]; repeat split. Qed.

Lemma renderLayer_log cnv act inv l i (st : @State num) L img v :
  heap st !! l = Some L -> image L = Some img -> viewport L = Some v ->
  wp (renderLayer Math cnv act inv l i) st
    (fun out st' =>
       (out = Ret tt ->
        exists T c,
          is_transform l T /\ layer_colormap v L = Some c /\
          log st' = log st ++
            layer_events l T
              (rasterize l c (labelmap v) (color img) (invalid L || inv) i)
              L v) /\
       (forall id c,
          imageId img = Some id -> is_fusion_image id = false ->
          layer_colormap v L = Some c -> out = Ret tt)).
Proof.
  intros HL Himg Hv. unfold renderLayer.
  wp_step. wp_step.
  2:{ match goal with H : forall l0, Some l = Some l0 -> _ |- _ =>
        rewrite (H l eq_refl) in HL; discriminate end. }
  match goal with H : Some l = Some _ |- _ => injection H as <- end.
  match goal with H : heap st !! l = Some ?X |- _ =>
    assert (X = L) by congruence; subst X end.
  rewrite Himg. cbn [isSome negb].
  wp_step. wp_step. wp_step. wp_step.
  2:{ match goal with H : forall l0, Some l = Some l0 -> _ |- _ =>
        cbn in H; rewrite (H l eq_refl) in HL; discriminate end. }
  match goal with H : Some l = Some _ |- _ => injection H as <- end.
  match goal with H : heap (add_event _ st) !! l = Some ?X |- _ =>
    cbn in H; assert (X = L) by congruence; subst X end.
  set (s1 := set_heap _ (add_event CtxSave st)).
  assert (Hl1 : heap s1 !! l = Some (set_canvas (Some cnv) L))
    by apply lookup_insert_eq.
  assert (Hlog1 : log s1 = log st ++ [CtxSave]) by reflexivity.
  clearbody s1.
  wp_step. wp_step; [|congruence].
  match goal with H : Some img = Some _ |- _ => injection H as <- end.
  wp_step. wp_step.
  2:{ split; [discriminate|]. intros id c Hid. congruence. }
  rename a into id.
  wp_step.
  apply (wp_mono _ _
    (fun out s =>
       match out with
       | Ret _ =>
           exists T L2,
             is_transform l T /\ log s = log st ++ [CtxSave; T] /\
             heap s !! l = Some L2 /\
             same_but_snapshot (set_canvas (Some cnv) L) L2
       | Throw _ => is_fusion_image id = true
       end)).
  { fold (is_fusion_image id). destruct (is_fusion_image id) eqn:Ef.
    - wp_step.
      apply (wp_respects only_snapshots _ s1 s1 _
               (calculatePetFuisonTransform_only_snapshots Math (Some l) act));
        [reflexivity|].
      intros [t|ex] s2 (Hlog2 & _ & Hheap2); [|reflexivity].
      wp_step. specialize (Hheap2 l). rewrite Hl1 in Hheap2.
      destruct Hheap2 as (L2 & HL2 & Hrel).
      eexists _, L2. split; [right; repeat eexists|].
      split; [cbn; rewrite Hlog2, Hlog1, <- app_assoc; reflexivity|].
      split; [exact HL2 | exact Hrel].
    - wp_step. exists (SetToPixelCoordinateSystem l), (set_canvas (Some cnv) L).
      split; [left; reflexivity|].
      split; [cbn; rewrite Hlog1, <- app_assoc; reflexivity|].
      split; [exact Hl1 | reflexivity]. }
  clear dependent s1.
  intros [[]|ex] s Hs.
  2:{ split; [discriminate|]. intros id' c Hid' Hf. congruence. }
  destruct Hs as (T & L2 & HT & Hlog & HL2 & Hrel).
  apply same_but_snapshot_fields in Hrel.
  destruct Hrel as (Hv2 & Ho2 & Hi2 & _). cbn in Hv2, Ho2, Hi2.
  wp_step. wp_step.
  2:{ match goal with H : forall l0, Some l = Some l0 -> _ |- _ =>
        rewrite (H l eq_refl) in HL2; discriminate end. }
  match goal with H : Some l = Some _ |- _ => injection H as <- end.
  match goal with H : heap s !! l = Some ?X |- _ =>
    assert (X = L2) by congruence; subst X end.
  rewrite Hv2, Ho2, Hi2, Hv.
  wp_step. wp_step; [|discriminate].
  match goal with H : Some v = Some _ |- _ => injection H as <- end.
  wp_step.
  apply (wp_mono _ _
    (fun out s' =>
       s' = s /\
       match out with
       | Ret c => layer_colormap v L = Some c
       | Throw _ => layer_colormap v L = None
       end)).
  { unfold layer_colormap.
    destruct (colormap_truthy (vp_colormap v)); [split; reflexivity|].
    wp_step. wp_step.
    - wp_step. match goal with H : options L = Some _ |- _ => rewrite H end.
      split; reflexivity.
    - match goal with H : options L = None |- _ => rewrite H end.
      split; reflexivity. }
  intros [c|ex] ? [-> Hc].
  2:{ split; [discriminate|]. intros id' c' _ _ Hc'. congruence. }
  wp_step. wp_step. wp_step. wp_step. wp_step.
  apply (wp_mono _ _
    (fun out s' =>
       out = Ret tt /\ heap s' = heap s /\
       log s' = log s ++
         [rasterize l c (labelmap v) (color img) (invalid L || inv) i;
          CtxGlobalAlpha (layer_alpha L)] ++ layer_fill L)).
  { unfold layer_fill, layer_alpha. destruct (options L) as [o|] eqn:Eo.
    - destruct (fillStyle o) as [f|] eqn:Ef; cbn [str_truthy].
      + destruct (negb (String.eqb f "")) eqn:Et.
        * wp_step. wp_step; [|discriminate].
          match goal with H : Some f = Some _ |- _ => injection H as <- end.
          wp_step. split; [reflexivity|]. split; [reflexivity|].
          cbn. rewrite <- !app_assoc. reflexivity.
        * wp_step. split; [reflexivity|]. split; [reflexivity|].
          cbn. rewrite <- !app_assoc. reflexivity.
      + wp_step. split; [reflexivity|]. split; [reflexivity|].
        cbn. rewrite <- !app_assoc. reflexivity.
    - wp_step. split; [reflexivity|]. split; [reflexivity|].
      cbn. rewrite <- !app_assoc. reflexivity. }
  intros out s' (-> & Hheap & Hlog').
  do 4 (wp_step; wp_step).
  wp_step.
  2:{ match goal with H : forall l0, Some l = Some l0 -> _ |- _ =>
        cbn in H; rewrite Hheap in H; rewrite (H l eq_refl) in HL2;
        discriminate end. }
  split; [|reflexivity]. intros _. exists T, c.
  split; [exact HT|]. split; [exact Hc|].
  cbn. rewrite Hlog', Hlog. unfold layer_events.
  rewrite <- !app_assoc. reflexivity.
Qed.


Lemma colormap_truthy_nonempty c :
  colormap_truthy c = true -> colormap_nonempty c = true.
Proof. destruct c as [[id|o]|]; simpl; auto. Qed.

Lemma rasterize_selected l c lm col isInv i :
  @rasterize num l c lm col isInv i
  = selected_renderer l (colormap_truthy c) lm col isInv i.
Proof.
  unfold rasterize, selected_renderer.
  destruct (colormap_truthy c) eqn:Ec.
  - rewrite (colormap_truthy_nonempty c Ec). reflexivity.
  - simpl. destruct col; [reflexivity|]. f_equal.
    destruct i; reflexivity.
Qed.

Lemma selected_renderer_is_call l cs lm col isInv i :
  is_renderer_call (@selected_renderer num l cs lm col isInv i) = true.
Proof. unfold selected_renderer. destruct cs, lm, col; reflexivity. Qed.

Lemma layer_fill_no_call (L : @Layer num) :
  List.filter is_renderer_call (layer_fill L) = [].
Proof.
  unfold layer_fill. destruct (options L) as [o|]; [|reflexivity].
  destruct (fillStyle o) as [f|]; [|reflexivity].
  destruct (str_truthy (Some f)); reflexivity.
Qed.

Lemma layer_fill_no_alpha (L : @Layer num) :
  global_alphas (layer_fill L) = [].
Proof.
  unfold layer_fill. destruct (options L) as [o|]; [|reflexivity].
  destruct (fillStyle o) as [f|]; [|reflexivity].
  destruct (str_truthy (Some f)); reflexivity.
Qed.

Lemma renderLayer_returns cnv act inv l i (st : @State num) out st' :
  renderLayer Math cnv act inv l i st = (out, st') ->
  forall (Q : Outcome unit -> @State num -> Prop),
    wp (renderLayer Math cnv act inv l i) st Q -> Q out st'.
Proof. intros Hrun Q. unfold wp. rewrite Hrun. auto. Qed.

(** C8: for a layer that is drawn, exactly one external renderer is called,
    the one the precedence selects: label map when a colormap is set and
    the labelmap flag is true, otherwise pseudo color when a colormap is
    set, otherwise true color when the image is flagged color, otherwise
    grayscale, which is asked for the alpha channel exactly when the layer
    is at index 0 of the draw order.  A layer with a viewport, a readable
    colormap and an image that is not a fusion reformat is drawn. *)
Theorem renderer_selected_by_precedence
    cnv act inv l i (st : @State num) L img v :
  heap st !! l = Some L -> image L = Some img -> viewport L = Some v ->
  (forall st',
     renderLayer Math cnv act inv l i st = (Ret tt, st') ->
     exists c evs,
       layer_colormap v L = Some c /\
       log st' = log st ++ evs /\
       List.filter is_renderer_call evs
       = [selected_renderer l (colormap_truthy c) (labelmap v) (color img)
            (invalid L || inv) i]) /\
  (forall id c,
     imageId img = Some id -> is_fusion_image id = false ->
     layer_colormap v L = Some c ->
     exists st', renderLayer Math cnv act inv l i st = (Ret tt, st')).
Proof.
  intros HL Himg Hv.
  pose proof (renderLayer_log cnv act inv l i st L img v HL Himg Hv) as Hwp.
  split.
  - intros st' Hrun.
    destruct (renderLayer_returns _ _ _ _ _ _ _ _ Hrun _ Hwp) as [Hlog _].
    destruct (Hlog eq_refl) as (T & c & HT & Hc & ->).
    exists c. eexists. split; [exact Hc|]. split; [reflexivity|].
    unfold layer_events. rewrite rasterize_selected.
    cbn [app List.filter]. rewrite List.filter_app, layer_fill_no_call.
    rewrite selected_renderer_is_call.
    destruct HT as [->|(a & b & c' & d & x & y & ->)]; reflexivity.
  - intros id c Hid Hf Hc. unfold wp in Hwp.
    destruct (renderLayer Math cnv act inv l i st) as [out st'].
    simpl in Hwp. destruct Hwp as [_ Hret]. rewrite (Hret id c Hid Hf Hc).
    exists st'. reflexivity.
Qed.

Lemma num_truthy_zero : num_truthy num_zero = false.
Proof. unfold num_truthy. rewrite num_eqb_zero. reflexivity. Qed.

(** C9: when a layer is drawn, the context's global alpha is assigned once,
    after the renderer call and before [drawImage]: to the layer's opacity
    option when that is truthy, and to 1 when the layer has no options,
    no opacity, or an opacity that is not truthy, 0 included. *)
Theorem global_alpha_from_truthy_opacity
    cnv act inv l i (st : @State num) L img v :
  heap st !! l = Some L -> image L = Some img -> viewport L = Some v ->
  (forall st',
     renderLayer Math cnv act inv l i st = (Ret tt, st') ->
     exists T R,
       is_transform l T /\ is_renderer_call R = true /\
       log st' = log st ++ layer_events l T R L v /\
       global_alphas (layer_events l T R L v) = [layer_alpha L]) /\
  (options L = None -> layer_alpha L = num_one) /\
  (forall o, options L = Some o -> opacity o = None ->
     layer_alpha L = num_one) /\
  (forall o, options L = Some o -> opacity o = Some num_zero ->
     layer_alpha L = num_one) /\
  (forall o a, options L = Some o -> opacity o = Some a ->
     layer_alpha L = if num_truthy a then a else num_one) /\
  (forall id c,
     imageId img = Some id -> is_fusion_image id = false ->
     layer_colormap v L = Some c ->
     exists st', renderLayer Math cnv act inv l i st = (Ret tt, st')).
Proof.
  intros HL Himg Hv.
  pose proof (renderLayer_log cnv act inv l i st L img v HL Himg Hv) as Hwp.
  split.
  { intros st' Hrun.
    destruct (renderLayer_returns _ _ _ _ _ _ _ _ Hrun _ Hwp) as [Hlog _].
    destruct (Hlog eq_refl) as (T & c & HT & Hc & ->).
    exists T, (rasterize l c (labelmap v) (color img) (invalid L || inv) i).
    split; [exact HT|].
    split; [rewrite rasterize_selected; apply selected_renderer_is_call|].
    split; [reflexivity|].
    unfold layer_events, global_alphas. rewrite rasterize_selected.
    pose proof (layer_fill_no_alpha L) as Hfill. unfold global_alphas in Hfill.
    assert (Hsel : forall cs lm col isInv,
      match @selected_renderer num l cs lm col isInv i with
      | CtxGlobalAlpha a => Some a
      | _ => None
      end = None).
    { intros cs lm col isInv. unfold selected_renderer.
      destruct cs, lm, col; reflexivity. }
    cbn [app omap list_omap]. rewrite Hsel.
    rewrite omap_app, Hfill.
    destruct HT as [->|(a & b & c' & d & x & y & ->)]; reflexivity. }
  split; [intros Ho; unfold layer_alpha; rewrite Ho; reflexivity|].
  split; [intros o Ho Ha; unfold layer_alpha; rewrite Ho, Ha; reflexivity|].
  split.
  { intros o Ho Ha. unfold layer_alpha. rewrite Ho, Ha, num_truthy_zero.
    reflexivity. }
  split; [intros o a Ho Ha; unfold layer_alpha; rewrite Ho, Ha; reflexivity|].
  intros id c Hid Hf Hc. unfold wp in Hwp.
  destruct (renderLayer Math cnv act inv l i st) as [out st'].
  simpl in Hwp. destruct Hwp as [_ Hret]. rewrite (Hret id c Hid Hf Hc).
  exists st'. reflexivity.
Qed.

End DrawLog.

(** ** Drawing one layer: runs *)

Lemma renderer_selected_by_precedence_witness :
  (forall st',
     renderLayer approx_Math canvas512 (Some 1) false 1 0 ct_pet = (Ret tt, st') ->
     exists c evs,
       layer_colormap ct_viewport ct_layer = Some c /\
       log st' = log ct_pet ++ evs /\
       List.filter is_renderer_call evs
       = [selected_renderer 1 (colormap_truthy c) (labelmap ct_viewport)
            (color ct_image) (invalid ct_layer || false) 0]) /\
  (forall id c,
     imageId ct_image = Some id -> is_fusion_image id = false ->
     layer_colormap ct_viewport ct_layer = Some c ->
     exists st',
       renderLayer approx_Math canvas512 (Some 1) false 1 0 ct_pet = (Ret tt, st')).
Proof.
  apply (renderer_selected_by_precedence approx_Math canvas512 (Some 1) false
           1 0 ct_pet ct_layer ct_image ct_viewport); reflexivity.
Defined.

Lemma global_alpha_from_truthy_opacity_witness :
  exists st',
    renderLayer approx_Math canvas512 (Some 1) false 2 1 ct_pet = (Ret tt, st').
Proof.
  apply (proj2 (proj2 (proj2 (proj2 (proj2
           (global_alpha_from_truthy_opacity approx_Math canvas512 (Some 1)
              false 2 1 ct_pet pet_layer pet_image pet_viewport
              eq_refl eq_refl eq_refl)))))
         "pet:1"%string (Some (ColormapId "hotIron")));
    reflexivity.
Defined.

(** The CT layer at index 0 goes to the grayscale renderer with the alpha
    channel and is drawn fully opaque; the PET layer at index 1, with a
    colormap and opacity 0.5, goes to the pseudo color renderer. *)
Example render_ct_then_pet :
  log (renderLayers approx_Math canvas512 [1; 2] (Some 1) false ct_pet).2
  = [CtxSave; SetToPixelCoordinateSystem 1; AddGrayscaleLayer 1 true true;
     CtxGlobalAlpha 1%float; CtxImageSmoothingEnabled true;
     CtxMozImageSmoothingEnabled true;
     CtxDrawImage 1 0%float 0%float 256%float 256%float 0%float 0%float
       256%float 256%float;
     CtxRestore;
     CtxSave; SetToPixelCoordinateSystem 2; AddPseudoColorLayer 2 true;
     CtxGlobalAlpha 0.5%float; CtxImageSmoothingEnabled true;
     CtxMozImageSmoothingEnabled true;
     CtxDrawImage 2 0%float 0%float 512%float 512%float 0%float 0%float
       512%float 512%float;
     CtxRestore].
Proof. vm_compute. reflexivity. Qed.

(** An explicit opacity of 0 draws the layer with global alpha 1. *)
Example opacity_zero_is_opaque :
  layer_alpha (set_options
                 (Some {| name := Some "PET"; opacity := Some 0%float;
                          fillStyle := None; opt_colormap := None;
                          reSize := false |}) pet_layer) = 1%float.
Proof. reflexivity. Qed.

(** ** Fusion transform: the rotation steps *)

Section FusionSteps.
Context {num : Type} `{NumberOps : Number num}.
Variable Math : MathObj num.






(** With an active layer that has a viewport and an image, and another
    layer as reference frame that has a canvas and a viewport, the fusion
    transform is computed: the call returns. *)
Lemma fusionTransformWith_returns s2 s4 s6 (st : @State num) e a E A av ai ec ev :
  a <> e ->
  heap st !! a = Some A -> viewport A = Some av -> image A = Some ai ->
  heap st !! e = Some E -> canvas E = Some ec -> viewport E = Some ev ->
  exists t st',
    fusionTransformWith s2 s4 s6 (Some e) (Some a) st = (Ret t, st').
Proof.
  intros Hne HA Hav Hai HE Hec Hev. unfold fusionTransformWith.
  rewrite (bind_Ret _ _ _ _ _ (deref_Some _ _ _ HA)), Hav.
  unfold bind at 1. cbn [prop ret]. rewrite Hai.
  unfold bind at 1. cbn [prop ret].
  rewrite (bind_Ret _ _ _ _ _ (deref_Some _ _ _ HE)), Hec.
  unfold bind at 1. cbn [prop ret]. rewrite Hev.
  unfold bind at 1. cbn [prop ret].
  rewrite (bind_Ret _ _ _ _ _
             (getViewportRatio_run st a e A E av ev Hne HA Hav HE Hev)).
  eexists _, _. reflexivity.
Qed.

End FusionSteps.

(** ** Fusion transform: a frame without rotation *)

Section FusionZero.
Context {num : Type} `{NumberOps : Number num}.


End FusionZero.






(** ** Runs that only touch the layers *)

Section HeapOnly.
Context {num : Type} `{NumberOps : Number num}.

Lemma respects_bind {A B} (R : @State num -> @State num -> Prop)
    `{!Transitive R} (m : @M num A) (k : A -> @M num B) :
  respects R m -> (forall a, respects R (k a)) -> respects R (bind m k).
Proof.
  intros Hm Hk st. unfold bind. pose proof (Hm st) as H1.
  destruct (m st) as [[a|e] st1]; simpl in *; [|exact H1].
  transitivity st1; [exact H1 | apply Hk].
Qed.

Lemma respects_reads {A} (R : @State num -> @State num -> Prop)
    `{!Reflexive R} (m : @M num A) :
  (forall st, (m st).2 = st) -> respects R m.
Proof. intros H st. rewrite H. reflexivity. Qed.

Lemma deref_reads r (st : @State num) : (deref r st).2 = st.
Proof.
  unfold deref. destruct r as [l|]; [|reflexivity].
  destruct (heap st !! l); reflexivity.
Qed.

Lemma prop_reads {A} (o : option A) (st : @State num) : (prop o st).2 = st.
Proof. destruct o; reflexivity. Qed.

Context (R : @State num -> @State num -> Prop) `{!HeapBlind R}.

Lemma assign_heap_only r f : respects R (assign r f).
Proof.
  intros st. unfold assign. destruct r as [l|]; [|reflexivity].
  destruct (heap st !! l); [apply heap_blind | reflexivity].
Qed.


Lemma respects_Array_some {A} (xs : list A) (p : A -> @M num bool) :
  (forall x, respects R (p x)) -> respects R (Array_some xs p).
Proof.
  intros Hp. induction xs as [|x xs IH]; simpl.
  - apply respects_reads; [typeclasses eauto | reflexivity].
  - apply respects_bind; [typeclasses eauto | apply Hp |].
    intros [|]; [apply respects_reads; [typeclasses eauto | reflexivity]|].
    exact IH.
Qed.

Lemma respects_Array_filter {A} (xs : list A) (p : A -> @M num bool) :
  (forall x, respects R (p x)) -> respects R (Array_filter xs p).
Proof.
  intros Hp. induction xs as [|x xs IH]; simpl.
  - apply respects_reads; [typeclasses eauto | reflexivity].
  - apply respects_bind; [typeclasses eauto | apply Hp |]. intros b.
    apply respects_bind; [typeclasses eauto | exact IH |]. intros rest.
    apply respects_reads; [typeclasses eauto | reflexivity].
Qed.

End HeapOnly.

(** Frame proofs for functions built from reads and layer assignments. *)
Ltac heap_only_step :=
  first
    [ apply respects_bind; [typeclasses eauto | | intros ?]
    | apply assign_heap_only; typeclasses eauto
    | apply respects_reads;
      [ typeclasses eauto
      | intros ?; first [apply deref_reads | apply prop_reads | reflexivity] ]
    | lazymatch goal with
      | |- respects _ (if ?b then _ else _) => destruct b
      | |- respects _ (match ?o with _ => _ end) => destruct o
      | |- respects _ (let _ := _ in _) => cbv zeta
      end ].

Section HeapOnlyRuns.
Context {num : Type} `{NumberOps : Number num}.
Variable getImageFitScale : @Canvas num -> @Image num -> num -> @FitScale num.
Context (R : @State num -> @State num -> Prop) `{!HeapBlind R}.

Lemma assign_viewport_heap_only r f : respects R (@assign_viewport num r f).
Proof. unfold assign_viewport. repeat heap_only_step. Qed.

Lemma assign_options_heap_only r f : respects R (@assign_options num r f).
Proof. unfold assign_options. repeat heap_only_step. Qed.

Lemma updateLayerSyncProps_heap_only r :
  respects R (@updateLayerSyncProps num r).
Proof. unfold updateLayerSyncProps. repeat heap_only_step. Qed.

Lemma getViewportRatio_heap_only b t :
  respects R (@getViewportRatio num _ b t).
Proof.
  unfold getViewportRatio.
  repeat first [apply updateLayerSyncProps_heap_only | heap_only_step].
Qed.

Lemma syncViewports_heap_only layers act :
  respects R (@syncViewports num _ layers act).
Proof.
  apply respects_forEach; try typeclasses eauto. intros l i.
  unfold syncLayer.
  repeat first [ apply updateLayerSyncProps_heap_only
               | apply getViewportRatio_heap_only
               | apply assign_viewport_heap_only
               | heap_only_step ].
Qed.

Lemma rescaleImage_heap_only b t : respects R (@rescaleImage num _ b t).
Proof.
  unfold rescaleImage.
  repeat first [apply assign_viewport_heap_only | heap_only_step].
Qed.

Lemma resyncLayers_heap_only allLayers :
  respects R (@resyncLayers num allLayers).
Proof.
  apply respects_forEach; try typeclasses eauto. intros l i.
  repeat first [apply updateLayerSyncProps_heap_only | heap_only_step].
Qed.

Lemma resetPetScale_heap_only cnv allLayers :
  respects R (resetPetScale getImageFitScale cnv allLayers).
Proof.
  unfold resetPetScale. apply respects_bind; [typeclasses eauto | |].
  - apply respects_Array_filter; [typeclasses eauto|]. intros l.
    repeat heap_only_step.
  - intros ct. apply respects_forEach; try typeclasses eauto. intros l i.
    unfold resizePetLayer.
    repeat first [ apply updateLayerSyncProps_heap_only
                 | apply rescaleImage_heap_only
                 | apply assign_viewport_heap_only
                 | apply assign_options_heap_only
                 | heap_only_step ].
Qed.

End HeapOnlyRuns.

(** ** The remembered flag and the cleared canvas *)

Section FlagAndClear.
Context {num : Type} `{NumberOps : Number num}.
Variable Math : MathObj num.
Variable getImageFitScale : @Canvas num -> @Image num -> num -> @FitScale num.

#[export] Instance quiet_HeapBlind : HeapBlind (@quiet num).
Proof.
  split.
  - intros st. reflexivity.
  - intros s1 s2 s3 H1 H2. unfold quiet in *. congruence.
  - intros h st. reflexivity.
Qed.

#[export] Instance flag_kept_HeapBlind : HeapBlind (@flag_kept num).
Proof.
  split.
  - intros st. reflexivity.
  - intros s1 s2 s3 H1 H2. unfold flag_kept in *. congruence.
  - intros h st. reflexivity.
Qed.

Lemma emit_flag_kept e : respects flag_kept (@emit num e).
Proof. intros st. reflexivity. Qed.

Lemma renderLayers_flag_kept cnv layers act inv :
  respects flag_kept (renderLayers Math cnv layers act inv).
Proof.
  apply respects_forEach; try typeclasses eauto. intros l i.
  unfold renderLayer, calculatePetFuisonTransform.
  repeat first [ apply emit_flag_kept
               | apply (getViewportRatio_heap_only flag_kept)
               | heap_only_step ].
Qed.

Lemma clearCanvas_flag_kept cnv : respects flag_kept (@clearCanvas num _ cnv).
Proof. intros st. reflexivity. Qed.

(** X2: after a composite render the remembered flag
    [lastSyncViewportsState] is the element's sync flag, whatever the
    outcome of the call. *)
Theorem lastSyncViewportsState_always_updated ee inv (st : @State num) :
  lastSyncViewportsState (drawCompositeImage Math getImageFitScale ee inv st).2
  = ee_syncViewports ee.
Proof.
  unfold drawCompositeImage.
  unfold bind at 1. unfold get_lastSyncViewportsState at 1. cbn beta iota.
  unfold bind at 1. unfold put_lastSyncViewportsState at 1. cbn beta iota.
  match goal with |- lastSyncViewportsState (?m ?s).2 = _ =>
    assert (H : respects flag_kept m); [|exact (H s)] end.
  repeat first [ apply emit_flag_kept
               | apply renderLayers_flag_kept
               | apply clearCanvas_flag_kept
               | apply (syncViewports_heap_only flag_kept)
               | apply (resyncLayers_heap_only flag_kept)
               | apply (resetPetScale_heap_only getImageFitScale flag_kept)
               | apply respects_Array_some; [typeclasses eauto | intros ?]
               | heap_only_step ].
Qed.


Lemma bResetPetScale_none allLayers (st : @State num) :
  live st allLayers ->
  (forall l L, l ∈ allLayers -> heap st !! l = Some L ->
     petResizePending L = false) ->
  bResetPetScale allLayers st = (Ret false, st).
Proof.
  unfold bResetPetScale. intros Hlive Hno.
  induction allLayers as [|x xs IH]; [reflexivity|].
  inversion Hlive as [|? ? [X HX] Hrest]; subst. simpl.
  assert (Hp : (L <- deref (Some x) ;; ret (petResizePending L)) st
               = (Ret false, st)).
  { rewrite (bind_Ret _ _ _ _ _ (deref_Some _ _ _ HX)).
    rewrite (Hno x X) by (try left; assumption). reflexivity. }
  rewrite (bind_Ret _ _ _ _ _ Hp). apply IH; [exact Hrest|].
  intros l L Hin. apply Hno. right. exact Hin.
Qed.

(** X1: with no visible layer, a composite render that returns has reset the
    transform and filled the canvas with black, and asked nothing else of
    the context or the renderers; one that throws has asked nothing at all.
    With live layers none of which requests a PET resize, it returns. *)
Theorem render_without_visible_layers ee inv (st : @State num) :
  getVisibleLayers (ee_registry ee) = [] ->
  let run := drawCompositeImage Math getImageFitScale ee inv st in
  match run.1 with
  | Ret _ => log run.2 = log st ++ clear_events (ee_canvas ee)
  | Throw _ => log run.2 = log st
  end /\
  (live st (getLayers (ee_registry ee)) ->
   (forall l L, l ∈ getLayers (ee_registry ee) -> heap st !! l = Some L ->
      petResizePending L = false) ->
   run.1 = Ret tt).
Proof.
  intros Hvis run. subst run. split.
  - change (wp (drawCompositeImage Math getImageFitScale ee inv) st
              (fun o s => match o with
                          | Ret _ => log s = log st ++ clear_events (ee_canvas ee)
                          | Throw _ => log s = log st
                          end)).
    unfold drawCompositeImage. rewrite Hvis.
    apply wp_bind. unfold wp at 1, get_lastSyncViewportsState. cbn beta iota.
    cbn [fst snd].
    apply wp_bind. unfold wp at 1, put_lastSyncViewportsState. cbn beta iota.
    cbn [fst snd].
    set (st1 := set_lastSync _ st).
    assert (H0 : quiet st st1) by reflexivity. clearbody st1.
    apply wp_bind.
    apply (wp_respects quiet _ st st1 (fun o s => match o with
             | Ret _ => _ | Throw _ => _ end)); [|exact H0|].
    { destruct (negb (lastSyncViewportsState st) && ee_syncViewports ee).
      - apply (resyncLayers_heap_only quiet).
      - apply respects_reads; [typeclasses eauto | reflexivity]. }
    clear dependent st1. intros [[]|ex] st1 H0; [|exact H0].
    apply wp_bind.
    apply (wp_respects quiet _ st st1 (fun o s => match o with
             | Ret _ => _ | Throw _ => _ end)); [|exact H0|].
    { apply respects_reads; [typeclasses eauto|].
      apply bResetPetScale_reads. }
    clear dependent st1. intros [reset|ex] st1 H0; [|exact H0].
    apply wp_bind.
    apply (wp_respects quiet _ st st1 (fun o s => match o with
             | Ret _ => _ | Throw _ => _ end)); [|exact H0|].
    { destruct reset.
      - apply respects_bind; [typeclasses eauto | |intros ?].
        + apply (resetPetScale_heap_only getImageFitScale quiet).
        + apply (syncViewports_heap_only quiet).
      - apply respects_reads; [typeclasses eauto | reflexivity]. }
    clear dependent st1. intros [[]|ex] st1 H0; [|exact H0].
    apply wp_bind.
    apply (wp_respects quiet _ st st1 (fun o s => match o with
             | Ret _ => _ | Throw _ => _ end)); [|exact H0|].
    { destruct (ee_syncViewports ee);
        apply respects_reads; try typeclasses eauto; reflexivity. }
    clear dependent st1. intros [[]|ex] st1 H0; [|exact H0].
    apply wp_bind. unfold clearCanvas.
    do 2 (apply wp_bind; apply wp_emit). apply wp_emit.
    apply wp_ret. cbn. unfold quiet in H0. rewrite H0, <- !app_assoc.
    reflexivity.
  - intros Hlive Hno. unfold drawCompositeImage. rewrite Hvis.
    unfold bind at 1. unfold get_lastSyncViewportsState at 1. cbn beta iota.
    unfold bind at 1. unfold put_lastSyncViewportsState at 1. cbn beta iota.
    set (st1 := set_lastSync (ee_syncViewports ee) st).
    assert (Hpre : exists st2,
      (if negb (lastSyncViewportsState st) && ee_syncViewports ee
       then resyncLayers (getLayers (ee_registry ee)) else ret tt) st1
      = (Ret tt, st2) /\ only_syncProps st1 st2).
    { destruct (negb (lastSyncViewportsState st) && ee_syncViewports ee).
      - apply (resyncLayers_run (getLayers (ee_registry ee)) st1 0 Hlive).
      - exists st1. split; reflexivity. }
    destruct Hpre as (st2 & Hrun2 & H12).
    rewrite (bind_Ret _ _ _ _ _ Hrun2).
    assert (Hno2 : forall l L, l ∈ getLayers (ee_registry ee) ->
              heap st2 !! l = Some L -> petResizePending L = false).
    { intros l L Hin HL.
      destruct H12 as (_ & _ & H12). specialize (H12 l).
      change (heap st1 !! l) with (heap st !! l) in H12.
      destruct (heap st !! l) as [K|] eqn:HK; [|congruence].
      destruct H12 as (K' & HK' & Hsame).
      assert (K' = L) by congruence. subst K'.
      specialize (Hno l K Hin HK). rewrite <- Hsame in Hno.
      exact Hno. }
    rewrite (bind_Ret _ _ _ _ _
               (bResetPetScale_none (getLayers (ee_registry ee)) st2
                  (only_syncProps_live _ _ _ H12 Hlive) Hno2)).
    destruct (ee_syncViewports ee); reflexivity.
Qed.

End FlagAndClear.

Lemma render_without_visible_layers_witness :
  match (drawCompositeImage approx_Math fit_extent element_nothing_visible
           false ct_pet).1 with
  | Ret _ =>
      log (drawCompositeImage approx_Math fit_extent element_nothing_visible
             false ct_pet).2
      = log ct_pet ++ clear_events canvas512
  | Throw _ =>
      log (drawCompositeImage approx_Math fit_extent element_nothing_visible
             false ct_pet).2
      = log ct_pet
  end /\
  (live ct_pet [1; 2] ->
   (forall l L, l ∈ [1; 2] -> heap ct_pet !! l = Some L ->
      petResizePending L = false) ->
   (drawCompositeImage approx_Math fit_extent element_nothing_visible
      false ct_pet).1 = Ret tt).
Proof.
  apply (render_without_visible_layers approx_Math fit_extent
           element_nothing_visible false ct_pet).
  reflexivity.
Defined.

(** * Further properties *)

(** ** Anchors and the viewport ratio *)

Ltac run_lookup H := rewrite (bind_Ret _ _ _ _ _ (deref_Some _ _ _ H)).

Section Anchors.

Context {num : Type} `{NumberOps : Number num}.
Local Open Scope js_scope.

Lemma snapshotted_syncProps (L : @Layer num) k :
  anchor L = Some k ->
  syncProps (snapshotted L) = Some {| originalScale := k |}.
Proof.
  unfold anchor, snapshotted.
  destruct (syncProps L) as [[s]|] eqn:Es.
  - intros [= <-]. exact Es.
  - destruct (viewport L) as [v|]; [|discriminate]. intros [= <-]. reflexivity.
Qed.

Lemma snapshotted_idem (L : @Layer num) : snapshotted (snapshotted L) = snapshotted L.
Proof.
  unfold snapshotted at 2 3.
  destruct (syncProps L) as [s|] eqn:Es.
  - unfold snapshotted. rewrite Es. reflexivity.
  - destruct (viewport L) as [v|] eqn:Ev.
    + reflexivity.
    + unfold snapshotted. rewrite Es, Ev. reflexivity.
Qed.

Lemma anchor_snapshotted (L : @Layer num) : anchor (snapshotted L) = anchor L.
Proof.
  unfold snapshotted, anchor.
  destruct (syncProps L) as [s|] eqn:Es; [rewrite Es; reflexivity|].
  destruct (viewport L) as [v|] eqn:Ev; [reflexivity|].
  rewrite Es, Ev. reflexivity.
Qed.

(** [if (!layer.syncProps) updateLayerSyncProps(layer)], for the layer just
    read: it needs an anchor. *)
Lemma ensure_snapshot_cases (st : @State num) l L :
  heap st !! l = Some L ->
  (if isSome (syncProps L) then ret tt else updateLayerSyncProps (Some l)) st
  = match anchor L with
    | Some _ => (Ret tt, set_heap (<[l := snapshotted L]> (heap st)) st)
    | None => (Throw TypeError, st)
    end.
Proof.
  intros Hl. unfold anchor, snapshotted.
  destruct (syncProps L) as [s|] eqn:Es; simpl.
  - rewrite (insert_id _ _ _ Hl), set_heap_id. reflexivity.
  - destruct (viewport L) as [v|] eqn:Ev.
    + apply updateLayerSyncProps_run; assumption.
    + unfold updateLayerSyncProps. run_lookup Hl. rewrite Ev. reflexivity.
Qed.

Lemma getViewportRatio_cases (st : @State num) b t B T :
  heap st !! b = Some B -> heap st !! t = Some T ->
  getViewportRatio (Some b) (Some t) st
  = match anchor B, anchor T with
    | Some kb, Some kt =>
        (Ret (kt / kb),
         set_heap (<[t := snapshotted T]> (<[b := snapshotted B]> (heap st))) st)
    | Some _, None =>
        (Throw TypeError, set_heap (<[b := snapshotted B]> (heap st)) st)
    | None, _ => (Throw TypeError, st)
    end.
Proof.
  intros Hb Ht. unfold getViewportRatio. run_lookup Hb.
  pose proof (ensure_snapshot_cases st b B Hb) as H1.
  destruct (anchor B) as [kb|] eqn:Eb;
    [|rewrite (bind_Throw _ _ _ _ _ H1); reflexivity].
  rewrite (bind_Ret _ _ _ _ _ H1). clear H1.
  set (st1 := set_heap (<[b := snapshotted B]> (heap st)) st).
  assert (Hb1 : heap st1 !! b = Some (snapshotted B))
    by apply lookup_insert_eq.
  destruct (decide (b = t)) as [->|Hne].
  - assert (T = B) by congruence. subst T. rewrite Eb.
    run_lookup Hb1.
    pose proof (ensure_snapshot_cases st1 t _ Hb1) as H2.
    rewrite anchor_snapshotted, Eb, snapshotted_idem in H2.
    rewrite (bind_Ret _ _ _ _ _ H2). clear H2.
    set (st2 := set_heap _ st1).
    assert (Hb2 : heap st2 !! t = Some (snapshotted B))
      by apply lookup_insert_eq.
    run_lookup Hb2. rewrite (snapshotted_syncProps B kb Eb).
    unfold bind at 1. cbn [prop ret].
    run_lookup Hb2. rewrite (snapshotted_syncProps B kb Eb).
    reflexivity.
  - assert (Ht1 : heap st1 !! t = Some T)
      by (unfold st1; simpl; rewrite lookup_insert_ne; assumption).
    run_lookup Ht1.
    pose proof (ensure_snapshot_cases st1 t T Ht1) as H2.
    destruct (anchor T) as [kt|] eqn:Et;
      [|rewrite (bind_Throw _ _ _ _ _ H2); reflexivity].
    rewrite (bind_Ret _ _ _ _ _ H2). clear H2.
    set (st2 := set_heap _ st1).
    assert (Ht2 : heap st2 !! t = Some (snapshotted T))
      by apply lookup_insert_eq.
    assert (Hb2 : heap st2 !! b = Some (snapshotted B)).
    { unfold st2. simpl. rewrite lookup_insert_ne by congruence. exact Hb1. }
    run_lookup Ht2. rewrite (snapshotted_syncProps T kt Et).
    unfold bind at 1. cbn [prop ret].
    run_lookup Hb2. rewrite (snapshotted_syncProps B kb Eb).
    reflexivity.
Qed.

(** X3: [getViewportRatio(base, target)] on two layer objects (possibly the
    same one) is decided by their anchors.  When the base has neither a
    snapshot nor a viewport it throws a TypeError and nothing has changed;
    when only the target has neither, it throws a TypeError after the base
    has received its first snapshot; otherwise it returns the target's
    anchor divided by the base's, and each layer that had no snapshot has
    received one, taken from its present scale.  An existing snapshot is
    never overwritten, and the viewports are not read once both snapshots
    exist. *)
Theorem getViewportRatio_by_anchors (st : @State num) b t B T :
  heap st !! b = Some B -> heap st !! t = Some T ->
  getViewportRatio (Some b) (Some t) st
  = match anchor B, anchor T with
    | Some kb, Some kt =>
        (Ret (kt / kb),
         set_heap (<[t := snapshotted T]> (<[b := snapshotted B]> (heap st))) st)
    | Some _, None =>
        (Throw TypeError, set_heap (<[b := snapshotted B]> (heap st)) st)
    | None, _ => (Throw TypeError, st)
    end.
Proof. apply getViewportRatio_cases. Qed.

End Anchors.

(** The PET layer has no snapshot yet and the CT layer has one at scale 1:
    the ratio is the PET layer's present scale over the CT layer's snapshot,
    and only the PET layer is written. *)
Lemma getViewportRatio_by_anchors_witness :
  getViewportRatio (Some 1) (Some 2) zoomed_ct_pet
  = (Ret (2 / 1)%float,
     set_heap
       (<[2 := snapshotted pet_layer]>
          (<[1 := snapshotted ct_zoomed]> (heap zoomed_ct_pet)))
       zoomed_ct_pet).
Proof.
  exact (getViewportRatio_by_anchors zoomed_ct_pet 1 2 ct_zoomed pet_layer
           eq_refl eq_refl).
Defined.

(** ** Viewport synchroniser: fixed points and missing active layers *)

Section SynchroniserAgain.

Context {num : Type} `{NumberOps : Number num}.
Local Open Scope js_scope.

(** A loop whose body leaves the state alone. *)
Lemma forEach_from_fixed {A} (xs : list A) (body : A -> nat -> @M num unit) st :
  (forall x i, x ∈ xs -> body x i st = (Ret tt, st)) ->
  forall i, forEach_from i xs body st = (Ret tt, st).
Proof.
  induction xs as [|x xs IH]; intros Hbody i; [reflexivity|].
  simpl. rewrite (bind_Ret _ _ _ _ _ (Hbody x i ltac:(left))).
  apply IH. intros y j Hy. apply Hbody. right. exact Hy.
Qed.

Lemma syncLayer_active_no_viewport (st : @State num) a A l i :
  heap st !! a = Some A -> viewport A = None -> is_Some (heap st !! l) ->
  syncLayer (Some a) l i st = (Ret tt, st).
Proof.
  intros Ha Hav [L Hl]. unfold syncLayer.
  destruct (bool_decide (Some l = Some a)); [reflexivity|].
  run_lookup Hl. destruct (viewport L); [|reflexivity]. simpl.
  run_lookup Ha. rewrite Hav. reflexivity.
Qed.

(** Once [syncViewports] has run, every layer of the list is where another
    pass would put it. *)
Lemma syncLayer_settled (st0 st' : @State num) a A av l i :
  viewport A = Some av ->
  Inv st0 a A av st' ->
  (l <> a -> forall L0 lv0,
     heap st0 !! l = Some L0 -> viewport L0 = Some lv0 -> Done st0 a A av st' l) ->
  is_Some (heap st0 !! l) ->
  syncLayer (Some a) l i st' = (Ret tt, st').
Proof.
  intros Hav HI Hdone [L0 HL0].
  destruct (decide (l = a)) as [->|Hne]; [apply syncLayer_active|].
  destruct (viewport L0) as [lv0|] eqn:Ev0.
  - destruct (Hdone Hne L0 lv0 HL0 Ev0) as (L0' & lv0' & H1 & H2 & Ha' & Hl').
    assert (L0' = L0) by congruence. subst L0'.
    assert (lv0' = lv0) by congruence. subst lv0'.
    destruct (synced_layer_again av (anchorScale av A) lv0 L0) as [Hv Hagain].
    rewrite (syncLayer_run st' a l (capture av A)
               (synced_layer av (anchorScale av A) lv0 L0) av _ i Hne Ha'
               (eq_trans (capture_viewport av A) Hav) Hl' Hv).
    rewrite capture_idem, anchorScale_capture.
    rewrite (insert_id _ _ _ Ha').
    match goal with |- context [<[l := ?X]> _] =>
      change X with (synced_layer av (anchorScale av A)
                       (synced_viewport av
                          (anchorScale lv0 L0 / anchorScale av A) lv0)
                       (synced_layer av (anchorScale av A) lv0 L0)) end.
    rewrite Hagain, (insert_id _ _ _ Hl'), set_heap_id. reflexivity.
  - destruct HI as [_ HI]. destruct (HI l Hne) as [Heq|HD].
    + apply (syncLayer_no_viewport st' (Some a) l L0 i); congruence.
    + destruct HD as (L0' & lv0' & H1 & H2 & _). congruence.
Qed.

(** With live layers, a pass returns, and a second pass changes nothing. *)
Lemma syncViewports_settles (st : @State num) layers a A :
  heap st !! a = Some A -> live st layers ->
  exists st',
    syncViewports layers (Some a) st = (Ret tt, st') /\
    syncViewports layers (Some a) st' = (Ret tt, st').
Proof.
  intros Ha Hlive.
  destruct (viewport A) as [av|] eqn:Hav.
  - destruct (syncLoop_Inv st a A av Hav layers st 0
                (Inv_init st a A av Ha) Hlive)
      as (st' & Hrun & HI & _ & Hdone).
    exists st'. split; [exact Hrun|].
    apply forEach_from_fixed. intros l i Hin.
    apply (syncLayer_settled st st' a A av l i Hav HI).
    + intros Hne L0 lv0. apply (Hdone l Hin Hne).
    + unfold live in Hlive. rewrite Forall_forall in Hlive.
      apply Hlive, Hin.
  - assert (Hid : syncViewports layers (Some a) st = (Ret tt, st)).
    { apply forEach_from_fixed. intros l i Hin.
      apply (syncLayer_active_no_viewport st a A l i Ha Hav).
      unfold live in Hlive. rewrite Forall_forall in Hlive.
      apply Hlive, Hin. }
    exists st. split; exact Hid.
Qed.

(** X4: [syncViewports] is idempotent.  With the active layer and the listed
    layers live objects, a pass returns, and a second pass from the state
    it leaves returns without changing anything; two passes in a row are
    one pass. *)
Theorem syncViewports_idempotent (st : @State num) layers a A :
  heap st !! a = Some A -> live st layers ->
  exists st',
    syncViewports layers (Some a) st = (Ret tt, st') /\
    syncViewports layers (Some a) st' = (Ret tt, st') /\
    (syncViewports layers (Some a) ;; syncViewports layers (Some a)) st
    = syncViewports layers (Some a) st.
Proof.
  intros Ha Hlive.
  pose proof (syncViewports_settles st layers a A Ha Hlive) as Hmain.
  destruct Hmain as (st' & Hrun & Hagain).
  exists st'. split; [exact Hrun|]. split; [exact Hagain|].
  rewrite (bind_Ret _ _ _ _ _ Hrun), Hrun. exact Hagain.
Qed.

(** X5: without a usable active layer the synchroniser changes nothing.
    When the active layer is an object without a viewport, the pass returns
    and the state is as before.  When there is no active layer at all, the
    state is also as before, and the pass throws a TypeError exactly when
    some listed layer has a viewport. *)
Theorem syncViewports_without_active_viewport (st : @State num) layers :
  live st layers ->
  (forall a A, heap st !! a = Some A -> viewport A = None ->
     syncViewports layers (Some a) st = (Ret tt, st)) /\
  syncViewports layers None st
  = (if existsb (has_viewport st) layers then Throw TypeError else Ret tt, st).
Proof.
  intros Hlive. split.
  - intros a A Ha Hav. apply forEach_from_fixed. intros l i Hin.
    apply (syncLayer_active_no_viewport st a A l i Ha Hav).
    unfold live in Hlive. rewrite Forall_forall in Hlive. apply Hlive, Hin.
  - unfold syncViewports, forEach. generalize 0.
    induction layers as [|l ls IH]; intros i; [reflexivity|].
    inversion Hlive as [|? ? [L HL] Hrest]; subst.
    simpl. unfold has_viewport at 1. rewrite HL.
    assert (Hstep : syncLayer None l i st
                    = (if isSome (viewport L) then Throw TypeError else Ret tt,
                       st)).
    { unfold syncLayer. rewrite bool_decide_eq_false_2 by discriminate.
      run_lookup HL. destruct (viewport L); reflexivity. }
    destruct (isSome (viewport L)).
    + rewrite (bind_Throw _ _ _ _ _ Hstep). reflexivity.
    + rewrite (bind_Ret _ _ _ _ _ Hstep). apply IH, Hrest.
Qed.

End SynchroniserAgain.

Lemma ct_pet_live : live ct_pet [1; 2].
Proof. repeat constructor; eexists; reflexivity. Qed.

Lemma syncViewports_idempotent_witness :
  exists st',
    syncViewports [1; 2] (Some 1) ct_pet = (Ret tt, st') /\
    syncViewports [1; 2] (Some 1) st' = (Ret tt, st') /\
    (syncViewports [1; 2] (Some 1) ;; syncViewports [1; 2] (Some 1)) ct_pet
    = syncViewports [1; 2] (Some 1) ct_pet.
Proof.
  exact (syncViewports_idempotent ct_pet [1; 2] 1 ct_layer eq_refl ct_pet_live).
Defined.

Lemma syncViewports_without_active_viewport_witness :
  (forall a A, heap ct_pet !! a = Some A -> viewport A = None ->
     syncViewports [1; 2] (Some a) ct_pet = (Ret tt, ct_pet)) /\
  syncViewports [1; 2] None ct_pet
  = (if existsb (has_viewport ct_pet) [1; 2] then Throw TypeError else Ret tt,
     ct_pet).
Proof.
  exact (syncViewports_without_active_viewport ct_pet [1; 2] ct_pet_live).
Defined.

(** ** Following each layer along a run *)

(** Carry [H0 : R st0 st] across a step, proving that it respects [R] by
    [tac]. *)
Ltac wp_over tac H0 :=
  lazymatch goal with
  | |- wp _ ?st _ =>
      lazymatch type of H0 with
      | ?R ?st0 st =>
          apply (wp_respects R _ st0 st);
          [ tac | exact H0
          | clear dependent st; intros [?|?] st H0; [|try exact H0] ]
      end
  end.

Section Reads.

Context {num : Type} `{NumberOps : Number num}.

Lemma bind_reads {A B} (m : @M num A) (k : A -> @M num B) st :
  (m st).2 = st -> (forall a, (k a st).2 = st) -> (bind m k st).2 = st.
Proof.
  intros Hm Hk. unfold bind. destruct (m st) as [[a|e] st1]; simpl in *;
    subst st1; [apply Hk | reflexivity].
Qed.

Lemma Array_filter_reads {A} (xs : list A) (p : A -> @M num bool) st :
  (forall x, (p x st).2 = st) -> (Array_filter xs p st).2 = st.
Proof.
  intros Hp. induction xs as [|x xs IH]; [reflexivity|]. simpl.
  apply bind_reads; [apply Hp|]. intros b.
  apply bind_reads; [exact IH|]. reflexivity.
Qed.

Lemma ctFusionLayer_reads allLayers (st : @State num) :
  (ctFusionLayer allLayers st).2 = st.
Proof.
  unfold ctFusionLayer. apply Array_filter_reads. intros l.
  apply bind_reads; [apply deref_reads|]. intros L.
  apply bind_reads; [apply prop_reads|]. reflexivity.
Qed.

End Reads.

Section Layerwise.

Context {num : Type} `{NumberOps : Number num}.
Context (P : loc -> @Layer num -> @Layer num -> Prop) `{!LayerRel P}.

#[export] Instance layerwise_refl : Reflexive (layerwise P).
Proof.
  intros st k. destruct (heap st !! k) as [K|] eqn:E; [|reflexivity].
  exists K. split; [reflexivity | apply layer_rel_refl].
Qed.

#[export] Instance layerwise_trans : Transitive (layerwise P).
Proof.
  intros s1 s2 s3 H1 H2 k. specialize (H1 k). specialize (H2 k).
  destruct (heap s1 !! k) as [K1|].
  - destruct H1 as (K2 & HK2 & HR). rewrite HK2 in H2.
    destruct H2 as (K3 & HK3 & HR'). exists K3. split; [assumption|].
    eapply layer_rel_trans; eassumption.
  - rewrite H1 in H2. exact H2.
Qed.

Lemma layerwise_lookup (st st' : @State num) k K :
  layerwise P st st' -> heap st !! k = Some K ->
  exists K', heap st' !! k = Some K' /\ P k K K'.
Proof. intros H HK. specialize (H k). rewrite HK in H. exact H. Qed.

Lemma layerwise_lookup_back (st st' : @State num) k K' :
  layerwise P st st' -> heap st' !! k = Some K' ->
  exists K, heap st !! k = Some K /\ P k K K'.
Proof.
  intros H HK'. specialize (H k). destruct (heap st !! k) as [K|].
  - destruct H as (K2 & HK2 & HP). exists K. split; [reflexivity|].
    congruence.
  - congruence.
Qed.

Lemma layerwise_live (st st' : @State num) ls :
  layerwise P st st' -> live st ls -> live st' ls.
Proof.
  intros H Hl. unfold live in *. rewrite Forall_forall in *.
  intros l Hin. destruct (Hl l Hin) as [L HL].
  destruct (layerwise_lookup st st' l L H HL) as (K' & HK' & _).
  eexists; exact HK'.
Qed.

(** Writing a layer back. *)
Lemma layerwise_store (st : @State num) l L L' :
  heap st !! l = Some L -> P l L L' ->
  layerwise P st (set_heap (<[l := L']> (heap st)) st).
Proof.
  intros Hl HP k. simpl. destruct (decide (l = k)) as [<-|Hne].
  - rewrite Hl, lookup_insert_eq. exists L'. split; [reflexivity | exact HP].
  - rewrite lookup_insert_ne by assumption.
    destruct (heap st !! k) as [K|]; [|reflexivity].
    exists K. split; [reflexivity | apply layer_rel_refl].
Qed.

Lemma layerwise_same_heap (st st' : @State num) :
  heap st' = heap st -> layerwise P st st'.
Proof.
  intros Hh k. rewrite Hh. destruct (heap st !! k) as [K|]; [|reflexivity].
  exists K. split; [reflexivity | apply layer_rel_refl].
Qed.

Lemma emit_layerwise e : respects (layerwise P) (@emit num e).
Proof. intros st. apply layerwise_same_heap. reflexivity. Qed.

Lemma clearCanvas_layerwise cnv : respects (layerwise P) (@clearCanvas num _ cnv).
Proof. intros st. apply layerwise_same_heap. reflexivity. Qed.

Lemma assign_layerwise r f :
  (forall l K, r = Some l -> P l K (f K)) ->
  respects (layerwise P) (assign r f).
Proof.
  intros Hf st. unfold assign. destruct r as [l|]; [|reflexivity].
  destruct (heap st !! l) as [L|] eqn:E; [|reflexivity]. simpl.
  apply (layerwise_store st l L _ E). apply Hf. reflexivity.
Qed.

Lemma assign_viewport_layerwise r f :
  (forall l K v, r = Some l -> viewport K = Some v ->
     P l K (set_viewport (Some (f v)) K)) ->
  respects (layerwise P) (assign_viewport r f).
Proof.
  intros Hf. apply respects_intro; [typeclasses eauto|]. intros st0 st H0.
  unfold assign_viewport. repeat (wp_step; try exact H0).
  transitivity st; [exact H0|].
  match goal with H : r = Some ?l, H' : r = Some ?l' |- _ =>
    assert (l' = l) by congruence; subst l' end.
  match goal with H : heap st !! ?l = Some ?X, H' : heap st !! ?l = Some ?Y |- _ =>
    assert (Y = X) by congruence; subst Y end.
  eapply layerwise_store; [eassumption|]. apply Hf; assumption.
Qed.

Lemma assign_options_layerwise r f :
  (forall l K o, r = Some l -> options K = Some o ->
     P l K (set_options (Some (f o)) K)) ->
  respects (layerwise P) (assign_options r f).
Proof.
  intros Hf. apply respects_intro; [typeclasses eauto|]. intros st0 st H0.
  unfold assign_options. repeat (wp_step; try exact H0).
  transitivity st; [exact H0|].
  match goal with H : r = Some ?l, H' : r = Some ?l' |- _ =>
    assert (l' = l) by congruence; subst l' end.
  match goal with H : heap st !! ?l = Some ?X, H' : heap st !! ?l = Some ?Y |- _ =>
    assert (Y = X) by congruence; subst Y end.
  eapply layerwise_store; [eassumption|]. apply Hf; assumption.
Qed.

Lemma updateLayerSyncProps_layerwise r :
  (forall l, r = Some l -> allows_snapshot P l) ->
  respects (layerwise P) (updateLayerSyncProps r).
Proof.
  intros Hf. apply respects_intro; [typeclasses eauto|]. intros st0 st H0.
  unfold updateLayerSyncProps. repeat (wp_step; try exact H0).
  transitivity st; [exact H0|].
  match goal with H : r = Some ?l, H' : r = Some ?l' |- _ =>
    assert (l' = l) by congruence; subst l' end.
  match goal with H : heap st !! ?l = Some ?X, H' : heap st !! ?l = Some ?Y |- _ =>
    assert (Y = X) by congruence; subst Y end.
  eapply layerwise_store; [eassumption|]. apply Hf; assumption.
Qed.

(** [if (!layer.syncProps) updateLayerSyncProps(layer)], for the layer
    just read. *)
Lemma ensure_snapshot_layerwise (st : @State num) l L :
  heap st !! l = Some L -> allows_first_snapshot P l ->
  layerwise P st
    ((if isSome (syncProps L) then ret tt
      else updateLayerSyncProps (Some l)) st).2.
Proof.
  intros Hl Hok. destruct (syncProps L) as [s|] eqn:Es; simpl; [reflexivity|].
  destruct (viewport L) as [v|] eqn:Ev.
  - rewrite (updateLayerSyncProps_run st l L v Hl Ev). simpl.
    apply (layerwise_store st l L _ Hl). apply Hok; assumption.
  - unfold updateLayerSyncProps.
    rewrite (bind_Ret _ _ _ _ _ (deref_Some _ _ _ Hl)), Ev. reflexivity.
Qed.

Lemma getViewportRatio_layerwise b t :
  (forall l, b = Some l \/ t = Some l -> allows_first_snapshot P l) ->
  respects (layerwise P) (getViewportRatio b t).
Proof.
  intros Hok. apply respects_intro; [typeclasses eauto|]. intros st0 st H0.
  unfold getViewportRatio.
  wp_step. wp_step; [subst b|exact H0].
  wp_step.
  apply (wp_change (layerwise P) _ st0 st);
    [apply ensure_snapshot_layerwise; [assumption | apply Hok; auto]
    | exact H0 |].
  clear dependent st. intros [[]|e] st H0; [|exact H0].
  wp_step. wp_step; [subst t|exact H0].
  wp_step.
  apply (wp_change (layerwise P) _ st0 st);
    [apply ensure_snapshot_layerwise; [assumption | apply Hok; auto]
    | exact H0 |].
  clear dependent st. intros [[]|e] st H0; [|exact H0].
  repeat (wp_step; try exact H0).
Qed.

Lemma syncLayer_layerwise act l i :
  (Some l <> act ->
   allows_first_snapshot P l /\ allows_resync P l /\
   forall a, act = Some a -> allows_first_snapshot P a) ->
  respects (layerwise P) (syncLayer act l i).
Proof.
  intros Hok. apply respects_intro; [typeclasses eauto|]. intros st0 st H0.
  unfold syncLayer.
  wp_step; [apply wp_ret; exact H0|].
  match goal with H : bool_decide _ = false |- _ =>
    apply bool_decide_eq_false in H; destruct (Hok H) as (Hfirst & Hsync & Hact)
  end.
  wp_step. wp_step; [|exact H0].
  wp_step; [apply wp_ret; exact H0|].
  wp_step. wp_step; [|exact H0].
  wp_step; [apply wp_ret; exact H0|].
  wp_step.
  match goal with H : Some l = Some _ |- _ => injection H as <- end.
  apply (wp_change (layerwise P) _ st0 st);
    [apply ensure_snapshot_layerwise; assumption | exact H0 |].
  clear dependent st. intros [[]|ex] st H0; [|exact H0].
  wp_step.
  wp_over ltac:(apply getViewportRatio_layerwise;
                intros k [Hk|Hk]; [apply Hact; exact Hk
                                  | injection Hk as <-; exact Hfirst]) H0.
  assert (Hset : forall f : @Viewport num -> @Viewport num,
            (forall v, same_display v (f v)) ->
            respects (layerwise P) (assign_viewport (Some l) f)).
  { intros f Hf. apply assign_viewport_layerwise.
    intros k K v [= <-] Hv. apply (Hsync K v (f v) Hv), Hf. }
  do 4 (wp_step; wp_step; [|exact H0]; wp_step; wp_step; [|exact H0];
        wp_step;
        wp_over ltac:(apply Hset; intros v; repeat split) H0).
  wp_step. wp_step; [|exact H0]. wp_step. wp_step; [|exact H0].
  wp_over ltac:(apply Hset; intros v; repeat split) H0.
  exact H0.
Qed.

Lemma syncViewports_layerwise layers act :
  (forall l, l ∈ layers -> Some l <> act ->
     allows_first_snapshot P l /\ allows_resync P l /\
     forall a, act = Some a -> allows_first_snapshot P a) ->
  respects (layerwise P) (syncViewports layers act).
Proof.
  intros Hok. unfold syncViewports, forEach. generalize 0.
  induction layers as [|l ls IH]; intros i.
  - intros st. reflexivity.
  - simpl. apply respects_bind; [typeclasses eauto | |].
    + apply syncLayer_layerwise. apply Hok. left.
    + intros _. apply IH. intros k Hk. apply Hok. right. exact Hk.
Qed.

Lemma rescaleImage_layerwise b t :
  (forall l K v s, t = Some l -> viewport K = Some v ->
     P l K (set_viewport (Some (set_scale s v)) K)) ->
  respects (layerwise P) (rescaleImage b t).
Proof.
  intros Hok. unfold rescaleImage.
  repeat first
    [ apply assign_viewport_layerwise; intros; apply Hok; assumption
    | apply respects_bind; [typeclasses eauto | | intros ?]
    | apply respects_reads;
      [ typeclasses eauto
      | intros ?; first [apply deref_reads | apply prop_reads | reflexivity] ]
    | lazymatch goal with
      | |- respects _ (if ?b then _ else _) => destruct b
      | |- respects _ (let _ := _ in _) => cbv zeta
      end ].
Qed.

Lemma resyncLoop_layerwise allLayers :
  (forall l, l ∈ allLayers -> allows_snapshot P l) ->
  forall i,
    respects (layerwise P)
      (forEach_from i allLayers (fun layer _ =>
         L <- deref (Some layer) ;;
         if isSome (viewport L) then updateLayerSyncProps (Some layer)
         else ret tt)).
Proof.
  intros Hok.
  induction allLayers as [|l ls IH]; intros i.
  - intros st. reflexivity.
  - simpl. apply respects_bind; [typeclasses eauto | |].
    + apply respects_bind; [typeclasses eauto | |].
      * apply respects_reads; [typeclasses eauto|]. intros ?. apply deref_reads.
      * intros L. destruct (isSome (viewport L)).
        -- apply updateLayerSyncProps_layerwise. intros k [= <-].
           apply Hok. left.
        -- apply respects_reads; [typeclasses eauto | reflexivity].
    + intros _. apply IH. intros k Hk. apply Hok. right. exact Hk.
Qed.

Lemma resyncLayers_layerwise allLayers :
  (forall l, l ∈ allLayers -> allows_snapshot P l) ->
  respects (layerwise P) (resyncLayers allLayers).
Proof. intros Hok. apply resyncLoop_layerwise, Hok. Qed.

Lemma allows_snapshot_first l :
  allows_snapshot P l -> allows_first_snapshot P l.
Proof. intros H K v _ Hv. apply H, Hv. Qed.

End Layerwise.

(** Frame proofs for functions built from reads, events and assignments the
    relation allows. *)
Ltac layerwise_step :=
  first
    [ apply respects_bind; [typeclasses eauto | | intros ?]
    | apply emit_layerwise; typeclasses eauto
    | apply respects_reads;
      [ typeclasses eauto
      | intros ?; first [apply deref_reads | apply prop_reads | reflexivity] ]
    | lazymatch goal with
      | |- respects _ (if ?b then _ else _) => destruct b
      | |- respects _ (match ?o with _ => _ end) => destruct o
      | |- respects _ (let _ := _ in _) => cbv zeta
      end ].

Section LayerwiseRuns.

Context {num : Type} `{NumberOps : Number num}.
Variable Math : MathObj num.
Variable getImageFitScale : @Canvas num -> @Image num -> num -> @FitScale num.
Context (P : loc -> @Layer num -> @Layer num -> Prop) `{!LayerRel P}.

Lemma calculatePetFuisonTransform_layerwise e a :
  (forall l, a = Some l \/ e = Some l -> allows_first_snapshot P l) ->
  respects (layerwise P) (calculatePetFuisonTransform Math e a).
Proof.
  intros Hok. unfold calculatePetFuisonTransform.
  repeat first
    [ apply getViewportRatio_layerwise; [typeclasses eauto | exact Hok]
    | layerwise_step ].
Qed.

Lemma renderLayer_layerwise cnv act inv l i :
  allows_drawing P l -> allows_first_snapshot P l ->
  (forall a, act = Some a -> allows_first_snapshot P a) ->
  respects (layerwise P) (renderLayer Math cnv act inv l i).
Proof.
  intros Hdraw Hl Hact. unfold renderLayer.
  repeat first
    [ apply calculatePetFuisonTransform_layerwise;
      intros k [Hk|Hk]; [apply Hact; exact Hk | injection Hk as <-; exact Hl]
    | apply assign_layerwise; [typeclasses eauto|];
      intros k K [= <-]; apply Hdraw
    | layerwise_step ].
Qed.

Lemma renderLoop_layerwise cnv layers act inv :
  (forall l, l ∈ layers ->
     allows_drawing P l /\ allows_first_snapshot P l /\
     forall a, act = Some a -> allows_first_snapshot P a) ->
  forall i,
    respects (layerwise P)
      (forEach_from i layers (renderLayer Math cnv act inv)).
Proof.
  intros Hok.
  induction layers as [|l ls IH]; intros i.
  - intros st. reflexivity.
  - simpl. apply respects_bind; [typeclasses eauto | |].
    + destruct (Hok l) as (H1 & H2 & H3); [left|].
      apply renderLayer_layerwise; assumption.
    + intros _. apply IH. intros k Hk. apply Hok. right. exact Hk.
Qed.

Lemma renderLayers_layerwise cnv layers act inv :
  (forall l, l ∈ layers ->
     allows_drawing P l /\ allows_first_snapshot P l /\
     forall a, act = Some a -> allows_first_snapshot P a) ->
  respects (layerwise P) (renderLayers Math cnv layers act inv).
Proof. intros Hok. apply renderLoop_layerwise, Hok. Qed.

Lemma resetLoop_layerwise cnv base allLayers :
  (forall l, l ∈ allLayers ->
     allows_snapshot P l /\ allows_resync P l /\ allows_withdrawal P l) ->
  forall i,
    respects (layerwise P)
      (forEach_from i allLayers (resizePetLayer getImageFitScale cnv base)).
Proof.
  intros Hok.
  induction allLayers as [|l ls IH]; intros i.
  - intros st. reflexivity.
  - simpl. apply respects_bind; [typeclasses eauto | |].
    + destruct (Hok l) as (Hsnap & Hsync & Hwd); [left|].
      unfold resizePetLayer.
      repeat first
        [ apply updateLayerSyncProps_layerwise; [typeclasses eauto|];
          intros k [= <-]; exact Hsnap
        | apply rescaleImage_layerwise; [typeclasses eauto|];
          intros k K v s [= <-] Hv; apply (Hsync K v _ Hv); repeat split
        | apply assign_viewport_layerwise; [typeclasses eauto|];
          intros k K v [= <-] Hv; apply (Hsync K v _ Hv); repeat split
        | apply assign_options_layerwise; [typeclasses eauto|];
          intros k K o [= <-] Ho; apply (Hwd K o Ho)
        | layerwise_step ].
    + intros _. apply IH. intros k Hk. apply Hok. right. exact Hk.
Qed.

Lemma resetPetScale_layerwise cnv allLayers :
  (forall l, l ∈ allLayers ->
     allows_snapshot P l /\ allows_resync P l /\ allows_withdrawal P l) ->
  respects (layerwise P) (resetPetScale getImageFitScale cnv allLayers).
Proof.
  intros Hok. unfold resetPetScale.
  apply respects_bind; [typeclasses eauto | |].
  - apply respects_reads; [typeclasses eauto|]. apply ctFusionLayer_reads.
  - intros ct. apply resetLoop_layerwise, Hok.
Qed.

(** The whole render, for a relation that allows everything the code
    writes. *)
Lemma drawCompositeImage_layerwise ee inv :
  (forall l, allows_snapshot P l /\ allows_resync P l /\
             allows_withdrawal P l /\ allows_drawing P l) ->
  respects (layerwise P) (drawCompositeImage Math getImageFitScale ee inv).
Proof.
  intros Hok. unfold drawCompositeImage.
  apply respects_bind; [typeclasses eauto | |].
  { apply respects_reads; [typeclasses eauto | reflexivity]. }
  intros last. apply respects_bind; [typeclasses eauto | |].
  { intros st. apply layerwise_same_heap; [typeclasses eauto | reflexivity]. }
  intros _. apply respects_bind; [typeclasses eauto | |].
  { destruct (negb last && ee_syncViewports ee).
    - apply resyncLayers_layerwise; [typeclasses eauto|].
      intros l _. apply Hok.
    - apply respects_reads; [typeclasses eauto | reflexivity]. }
  intros _. apply respects_bind; [typeclasses eauto | |].
  { apply respects_reads; [typeclasses eauto|]. apply bResetPetScale_reads. }
  assert (Hsync : forall layers act,
            respects (layerwise P) (@syncViewports num _ layers act)).
  { intros layers act. apply syncViewports_layerwise; [typeclasses eauto|].
    intros l _ _. split; [apply allows_snapshot_first, Hok|].
    split; [apply Hok|]. intros a _. apply allows_snapshot_first, Hok. }
  intros reset. apply respects_bind; [typeclasses eauto | |].
  { destruct reset.
    - apply respects_bind; [typeclasses eauto | |].
      + apply resetPetScale_layerwise.
        intros l _. destruct (Hok l) as (H1 & H2 & H3 & _). auto.
      + intros _. apply Hsync.
    - apply respects_reads; [typeclasses eauto | reflexivity]. }
  intros _. apply respects_bind; [typeclasses eauto | |].
  { destruct (ee_syncViewports ee); [apply Hsync|].
    apply respects_reads; [typeclasses eauto | reflexivity]. }
  intros _. apply respects_bind; [typeclasses eauto | |].
  { apply clearCanvas_layerwise; typeclasses eauto. }
  intros _. apply renderLayers_layerwise.
  intros l _. split; [apply Hok|].
  split; [apply allows_snapshot_first, Hok|].
  intros a _. apply allows_snapshot_first, Hok.
Qed.

End LayerwiseRuns.

(** ** What the rescaler and the synchroniser may change *)

Section Touch.

Context {num : Type} `{NumberOps : Number num}.
Local Open Scope js_scope.

Lemma same_display_refl (v : @Viewport num) : same_display v v.
Proof. repeat split. Qed.

Lemma same_display_trans (v1 v2 v3 : @Viewport num) :
  same_display v1 v2 -> same_display v2 v3 -> same_display v1 v3.
Proof.
  intros (H1 & H2 & H3 & H4) (H1' & H2' & H3' & H4').
  repeat split; congruence.
Qed.

Lemma resynced_refl (K : @Layer num) : resynced K K.
Proof.
  repeat split; auto. destruct (viewport K); [apply same_display_refl | exact I].
Qed.

Lemma resynced_trans (K1 K2 K3 : @Layer num) :
  resynced K1 K2 -> resynced K2 K3 -> resynced K1 K3.
Proof.
  intros (H1 & H2 & H3 & H4 & H5 & H6 & H7) (H1' & H2' & H3' & H4' & H5' & H6' & H7').
  repeat split; try congruence.
  - destruct H6 as [H6|H6]; [left; exact H6|].
    destruct H6' as [H6'|H6']; [left|right]; congruence.
  - destruct (viewport K1), (viewport K2), (viewport K3); try contradiction;
      [eapply same_display_trans; eassumption | exact I].
Qed.

Lemma same_but_snapshot_resynced (K K' : @Layer num) :
  same_but_snapshot K K' -> resynced K K'.
Proof.
  intros [->|[Hn [s ->]]]; [apply resynced_refl|].
  repeat split; auto. simpl.
  destruct (viewport K); [apply same_display_refl | exact I].
Qed.

#[export] Instance sync_touch_LayerRel layers act :
  LayerRel (@sync_touch num layers act).
Proof.
  split; unfold sync_touch.
  - intros k K. destruct (bool_decide (Some k = act)); [reflexivity|].
    destruct (bool_decide (k ∈ layers)); [apply resynced_refl | reflexivity].
  - intros k K1 K2 K3. destruct (bool_decide (Some k = act)).
    + intros; etransitivity; eassumption.
    + destruct (bool_decide (k ∈ layers)); [apply resynced_trans | congruence].
Qed.

Lemma rescaled_trans (K1 K2 K3 : @Layer num) :
  rescaled K1 K2 -> rescaled K2 K3 -> rescaled K1 K3.
Proof.
  intros [->|(v & s & Hv & ->)] H23; [exact H23|].
  destruct H23 as [->|(v' & s' & Hv' & ->)].
  - right. exists v, s. split; [exact Hv | reflexivity].
  - right. exists v, s'. split; [exact Hv|].
    simpl in Hv'. injection Hv' as <-. reflexivity.
Qed.

#[export] Instance rescale_touch_LayerRel t :
  LayerRel (@rescale_touch num t).
Proof.
  split; unfold rescale_touch.
  - intros k K. destruct (bool_decide (Some k = t)); [left|]; reflexivity.
  - intros k K1 K2 K3. destruct (bool_decide (Some k = t));
      [apply rescaled_trans | congruence].
Qed.

Lemma rescaleImage_outcomes b t (st : @State num) :
  wp (rescaleImage b t) st
    (fun out s =>
       (s = st /\
        (out = Throw TypeError \/ out = Throw same_layer_error \/ out = Ret tt))
       \/
       (out = Ret tt /\
        exists l T v x,
          t = Some l /\ heap st !! l = Some T /\ viewport T = Some v /\
          s = set_heap (<[l := set_viewport (Some (set_scale x v)) T]> (heap st))
                st)).
Proof.
  unfold rescaleImage, assign_viewport.
  repeat wp_step; try (left; split; [reflexivity | auto]; fail).
  right. split; [reflexivity|].
  repeat match goal with
         | H : t = Some ?l, H' : t = Some ?l' |- _ =>
             assert (l' = l) by congruence; subst l'; clear H'
         end.
  repeat match goal with
         | H : heap st !! ?l = Some ?X, H' : heap st !! ?l = Some ?Y |- _ =>
             assert (Y = X) by congruence; subst Y; clear H'
         end.
  repeat match goal with
         | H : viewport ?L = Some ?X, H' : viewport ?L = Some ?Y |- _ =>
             assert (Y = X) by congruence; subst Y; clear H'
         end.
  eexists _, _, _, _. repeat split; eassumption.
Qed.

(** X6: whatever its arguments and its outcome, [rescaleImage] asks nothing
    of the context, leaves the remembered sync flag alone, and leaves every
    layer as it was except that the target may have another viewport
    scale.  When it throws, nothing at all has changed, and what it throws
    is a TypeError or the error for two arguments that are the same
    layer. *)
Theorem rescaleImage_writes_target_scale_only b t (st : @State num) :
  let run := rescaleImage b t st in
  log run.2 = log st /\
  lastSyncViewportsState run.2 = lastSyncViewportsState st /\
  layerwise (rescale_touch t) st run.2 /\
  (forall e, run.1 = Throw e ->
     run.2 = st /\ (e = TypeError \/ e = same_layer_error)).
Proof.
  intros run. subst run.
  pose proof (rescaleImage_outcomes b t st) as H. unfold wp in H.
  destruct (rescaleImage b t st) as [out s]. simpl in *.
  destruct H as [[-> Hout]|[-> (l & T & v & x & -> & HT & Hv & ->)]].
  - split; [reflexivity|]. split; [reflexivity|]. split; [reflexivity|].
    intros e ->. split; [reflexivity|].
    destruct Hout as [H|[H|H]]; [left|right|discriminate]; congruence.
  - split; [reflexivity|]. split; [reflexivity|]. split; [|discriminate].
    apply (layerwise_store _ st l T _ HT). unfold rescale_touch.
    rewrite bool_decide_eq_true_2 by reflexivity.
    right. exists v, x. split; [exact Hv | reflexivity].
Qed.

(** X7: whatever its arguments and its outcome, [syncViewports] asks
    nothing of the context and leaves the remembered sync flag alone; a
    layer that is neither listed nor the active one is left as it was; the
    active layer is left as it was but for a first snapshot; a listed layer
    keeps its id, image, options, canvas and invalid flag, keeps the
    snapshot it had, has a viewport exactly when it had one, and that
    viewport displays the same (displayed area, colormap, labelmap flag and
    pixel replication are never written). *)
Theorem syncViewports_touches_listed_viewports layers act (st : @State num) :
  let st' := (syncViewports layers act st).2 in
  log st' = log st /\
  lastSyncViewportsState st' = lastSyncViewportsState st /\
  layerwise (sync_touch layers act) st st'.
Proof.
  intros st'. subst st'. split; [|split].
  - apply (syncViewports_heap_only quiet).
  - apply (syncViewports_heap_only flag_kept).
  - apply syncViewports_layerwise; [typeclasses eauto|].
    intros l Hin Hne. unfold allows_first_snapshot, allows_resync, sync_touch.
    split; [|split].
    + intros K v Hs Hv. rewrite bool_decide_eq_false_2 by exact Hne.
      rewrite bool_decide_eq_true_2 by exact Hin.
      apply same_but_snapshot_resynced. right. split; [exact Hs|].
      eexists; reflexivity.
    + intros K v v' Hv Hd. rewrite bool_decide_eq_false_2 by exact Hne.
      rewrite bool_decide_eq_true_2 by exact Hin.
      repeat split; auto. simpl. rewrite Hv. exact Hd.
    + intros a -> K v Hs Hv. rewrite bool_decide_eq_true_2 by reflexivity.
      right. split; [exact Hs|]. eexists; reflexivity.
Qed.

End Touch.

(** ** Fusion transform: what it needs and what it may change *)

Section FusionNeeds.

Context {num : Type} `{NumberOps : Number num}.
Variable Math : MathObj num.
Local Open Scope js_scope.

#[export] Instance snapshot_touch_LayerRel rs :
  LayerRel (@snapshot_touch num rs).
Proof.
  split; unfold snapshot_touch.
  - intros k K. destruct (bool_decide (Some k ∈ rs)); reflexivity.
  - intros k K1 K2 K3. destruct (bool_decide (Some k ∈ rs));
      [intros; etransitivity; eassumption | congruence].
Qed.

Lemma snapshot_touch_first rs l :
  Some l ∈ rs -> allows_first_snapshot (@snapshot_touch num rs) l.
Proof.
  intros Hin K v Hs Hv. unfold snapshot_touch.
  rewrite bool_decide_eq_true_2 by exact Hin.
  right. split; [exact Hs|]. eexists; reflexivity.
Qed.

Lemma anchor_of_viewport (L : @Layer num) v :
  viewport L = Some v -> is_Some (anchor L).
Proof.
  intros Hv. unfold anchor. destruct (syncProps L); rewrite ?Hv; eexists;
    reflexivity.
Qed.

(** X9: [calculatePetFuisonTransform(frame, active)] returns a transform
    exactly when both arguments are layer objects, the active layer has a
    viewport and an image, and the frame layer has a canvas and a viewport;
    otherwise it throws.  Whatever the outcome, it asks nothing of the
    context, leaves the remembered sync flag alone, and changes no layer,
    except that the two layers may have received their first snapshot. *)
Theorem calculatePetFuisonTransform_needs e a (st : @State num) :
  let run := calculatePetFuisonTransform Math e a st in
  ((exists t, run.1 = Ret t) <->
   (exists le la E A,
      e = Some le /\ a = Some la /\
      heap st !! le = Some E /\ heap st !! la = Some A /\
      is_Some (viewport A) /\ is_Some (image A) /\
      is_Some (canvas E) /\ is_Some (viewport E))) /\
  log run.2 = log st /\
  lastSyncViewportsState run.2 = lastSyncViewportsState st /\
  layerwise (snapshot_touch [a; e]) st run.2.
Proof.
  intros run. subst run. split; [split|].
  - assert (Hwp : wp (calculatePetFuisonTransform Math e a) st
              (fun out _ =>
                 (exists t, out = Ret t) ->
                 exists le la E A,
                   e = Some le /\ a = Some la /\
                   heap st !! le = Some E /\ heap st !! la = Some A /\
                   is_Some (viewport A) /\ is_Some (image A) /\
                   is_Some (canvas E) /\ is_Some (viewport E))).
    { unfold calculatePetFuisonTransform.
      repeat (wp_step; try (intros [? [=]]; fail)).
      unfold wp.
      destruct (getViewportRatio a e st) as [[r|ex] s1]; cbn [fst snd];
        [|intros [? [=]]].
      intros _. subst.
      eexists _, _, _, _. repeat split; try eassumption; eexists; eassumption. }
    exact Hwp.
  - intros (le & la & E & A & -> & -> & HE & HA & [av Hav] & [ai Hai]
            & [ec Hec] & [ev Hev]).
    unfold calculatePetFuisonTransform.
    run_lookup HA. rewrite Hav. unfold bind at 1. cbn [prop ret]. rewrite Hai.
    unfold bind at 1. cbn [prop ret].
    run_lookup HE. rewrite Hec. unfold bind at 1. cbn [prop ret]. rewrite Hev.
    unfold bind at 1. cbn [prop ret].
    pose proof (getViewportRatio_cases st la le A E HA HE) as Hr.
    destruct (anchor_of_viewport A av Hav) as [ka Hka].
    destruct (anchor_of_viewport E ev Hev) as [ke Hke].
    rewrite Hka, Hke in Hr. rewrite (bind_Ret _ _ _ _ _ Hr).
    eexists. reflexivity.
  - split; [|split].
    + apply (calculatePetFuisonTransform_only_snapshots Math e a st).
    + apply (calculatePetFuisonTransform_only_snapshots Math e a st).
    + apply calculatePetFuisonTransform_layerwise; [typeclasses eauto|].
      intros l [->| ->]; apply snapshot_touch_first; set_solver.
Qed.

End FusionNeeds.

Lemma calculatePetFuisonTransform_needs_witness :
  exists t,
    (calculatePetFuisonTransform host_Math (Some 2) (Some 1) fusion_state).1
    = Ret t.
Proof.
  apply (proj2 (proj1 (calculatePetFuisonTransform_needs host_Math (Some 2)
                         (Some 1) fusion_state))).
  exists 2, 1, fusion_frame, fusion_active.
  repeat split; try reflexivity; eexists; reflexivity.
Defined.

(** ** Drawing the layers: calls, failures and what is written *)

Section Drawing.

Context {num : Type} `{NumberOps : Number num}.
Variable Math : MathObj num.
Local Open Scope js_scope.

Lemma same_but_snapshot_canvas (K K' : @Layer num) :
  same_but_snapshot K K' -> canvas K' = canvas K.
Proof. intros [->|[_ [s ->]]]; reflexivity. Qed.

Lemma is_transform_not_restore l (T : @Event num) :
  is_transform l T -> T <> CtxRestore.
Proof. intros [->|(a & b & c & d & x & y & ->)]; discriminate. Qed.

(** Drawing one layer that has an image. *)
Lemma renderLayer_spec cnv act inv l i (st : @State num) L img :
  heap st !! l = Some L -> image L = Some img ->
  wp (renderLayer Math cnv act inv l i) st
    (fun out st' =>
       match out with
       | Ret _ =>
           exists v T c L',
             viewport L = Some v /\ is_transform l T /\
             layer_colormap v L = Some c /\
             log st' = log st ++
               layer_events l T
                 (rasterize l c (labelmap v) (color img) (invalid L || inv) i)
                 L v /\
             heap st' !! l = Some L' /\ invalid L' = false /\
             canvas L' = Some cnv
       | Throw _ =>
           exists evs, log st' = log st ++ CtxSave :: evs /\ CtxRestore ∉ evs
       end).
Proof.
  intros HL Himg. unfold renderLayer.
  wp_step. wp_step.
  2:{ match goal with H : forall l0, Some l = Some l0 -> _ |- _ =>
        rewrite (H l eq_refl) in HL; discriminate end. }
  match goal with H : Some l = Some _ |- _ => injection H as <- end.
  match goal with H : heap st !! l = Some ?X |- _ =>
    assert (X = L) by congruence; subst X end.
  rewrite Himg. cbn [isSome negb].
  wp_step. wp_step. wp_step. wp_step.
  2:{ match goal with H : forall l0, Some l = Some l0 -> _ |- _ =>
        cbn in H; rewrite (H l eq_refl) in HL; discriminate end. }
  match goal with H : Some l = Some _ |- _ => injection H as <- end.
  match goal with H : heap (add_event _ st) !! l = Some ?X |- _ =>
    cbn in H; assert (X = L) by congruence; subst X end.
  set (s1 := set_heap _ (add_event CtxSave st)).
  assert (Hl1 : heap s1 !! l = Some (set_canvas (Some cnv) L))
    by apply lookup_insert_eq.
  assert (Hlog1 : log s1 = log st ++ [CtxSave]) by reflexivity.
  clearbody s1.
  wp_step. wp_step; [|congruence].
  match goal with H : Some img = Some _ |- _ => injection H as <- end.
  wp_step. wp_step.
  2:{ exists []. split; [exact Hlog1 | apply not_elem_of_nil]. }
  rename a into id.
  wp_step.
  apply (wp_mono _ _
    (fun out s =>
       match out with
       | Ret _ =>
           exists T L2,
             is_transform l T /\ log s = log st ++ [CtxSave; T] /\
             heap s !! l = Some L2 /\
             same_but_snapshot (set_canvas (Some cnv) L) L2
       | Throw _ => log s = log st ++ [CtxSave]
       end)).
  { destruct ((indexOf id "petmpr" >? -1)%Z && (indexOf id "Axial" =? -1)%Z).
    - wp_step.
      apply (wp_respects only_snapshots _ s1 s1 _
               (calculatePetFuisonTransform_only_snapshots Math (Some l) act));
        [reflexivity|].
      intros [t|ex] s2 (Hlog2 & _ & Hheap2); [|congruence].
      wp_step. specialize (Hheap2 l). rewrite Hl1 in Hheap2.
      destruct Hheap2 as (L2 & HL2 & Hrel).
      eexists _, L2. split; [right; repeat eexists|].
      split; [cbn; rewrite Hlog2, Hlog1, <- app_assoc; reflexivity|].
      split; [exact HL2 | exact Hrel].
    - wp_step. exists (SetToPixelCoordinateSystem l), (set_canvas (Some cnv) L).
      split; [left; reflexivity|].
      split; [cbn; rewrite Hlog1, <- app_assoc; reflexivity|].
      split; [exact Hl1 | reflexivity]. }
  clear dependent s1.
  intros [[]|ex] s Hs.
  2:{ exists []. split; [exact Hs | apply not_elem_of_nil]. }
  destruct Hs as (T & L2 & HT & Hlog & HL2 & Hrel).
  pose proof (same_but_snapshot_canvas _ _ Hrel) as Hc2.
  apply same_but_snapshot_fields in Hrel.
  destruct Hrel as (Hv2 & Ho2 & Hi2 & _). cbn in Hv2, Ho2, Hi2, Hc2.
  assert (HTr : CtxRestore ∉ [T]).
  { intros Hin. apply list_elem_of_singleton in Hin.
    exact (is_transform_not_restore l T HT (eq_sym Hin)). }
  wp_step. wp_step.
  2:{ match goal with H : forall l0, Some l = Some l0 -> _ |- _ =>
        rewrite (H l eq_refl) in HL2; discriminate end. }
  match goal with H : Some l = Some _ |- _ => injection H as <- end.
  match goal with H : heap s !! l = Some ?X |- _ =>
    assert (X = L2) by congruence; subst X end.
  rewrite Hv2, Ho2, Hi2.
  wp_step. wp_step.
  2:{ exists [T]. split; [exact Hlog | exact HTr]. }
  rename a into v.
  wp_step.
  apply (wp_mono _ _
    (fun out s' =>
       s' = s /\
       match out with
       | Ret c => layer_colormap v L = Some c
       | Throw _ => True
       end)).
  { unfold layer_colormap.
    destruct (colormap_truthy (vp_colormap v)); [split; reflexivity|].
    wp_step. wp_step.
    - wp_step. match goal with H : options L = Some _ |- _ => rewrite H end.
      split; reflexivity.
    - split; [reflexivity | exact I]. }
  intros [c|ex] ? [-> Hc].
  2:{ exists [T]. split; [exact Hlog | exact HTr]. }
  wp_step. wp_step. wp_step. wp_step. wp_step.
  apply (wp_mono _ _
    (fun out s' =>
       out = Ret tt /\ heap s' = heap s /\
       log s' = log s ++
         [rasterize l c (labelmap v) (color img) (invalid L || inv) i;
          CtxGlobalAlpha (layer_alpha L)] ++ layer_fill L)).
  { unfold layer_fill, layer_alpha. destruct (options L) as [o|] eqn:Eo.
    - destruct (fillStyle o) as [f|] eqn:Ef; cbn [str_truthy].
      + destruct (negb (String.eqb f "")) eqn:Et.
        * wp_step. wp_step; [|discriminate].
          match goal with H : Some f = Some _ |- _ => injection H as <- end.
          wp_step. split; [reflexivity|]. split; [reflexivity|].
          cbn. rewrite <- !app_assoc. reflexivity.
        * wp_step. split; [reflexivity|]. split; [reflexivity|].
          cbn. rewrite <- !app_assoc. reflexivity.
      + wp_step. split; [reflexivity|]. split; [reflexivity|].
        cbn. rewrite <- !app_assoc. reflexivity.
    - wp_step. split; [reflexivity|]. split; [reflexivity|].
      cbn. rewrite <- !app_assoc. reflexivity. }
  intros out s' (-> & Hheap & Hlog').
  do 4 (wp_step; wp_step).
  wp_step.
  2:{ match goal with H : forall l0, Some l = Some l0 -> _ |- _ =>
        cbn in H; rewrite Hheap in H; rewrite (H l eq_refl) in HL2;
        discriminate end. }
  match goal with H : Some l = Some _ |- _ => injection H as <- end.
  match goal with H : heap _ !! l = Some ?X |- _ =>
    cbn in H; rewrite Hheap in H;
    assert (X = L2) by congruence; subst X end.
  exists v, T, c, (set_invalid false L2).
  split; [assumption|]. split; [exact HT|]. split; [exact Hc|].
  split.
  { cbn. rewrite Hlog', Hlog. unfold layer_events.
    rewrite <- !app_assoc. reflexivity. }
  split; [apply lookup_insert_eq|]. split; [reflexivity | exact Hc2].
Qed.

#[export] Instance drawn_over_LayerRel :
  LayerRel (fun _ : loc => @drawn_over num).
Proof.
  split.
  - intros _ K. repeat split; auto.
  - intros _ K1 K2 K3 (H1 & H2 & H3 & H4 & H5) (H1' & H2' & H3' & H4' & H5').
    repeat split; try congruence.
    destruct H5 as [H5|H5]; [left; exact H5|].
    destruct H5' as [H5'|H5']; [left|right]; congruence.
Qed.

Lemma same_but_snapshot_drawn_over (K K' : @Layer num) :
  same_but_snapshot K K' -> drawn_over K K'.
Proof. intros [->|[Hn [s ->]]]; repeat split; auto. Qed.

#[export] Instance render_touch_LayerRel layers act :
  LayerRel (@render_touch num layers act).
Proof.
  split; unfold render_touch.
  - intros k K. destruct (bool_decide (k ∈ layers));
      [apply (layer_rel_refl (P := fun _ => drawn_over) k)|].
    destruct (bool_decide (Some k = act)); reflexivity.
  - intros k K1 K2 K3. destruct (bool_decide (k ∈ layers));
      [apply (layer_rel_trans (P := fun _ => drawn_over) k)|].
    destruct (bool_decide (Some k = act));
      [intros; etransitivity; eassumption | congruence].
Qed.

Lemma drawn_over_allows l :
  allows_drawing (fun _ => @drawn_over num) l /\
  forall k, allows_first_snapshot (fun _ => @drawn_over num) k.
Proof.
  split.
  - intros K. split; [intros c|]; repeat split; auto.
  - intros k K v Hs Hv. repeat split; auto.
Qed.

Lemma render_touch_allows layers act l :
  l ∈ layers ->
  allows_drawing (@render_touch num layers act) l /\
  allows_first_snapshot (@render_touch num layers act) l /\
  forall a, act = Some a ->
            allows_first_snapshot (@render_touch num layers act) a.
Proof.
  intros Hin. unfold allows_drawing, allows_first_snapshot, render_touch.
  split; [|split].
  - intros K. rewrite bool_decide_eq_true_2 by exact Hin.
    split; [intros c|]; repeat split; auto.
  - intros K v Hs Hv. rewrite bool_decide_eq_true_2 by exact Hin.
    repeat split; auto.
  - intros a -> K v Hs Hv.
    assert (Hsnap : same_but_snapshot K
              (set_syncProps (Some {| originalScale := scale v |}) K)).
    { right. split; [exact Hs|]. eexists; reflexivity. }
    destruct (bool_decide (a ∈ layers));
      [apply same_but_snapshot_drawn_over, Hsnap|].
    rewrite bool_decide_eq_true_2 by reflexivity. exact Hsnap.
Qed.

Lemma renderLayer_no_image cnv act inv l i (st : @State num) L :
  heap st !! l = Some L -> image L = None ->
  renderLayer Math cnv act inv l i st = (Ret tt, st).
Proof.
  intros HL Hi. unfold renderLayer. run_lookup HL. rewrite Hi. reflexivity.
Qed.

Lemma renderLayer_live cnv act inv l i (st st' : @State num) :
  renderLayer Math cnv act inv l i st = (Ret tt, st') ->
  is_Some (heap st !! l).
Proof.
  intros Hrun. destruct (heap st !! l) as [L|] eqn:E; [eexists; reflexivity|].
  unfold renderLayer in Hrun.
  rewrite (bind_Throw _ _ _ _ _ (deref_None _ _ E)) in Hrun. discriminate.
Qed.

Lemma layer_events_options l T R (L L' : @Layer num) v :
  options L' = options L ->
  layer_events l T R L' v = layer_events l T R L v.
Proof.
  intros Ho. unfold layer_events, layer_alpha, layer_fill. rewrite Ho.
  reflexivity.
Qed.

(** The loop of [renderLayers], from any index and from any state that
    differs from the first one by what drawing may write. *)
Lemma renderLoop_blocks cnv act inv (st0 : @State num) layers :
  forall i st out st',
    layerwise (fun _ => drawn_over) st0 st ->
    forEach_from i layers (renderLayer Math cnv act inv) st = (out, st') ->
    match out with
    | Ret _ =>
        exists blocks,
          log st' = log st ++ concat blocks /\
          Forall2 (is_block st0) (List.filter (has_image st0) layers) blocks
    | Throw _ =>
        live st0 layers ->
        exists drawn l rest blocks evs,
          List.filter (has_image st0) layers = drawn ++ l :: rest /\
          Forall2 (is_block st0) drawn blocks /\
          log st' = log st ++ concat blocks ++ CtxSave :: evs /\
          CtxRestore ∉ evs
    end.
Proof.
  induction layers as [|l ls IH]; intros i st out st' H0 Hrun.
  - injection Hrun as <- <-. exists []. split; [symmetry; apply app_nil_r|].
    constructor.
  - simpl in Hrun. unfold bind in Hrun.
    destruct (renderLayer Math cnv act inv l i st) as [[[]|ex] s1] eqn:Hstep.
    + assert (H1 : layerwise (fun _ => drawn_over) st0 s1).
      { transitivity st; [exact H0|].
        pose proof (renderLayer_layerwise Math (fun _ => drawn_over) cnv act
                      inv l i (proj1 (drawn_over_allows l))
                      (proj2 (drawn_over_allows l) l)
                      (fun a _ => proj2 (drawn_over_allows l) a) st) as Hfr.
        rewrite Hstep in Hfr. exact Hfr. }
      specialize (IH (S i) s1 out st' H1 Hrun).
      destruct (renderLayer_live _ _ _ _ _ _ _ Hstep) as [Lc HLc].
      destruct (layerwise_lookup_back _ st0 st l Lc H0 HLc)
        as (L & HL & (_ & Himg & Hv & Ho & _)).
      assert (Hfil : List.filter (has_image st0) (l :: ls)
                     = if isSome (image L)
                       then l :: List.filter (has_image st0) ls
                       else List.filter (has_image st0) ls).
      { simpl. unfold has_image at 1. rewrite HL. reflexivity. }
      rewrite Hfil. clear Hfil.
      destruct (image L) as [img|] eqn:Ei; cbn [isSome].
      * pose proof (renderLayer_spec cnv act inv l i st Lc img HLc Himg) as Hwp.
        unfold wp in Hwp. rewrite Hstep in Hwp. cbn [fst snd] in Hwp.
        destruct Hwp as (v & T & c & L' & Hvc & HT & Hc & Hlog1 & _).
        assert (Hblock : is_block st0 l
                  (layer_events l T
                     (rasterize l c (labelmap v) (color img)
                        (invalid Lc || inv) i) Lc v)).
        { exists L, v, T,
            (rasterize l c (labelmap v) (color img) (invalid Lc || inv) i).
          split; [exact HL|]. split; [congruence|]. split; [exact HT|].
          split; [rewrite rasterize_selected; apply selected_renderer_is_call|].
          apply layer_events_options. exact Ho. }
        destruct out as [[]|ex].
        -- destruct IH as (blocks & Hlog & Hall).
           eexists (_ :: blocks). split.
           { rewrite Hlog, Hlog1. cbn [concat]. rewrite <- app_assoc.
             reflexivity. }
           constructor; [exact Hblock | exact Hall].
        -- intros Hlive. inversion Hlive as [|? ? _ Hrest]; subst.
           destruct (IH Hrest) as (drawn & k & rest & blocks & evs & Hf & Hall
                                   & Hlog & Hno).
           eexists (l :: drawn), k, rest, (_ :: blocks), evs.
           split; [rewrite Hf; reflexivity|].
           split; [constructor; [exact Hblock | exact Hall]|].
           split; [|exact Hno].
           rewrite Hlog, Hlog1. cbn [concat]. rewrite <- !app_assoc.
           reflexivity.
      * rewrite (renderLayer_no_image cnv act inv l i st Lc HLc Himg) in Hstep.
        injection Hstep as <-.
        destruct out as [[]|ex]; [exact IH|].
        intros Hlive. inversion Hlive as [|? ? _ Hrest]; subst.
        exact (IH Hrest).
    + injection Hrun as <- <-. intros Hlive.
      inversion Hlive as [|? ? [L HL] Hrest]; subst.
      destruct (layerwise_lookup _ st0 st l L H0 HL)
        as (Lc & HLc & (_ & Himg & _)).
      destruct (image L) as [img|] eqn:Ei.
      * pose proof (renderLayer_spec cnv act inv l i st Lc img HLc Himg) as Hwp.
        unfold wp in Hwp. rewrite Hstep in Hwp. cbn [fst snd] in Hwp.
        destruct Hwp as (evs & Hlog & Hno).
        exists [], l, (List.filter (has_image st0) ls), [], evs.
        split.
        { simpl. unfold has_image at 1. rewrite HL, Ei. reflexivity. }
        split; [constructor|]. split; [exact Hlog | exact Hno].
      * rewrite (renderLayer_no_image cnv act inv l i st Lc HLc Himg) in Hstep.
        discriminate.
Qed.

(** X10: when [renderLayers] returns, the calls it has made are one block
    per listed layer that has an image, in the order of the list, and
    nothing for a layer without an image.  Each block is: save, the layer's
    coordinate system (the standard one or an explicit matrix), one renderer
    call, the global alpha, the fill style if the layer has one, image
    smoothing set to the negation of pixel replication under both of its
    names, one [drawImage] of the displayed area from the layer's canvas to
    the origin at the same size, restore.  Every such layer has a
    viewport. *)
Theorem renderLayers_one_block_per_image cnv layers act inv
    (st st' : @State num) :
  renderLayers Math cnv layers act inv st = (Ret tt, st') ->
  exists blocks,
    log st' = log st ++ concat blocks /\
    Forall2 (is_block st) (List.filter (has_image st) layers) blocks.
Proof.
  intros Hrun.
  apply (renderLoop_blocks cnv act inv st layers 0 st (Ret tt) st');
    [reflexivity | exact Hrun].
Qed.

(** X11: when [renderLayers] throws over layers that are all live objects,
    it was drawing a layer that has an image: the layers with an image
    before it have their complete blocks, and for the failing one the
    context was saved and never restored, so the context is left one save
    deeper than it was. *)
Theorem renderLayers_failure_leaves_context_saved cnv layers act inv
    (st st' : @State num) e :
  live st layers ->
  renderLayers Math cnv layers act inv st = (Throw e, st') ->
  exists drawn l rest blocks evs,
    List.filter (has_image st) layers = drawn ++ l :: rest /\
    Forall2 (is_block st) drawn blocks /\
    log st' = log st ++ concat blocks ++ CtxSave :: evs /\
    CtxRestore ∉ evs.
Proof.
  intros Hlive Hrun.
  apply (renderLoop_blocks cnv act inv st layers 0 st (Throw e) st');
    [reflexivity | exact Hrun | exact Hlive].
Qed.

(** The loop of [renderLayers] leaves every layer it has drawn valid. *)
Lemma renderLoop_validates cnv act inv layers :
  forall i (st st' : @State num),
    forEach_from i layers (renderLayer Math cnv act inv) st = (Ret tt, st') ->
    forall l L, l ∈ layers -> heap st !! l = Some L -> is_Some (image L) ->
    exists L', heap st' !! l = Some L' /\ invalid L' = false.
Proof.
  induction layers as [|x ls IH]; intros i st st' Hrun l L Hin HL [img Hi].
  - inversion Hin.
  - simpl in Hrun. unfold bind in Hrun.
    destruct (renderLayer Math cnv act inv x i st) as [[[]|ex] s1] eqn:Hstep;
      [|discriminate].
    pose proof (renderLayer_layerwise Math (fun _ => drawn_over) cnv act inv
                  x i (proj1 (drawn_over_allows x))
                  (proj2 (drawn_over_allows x) x)
                  (fun a _ => proj2 (drawn_over_allows x) a) st) as Hfr.
    rewrite Hstep in Hfr. cbn [snd] in Hfr.
    destruct (decide (l ∈ ls)) as [Hls|Hls].
    + destruct (layerwise_lookup _ st s1 l L Hfr HL)
        as (L1 & HL1 & (_ & Himg1 & _)).
      apply (IH (S i) s1 st' Hrun l L1 Hls HL1).
      exists img. congruence.
    + apply elem_of_cons in Hin as [->|Hin]; [|contradiction].
      pose proof (renderLayer_spec cnv act inv x i st L img HL Hi) as Hwp.
      unfold wp in Hwp. rewrite Hstep in Hwp. cbn [fst snd] in Hwp.
      destruct Hwp as (v & T & c & L1 & _ & _ & _ & _ & HL1 & Hinv & _).
      pose proof (renderLoop_layerwise Math (render_touch ls act) cnv ls act
                    inv (fun k Hk => render_touch_allows ls act k Hk) (S i) s1)
        as Hrest.
      rewrite Hrun in Hrest. cbn [snd] in Hrest.
      destruct (layerwise_lookup _ s1 st' x L1 Hrest HL1) as (L' & HL' & HP).
      exists L'. split; [exact HL'|].
      unfold render_touch in HP.
      rewrite bool_decide_eq_false_2 in HP by exact Hls.
      assert (Hsame : invalid L' = invalid L1).
      { destruct (bool_decide (Some x = act)).
        - apply (same_but_snapshot_fields _ _ HP).
        - subst L'. reflexivity. }
      rewrite Hsame. exact Hinv.
Qed.


(** X12: whatever its outcome, [renderLayers] leaves the remembered sync
    flag alone; a layer that is neither listed nor the active one is left as
    it was; the active layer, when not listed, is left as it was but for a
    first snapshot; a listed layer keeps its id, image, viewport and
    options and the snapshot it had.  When it returns, every listed layer
    that has an image is marked valid. *)
Theorem renderLayers_marks_drawn_layers_valid cnv layers act inv
    (st : @State num) :
  let run := renderLayers Math cnv layers act inv st in
  lastSyncViewportsState run.2 = lastSyncViewportsState st /\
  layerwise (render_touch layers act) st run.2 /\
  (run.1 = Ret tt ->
   forall l L, l ∈ layers -> heap st !! l = Some L -> is_Some (image L) ->
     exists L', heap run.2 !! l = Some L' /\ invalid L' = false).
Proof.
  intros run. subst run. split; [|split].
  - apply (renderLayers_flag_kept Math).
  - apply renderLayers_layerwise; [typeclasses eauto|].
    intros l Hin. apply render_touch_allows, Hin.
  - intros Hret l L Hin HL Himg.
    destruct (renderLayers Math cnv layers act inv st) as [out st'] eqn:Hrun.
    cbn [fst snd] in *. subst out.
    apply (renderLoop_validates cnv act inv layers 0 st st' Hrun l L Hin HL
             Himg).
Qed.

End Drawing.

(** ** Drawing the layers: runs *)

Lemma renderLayers_one_block_per_image_witness :
  exists blocks,
    log (renderLayers approx_Math canvas512 [1; 2] (Some 1) false ct_pet).2
    = log ct_pet ++ concat blocks /\
    Forall2 (is_block ct_pet) (List.filter (has_image ct_pet) [1; 2]) blocks.
Proof.
  apply (renderLayers_one_block_per_image approx_Math canvas512 [1; 2]
           (Some 1) false ct_pet).
  vm_compute. reflexivity.
Defined.

Lemma renderLayers_failure_leaves_context_saved_witness :
  exists drawn l rest blocks evs,
    List.filter (has_image ct_bare) [1; 4] = drawn ++ l :: rest /\
    Forall2 (is_block ct_bare) drawn blocks /\
    log (renderLayers approx_Math canvas512 [1; 4] (Some 1) false ct_bare).2
    = log ct_bare ++ concat blocks ++ CtxSave :: evs /\
    CtxRestore ∉ evs.
Proof.
  apply (renderLayers_failure_leaves_context_saved approx_Math canvas512
           [1; 4] (Some 1) false ct_bare _ TypeError).
  - repeat constructor; eexists; reflexivity.
  - vm_compute. reflexivity.
Defined.

(** ** The whole render: what it never changes, and what it draws *)

Section WholeRender.

Context {num : Type} `{NumberOps : Number num}.
Variable Math : MathObj num.
Variable getImageFitScale : @Canvas num -> @Image num -> num -> @FitScale num.
Local Open Scope js_scope.

Lemma same_settings_refl (o : @Options num) : same_settings o o.
Proof. repeat split. Qed.

#[export] Instance same_subject_LayerRel :
  LayerRel (fun _ : loc => @same_subject num).
Proof.
  split.
  - intros _ K. split; [reflexivity|]. split; [reflexivity|]. split.
    + destruct (viewport K); [apply same_display_refl | exact I].
    + destruct (options K); [apply same_settings_refl | exact I].
  - intros _ K1 K2 K3 (H1 & H2 & H3 & H4) (H1' & H2' & H3' & H4').
    split; [congruence|]. split; [congruence|]. split.
    + destruct (viewport K1), (viewport K2), (viewport K3); try contradiction;
        [eapply same_display_trans; eassumption | exact I].
    + destruct (options K1), (options K2), (options K3); try contradiction;
        [|exact I].
      destruct H4 as (A1 & A2 & A3 & A4), H4' as (B1 & B2 & B3 & B4).
      repeat split; congruence.
Qed.

Lemma same_subject_allows l :
  allows_snapshot (fun _ => @same_subject num) l /\
  allows_resync (fun _ => @same_subject num) l /\
  allows_withdrawal (fun _ => @same_subject num) l /\
  allows_drawing (fun _ => @same_subject num) l.
Proof.
  assert (Hv : forall K : @Layer num,
            match viewport K, viewport K with
            | Some v, Some v' => same_display v v'
            | None, None => True
            | _, _ => False
            end).
  { intros K. destruct (viewport K); [apply same_display_refl | exact I]. }
  assert (Ho : forall K : @Layer num,
            match options K, options K with
            | Some o, Some o' => same_settings o o'
            | None, None => True
            | _, _ => False
            end).
  { intros K. destruct (options K); [apply same_settings_refl | exact I]. }
  split; [|split; [|split]].
  - intros K v HK. split; [reflexivity|]. split; [reflexivity|].
    split; [exact (Hv K) | exact (Ho K)].
  - intros K v v' HK Hd. split; [reflexivity|]. split; [reflexivity|].
    split; [|exact (Ho K)]. simpl. rewrite HK. exact Hd.
  - intros K o HK. split; [reflexivity|]. split; [reflexivity|].
    split; [exact (Hv K)|]. simpl. rewrite HK. repeat split.
  - intros K. split; [intros c|]; (split; [reflexivity|]);
      (split; [reflexivity|]); (split; [exact (Hv K) | exact (Ho K)]).
Qed.

(** X13: whatever its outcome, a composite render neither adds nor removes
    a layer, and every layer keeps its id and its image, has a viewport
    exactly when it had one, with the same displayed area, colormap,
    labelmap flag and pixel replication, and has options exactly when it
    had some, with the same name, opacity, fill style and colormap. *)
Theorem drawCompositeImage_keeps_subjects ee inv (st : @State num) :
  layerwise (fun _ => same_subject) st
    (drawCompositeImage Math getImageFitScale ee inv st).2.
Proof.
  apply drawCompositeImage_layerwise; [typeclasses eauto|].
  intros l. apply same_subject_allows.
Qed.

(** X14: a render with the sync flag off and no PET resize pending writes
    no viewport and no options: whatever its outcome, a layer that is
    neither visible nor the active one is left as it was, the active layer
    when not visible is left as it was but for a first snapshot, and a
    visible layer keeps its id, image, viewport, options and the snapshot it
    had. *)
Theorem plain_redraw_keeps_viewports ee inv (st : @State num) :
  ee_syncViewports ee = false ->
  (forall l L, l ∈ getLayers (ee_registry ee) ->
     heap st !! l = Some L -> petResizePending L = false) ->
  layerwise
    (render_touch (getVisibleLayers (ee_registry ee))
       (getActiveLayer (ee_registry ee)))
    st (drawCompositeImage Math getImageFitScale ee inv st).2.
Proof.
  intros Hoff Hno.
  set (P := render_touch (getVisibleLayers (ee_registry ee))
              (getActiveLayer (ee_registry ee))).
  change (wp (drawCompositeImage Math getImageFitScale ee inv) st
            (fun _ s => layerwise P st s)).
  unfold drawCompositeImage. rewrite Hoff.
  apply wp_bind. unfold wp at 1, get_lastSyncViewportsState. simpl.
  rewrite andb_false_r.
  apply wp_bind. unfold wp at 1, put_lastSyncViewportsState. simpl.
  set (st1 := set_lastSync _ st).
  assert (H0 : layerwise P st st1)
    by (apply layerwise_same_heap; [typeclasses eauto | reflexivity]).
  apply wp_bind. apply wp_ret.
  apply wp_bind. unfold wp at 1.
  pose proof (bResetPetScale_reads (getLayers (ee_registry ee)) st1) as Hrd.
  pose proof (bResetPetScale_true (getLayers (ee_registry ee)) st1) as Htr.
  destruct (bResetPetScale (getLayers (ee_registry ee)) st1) as [[b|ex] st2];
    simpl in *; subst st2; [|exact H0].
  destruct b.
  { destruct (Htr eq_refl) as (l & L & Hin & Hl & HP).
    rewrite (Hno l L Hin Hl) in HP. discriminate. }
  clear Htr.
  apply wp_bind. apply wp_ret.
  apply wp_bind. apply wp_ret.
  apply wp_bind.
  wp_over ltac:(apply clearCanvas_layerwise; typeclasses eauto) H0.
  wp_over ltac:(apply renderLayers_layerwise; [typeclasses eauto|];
                intros l Hin; apply render_touch_allows, Hin) H0.
  exact H0.
Qed.

#[export] Instance both_refl (R1 R2 : @State num -> @State num -> Prop)
    `{!Reflexive R1, !Reflexive R2} : Reflexive (both R1 R2).
Proof. intros st. split; reflexivity. Qed.

#[export] Instance both_trans (R1 R2 : @State num -> @State num -> Prop)
    `{!Transitive R1, !Transitive R2} : Transitive (both R1 R2).
Proof. intros s1 s2 s3 [A B] [C D]. split; etransitivity; eassumption. Qed.

Lemma respects_both {A} (R1 R2 : @State num -> @State num -> Prop)
    (m : @M num A) :
  respects R1 m -> respects R2 m -> respects (both R1 R2) m.
Proof. intros H1 H2 st. split; [apply H1 | apply H2]. Qed.

#[export] Instance log_grows_HeapBlind : HeapBlind (@log_grows num).
Proof.
  split.
  - intros st. exists []. symmetry. apply app_nil_r.
  - intros s1 s2 s3 [e1 H1] [e2 H2]. exists (e1 ++ e2).
    rewrite H2, H1, app_assoc. reflexivity.
  - intros h st. exists []. symmetry. apply app_nil_r.
Qed.

Lemma emit_log_grows e : respects log_grows (@emit num e).
Proof. intros st. exists [e]. reflexivity. Qed.

Lemma renderLayers_log_grows cnv layers act inv :
  respects log_grows (renderLayers Math cnv layers act inv).
Proof.
  apply respects_forEach; try typeclasses eauto. intros l i.
  unfold renderLayer, calculatePetFuisonTransform.
  repeat first [ apply emit_log_grows
               | apply (getViewportRatio_heap_only log_grows)
               | heap_only_step ].
Qed.

(** Before the canvas is cleared, a render asks nothing of the context and
    keeps what the layers show. *)
Lemma before_clearing_resync allLayers last flag :
  respects (both quiet (layerwise (fun _ => same_subject)))
    (if negb last && flag then @resyncLayers num allLayers else ret tt).
Proof.
  destruct (negb last && flag).
  - apply respects_both; [apply (resyncLayers_heap_only quiet)|].
    apply resyncLayers_layerwise; [typeclasses eauto|].
    intros l _. apply same_subject_allows.
  - apply respects_reads; [typeclasses eauto | reflexivity].
Qed.

Lemma before_clearing_sync layers act :
  respects (both quiet (layerwise (fun _ => same_subject)))
    (@syncViewports num _ layers act).
Proof.
  apply respects_both; [apply (syncViewports_heap_only quiet)|].
  apply syncViewports_layerwise; [typeclasses eauto|].
  intros l _ _. split; [apply allows_snapshot_first, same_subject_allows|].
  split; [apply same_subject_allows|].
  intros a _. apply allows_snapshot_first, same_subject_allows.
Qed.

Lemma before_clearing_reset cnv allLayers :
  respects (both quiet (layerwise (fun _ => same_subject)))
    (resetPetScale getImageFitScale cnv allLayers).
Proof.
  apply respects_both;
    [apply (resetPetScale_heap_only getImageFitScale quiet)|].
  apply resetPetScale_layerwise; [typeclasses eauto|].
  intros l _. destruct (same_subject_allows l) as (H1 & H2 & H3 & _). auto.
Qed.

Lemma same_subject_block (st s : @State num) l block :
  layerwise (fun _ => same_subject) st s ->
  is_block s l block -> is_block st l block.
Proof.
  intros Hfr (L & v & T & R & HL & Hv & HT & HR & ->).
  destruct (layerwise_lookup_back _ st s l L Hfr HL)
    as (L0 & HL0 & (_ & _ & Hvv & Hoo)).
  rewrite Hv in Hvv. destruct (viewport L0) as [v0|] eqn:Ev0; [|contradiction].
  destruct Hvv as (Hd & _ & _ & Hp).
  exists L0, v0, T, R. split; [exact HL0|]. split; [exact Ev0|].
  split; [exact HT|]. split; [exact HR|].
  unfold layer_events, layer_alpha, layer_fill. rewrite Hd, Hp.
  destruct (options L0) as [o0|], (options L) as [o|]; try contradiction;
    [|reflexivity].
  destruct Hoo as (_ & -> & -> & _). reflexivity.
Qed.

Lemma same_subject_has_image (st s : @State num) l :
  layerwise (fun _ => same_subject) st s ->
  has_image s l = has_image st l.
Proof.
  intros Hfr. unfold has_image. specialize (Hfr l).
  destruct (heap st !! l) as [L0|].
  - destruct Hfr as (L & -> & (_ & -> & _)). reflexivity.
  - rewrite Hfr. reflexivity.
Qed.

(** X15: a composite render that returns has reset the transform, filled
    the whole canvas with black, and then drawn the visible layers that
    have an image, one block of calls each, in the order of the visible
    list; what each block displays is read off the layers as they were
    before the call.  A render that throws has either asked nothing of the
    context, or has cleared the canvas first. *)
Theorem drawCompositeImage_clears_then_draws ee inv (st : @State num) :
  let run := drawCompositeImage Math getImageFitScale ee inv st in
  match run.1 with
  | Ret _ =>
      exists blocks,
        log run.2 = log st ++ clear_events (ee_canvas ee) ++ concat blocks /\
        Forall2 (is_block st)
          (List.filter (has_image st) (getVisibleLayers (ee_registry ee)))
          blocks
  | Throw _ =>
      log run.2 = log st \/
      exists evs, log run.2 = log st ++ clear_events (ee_canvas ee) ++ evs
  end.
Proof.
  intros run. subst run.
  set (R := both quiet (layerwise (fun _ : loc => @same_subject num))).
  set (Q := fun (o : Outcome unit) (s : @State num) =>
              match o with
              | Ret _ =>
                  exists blocks,
                    log s = log st ++ clear_events (ee_canvas ee)
                              ++ concat blocks /\
                    Forall2 (is_block st)
                      (List.filter (has_image st)
                         (getVisibleLayers (ee_registry ee))) blocks
              | Throw _ =>
                  log s = log st \/
                  exists evs,
                    log s = log st ++ clear_events (ee_canvas ee) ++ evs
              end).
  change (wp (drawCompositeImage Math getImageFitScale ee inv) st Q).
  assert (HQ : forall ex s, R st s -> Q (Throw ex) s).
  { intros ex s [Hq _]. left. exact Hq. }
  unfold drawCompositeImage.
  apply wp_bind. unfold wp at 1, get_lastSyncViewportsState. cbn [fst snd].
  apply wp_bind. unfold wp at 1, put_lastSyncViewportsState. cbn [fst snd].
  set (st1 := set_lastSync _ st).
  assert (H0 : R st st1).
  { split; [reflexivity|].
    apply layerwise_same_heap; [typeclasses eauto | reflexivity]. }
  clearbody st1.
  apply wp_bind.
  apply (wp_respects R _ st st1);
    [apply before_clearing_resync | exact H0 |].
  clear dependent st1. intros [[]|ex] st1 H0; [|apply HQ, H0].
  apply wp_bind.
  apply (wp_respects R _ st st1);
    [apply respects_reads; [typeclasses eauto | apply bResetPetScale_reads]
    | exact H0 |].
  clear dependent st1. intros [reset|ex] st1 H0; [|apply HQ, H0].
  apply wp_bind.
  apply (wp_respects R _ st st1); [|exact H0|].
  { destruct reset.
    - apply respects_bind; [typeclasses eauto | |intros ?].
      + apply before_clearing_reset.
      + apply before_clearing_sync.
    - apply respects_reads; [typeclasses eauto | reflexivity]. }
  clear dependent st1. intros [[]|ex] st1 H0; [|apply HQ, H0].
  apply wp_bind.
  apply (wp_respects R _ st st1); [|exact H0|].
  { destruct (ee_syncViewports ee); [apply before_clearing_sync|].
    apply respects_reads; [typeclasses eauto | reflexivity]. }
  clear dependent st1. intros [[]|ex] st1 H0; [|apply HQ, H0].
  apply wp_bind. unfold clearCanvas.
  do 2 (apply wp_bind; apply wp_emit). apply wp_emit.
  set (sc := add_event _ _).
  assert (Hlogc : log sc = log st ++ clear_events (ee_canvas ee)).
  { destruct H0 as [Hq _]. unfold quiet in Hq. cbn. rewrite Hq.
    rewrite <- !app_assoc. reflexivity. }
  assert (Hfr : layerwise (fun _ => same_subject) st sc).
  { destruct H0 as [_ Hl]. transitivity st1; [exact Hl|].
    apply layerwise_same_heap; [typeclasses eauto | reflexivity]. }
  clearbody sc. clear dependent st1.
  unfold wp.
  destruct (renderLayers Math (ee_canvas ee) (getVisibleLayers (ee_registry ee))
              (getActiveLayer (ee_registry ee)) inv sc) as [out st'] eqn:Hrun.
  cbn [fst snd]. destruct out as [[]|ex]; unfold Q.
  - pose proof (renderLoop_blocks Math (ee_canvas ee)
                  (getActiveLayer (ee_registry ee)) inv sc
                  (getVisibleLayers (ee_registry ee)) 0 sc (Ret tt) st'
                  ltac:(reflexivity) Hrun) as (blocks & Hlog & Hall).
    exists blocks. split.
    { rewrite Hlog, Hlogc, <- app_assoc. reflexivity. }
    rewrite (List.filter_ext _ _
               (fun l => same_subject_has_image st sc l Hfr)) in Hall.
    apply (Forall2_impl _ _ _ _ Hall).
    intros l b. apply same_subject_block, Hfr.
  - right.
    pose proof (renderLayers_log_grows (ee_canvas ee)
                  (getVisibleLayers (ee_registry ee))
                  (getActiveLayer (ee_registry ee)) inv sc) as [evs Hevs].
    rewrite Hrun in Hevs. cbn [snd] in Hevs. exists evs.
    rewrite Hevs, Hlogc, <- app_assoc. reflexivity.
Qed.

End WholeRender.

(** ** The whole render: resize requests *)

Section Requests.

Context {num : Type} `{NumberOps : Number num}.
Variable Math : MathObj num.
Variable getImageFitScale : @Canvas num -> @Image num -> num -> @FitScale num.
Local Open Scope js_scope.

Lemma bind_Ret_inv {A B} (m : @M num A) (k : A -> @M num B) st b st' :
  bind m k st = (Ret b, st') ->
  exists a s1, m st = (Ret a, s1) /\ k a s1 = (Ret b, st').
Proof.
  unfold bind. destruct (m st) as [[a|e] s1]; [|discriminate].
  intros H. exists a, s1. split; [reflexivity | exact H].
Qed.

#[export] Instance no_new_request_LayerRel :
  LayerRel (fun _ : loc => @no_new_request num).
Proof.
  split; unfold no_new_request.
  - auto.
  - auto.
Qed.

Lemma no_new_request_allows l :
  allows_snapshot (fun _ => @no_new_request num) l /\
  allows_resync (fun _ => @no_new_request num) l /\
  allows_withdrawal (fun _ => @no_new_request num) l /\
  allows_drawing (fun _ => @no_new_request num) l.
Proof.
  unfold allows_snapshot, allows_resync, allows_withdrawal, allows_drawing,
    no_new_request.
  split; [|split; [|split]].
  - intros K v _ H. exact H.
  - intros K v v' _ _ H. exact H.
  - intros K o _. unfold petResizePending. cbn. rewrite andb_false_r.
    discriminate.
  - intros K. split; [intros c H | intros H]; exact H.
Qed.

(** No layer of [ls] requests a resize in [st]. *)
Lemma settled_kept (st st' : @State num) (ls : list loc) :
  layerwise (fun _ => no_new_request) st st' ->
  (forall l, l ∈ ls ->
     exists L, heap st !! l = Some L /\ petResizePending L = false) ->
  forall l, l ∈ ls ->
    exists L, heap st' !! l = Some L /\ petResizePending L = false.
Proof.
  intros Hfr Hs l Hin. destruct (Hs l Hin) as (L & HL & HP).
  destruct (layerwise_lookup _ st st' l L Hfr HL) as (L' & HL' & Hn).
  exists L'. split; [exact HL'|].
  destruct (petResizePending L') eqn:E; [|reflexivity].
  rewrite (Hn E) in HP. discriminate.
Qed.

Lemma bResetPetScale_false allLayers (st : @State num) :
  (bResetPetScale allLayers st).1 = Ret false ->
  forall l, l ∈ allLayers ->
    exists L, heap st !! l = Some L /\ petResizePending L = false.
Proof.
  unfold bResetPetScale. induction allLayers as [|x xs IH];
    [intros _ l Hin; inversion Hin|].
  simpl. unfold bind at 1. unfold bind at 1.
  unfold deref, prop. destruct (heap st !! x) as [X|] eqn:E; simpl;
    [|discriminate].
  destruct (petResizePending X) eqn:EP; [discriminate|].
  intros H l Hin. apply elem_of_cons in Hin as [->|Hin].
  - exists X. split; assumption.
  - apply IH; assumption.
Qed.

Lemma resizePetLayer_consumes cnv base l i (st : @State num) :
  wp (resizePetLayer getImageFitScale cnv base l i) st
    (fun out s =>
       out = Ret tt ->
       exists L', heap s !! l = Some L' /\ petResizePending L' = false).
Proof.
  unfold resizePetLayer.
  wp_step. wp_step; [|discriminate].
  match goal with H : Some l = Some ?k |- _ =>
    assert (k = l) by congruence; subst k; clear H end.
  wp_step. wp_step; [|discriminate].
  rename L into L0. rename a into o.
  apply wp_bind.
  apply (wp_mono _ _
    (fun out s =>
       out = Ret tt ->
       exists L1, heap s !! l = Some L1 /\ petResizePending L1 = false)).
  { destruct (str_is (name o) "PET") eqn:EP.
    - unfold rescaleImage, assign_viewport, assign_options.
      repeat (wp_step; try discriminate);
        intros _;
        repeat match goal with H : Some l = Some ?k |- _ =>
                 assert (k = l) by congruence; subst k; clear H end;
        (eexists; split; [apply lookup_insert_eq|]);
        unfold petResizePending; cbn; apply andb_false_r.
    - wp_step. intros _. exists L0. split; [assumption|].
      unfold petResizePending.
      match goal with H : options L0 = Some o |- _ => rewrite H end.
      rewrite EP, andb_false_r. reflexivity. }
  intros [[]|ex] s Hs; [|discriminate].
  destruct (Hs eq_refl) as (L1 & HL1 & HP1).
  apply (wp_respects (layerwise (fun _ => no_new_request)) _ s s);
    [|reflexivity|].
  { repeat first
      [ apply updateLayerSyncProps_layerwise; [typeclasses eauto|];
        intros k _; apply no_new_request_allows
      | layerwise_step ]. }
  intros out s' Hfr _.
  destruct (layerwise_lookup _ s s' l L1 Hfr HL1) as (L' & HL' & Hn).
  exists L'. split; [exact HL'|].
  destruct (petResizePending L') eqn:E; [|reflexivity].
  rewrite (Hn E) in HP1. discriminate.
Qed.

Lemma resetLoop_consumes cnv base ls :
  forall i (st st' : @State num),
    forEach_from i ls (resizePetLayer getImageFitScale cnv base) st
    = (Ret tt, st') ->
    forall l, l ∈ ls ->
      exists L', heap st' !! l = Some L' /\ petResizePending L' = false.
Proof.
  induction ls as [|x xs IH]; intros i st st' Hrun l Hin; [inversion Hin|].
  simpl in Hrun. apply bind_Ret_inv in Hrun as ([] & s1 & Hstep & Hrest).
  apply elem_of_cons in Hin as [->|Hin]; [|apply (IH (S i) s1 st' Hrest l Hin)].
  pose proof (resizePetLayer_consumes cnv base x i st) as Hwp.
  unfold wp in Hwp. rewrite Hstep in Hwp.
  destruct (Hwp eq_refl) as (L1 & HL1 & HP1).
  pose proof (resetLoop_layerwise getImageFitScale (fun _ => no_new_request)
                cnv base xs
                (fun k _ => let H := no_new_request_allows k in
                            conj (proj1 H)
                              (conj (proj1 (proj2 H))
                                 (proj1 (proj2 (proj2 H)))))
                (S i) s1) as Hfr.
  rewrite Hrest in Hfr. cbn [snd] in Hfr.
  apply (settled_kept s1 st' [x] Hfr); [|left].
  intros k Hk. apply list_elem_of_singleton in Hk as ->.
  exists L1. split; assumption.
Qed.

(** X16: a resize request is served once.  After a composite render that
    returns, no layer of the registry is a PET layer with a pending resize
    request, whatever was pending before, so the next render does not
    resize again. *)
Theorem resize_requests_are_consumed ee inv (st st' : @State num) :
  drawCompositeImage Math getImageFitScale ee inv st = (Ret tt, st') ->
  (forall l L', l ∈ getLayers (ee_registry ee) ->
     heap st' !! l = Some L' -> petResizePending L' = false) /\
  bResetPetScale (getLayers (ee_registry ee)) st' = (Ret false, st').
Proof.
  intros Hrun.
  assert (Hsettled : forall l, l ∈ getLayers (ee_registry ee) ->
            exists L, heap st' !! l = Some L /\ petResizePending L = false).
  { unfold drawCompositeImage in Hrun.
    apply bind_Ret_inv in Hrun as (last & s0 & H0 & Hrun).
    apply bind_Ret_inv in Hrun as ([] & s1 & H1 & Hrun).
    apply bind_Ret_inv in Hrun as ([] & s2 & H2 & Hrun).
    apply bind_Ret_inv in Hrun as (reset & s2' & Hb & Hrun).
    pose proof (bResetPetScale_reads (getLayers (ee_registry ee)) s2) as Hrd.
    rewrite Hb in Hrd. cbn [snd] in Hrd. subst s2'.
    apply bind_Ret_inv in Hrun as ([] & s3 & H3 & Hrun).
    assert (Hs3 : forall l, l ∈ getLayers (ee_registry ee) ->
              exists L, heap s3 !! l = Some L /\ petResizePending L = false).
    { destruct reset.
      - apply bind_Ret_inv in H3 as ([] & sr & Hr & Hsync).
        unfold resetPetScale in Hr.
        apply bind_Ret_inv in Hr as (ct & sr0 & Hct & Hloop).
        pose proof (ctFusionLayer_reads (getLayers (ee_registry ee)) s2) as Hc.
        rewrite Hct in Hc. cbn [snd] in Hc. subst sr0.
        pose proof (syncViewports_layerwise (fun _ => no_new_request)
                      (getVisibleLayers (ee_registry ee))
                      (getActiveLayer (ee_registry ee))) as Hfr.
        specialize (Hfr (fun l _ _ =>
          conj (allows_snapshot_first _ l (proj1 (no_new_request_allows l)))
            (conj (proj1 (proj2 (no_new_request_allows l)))
               (fun a _ => allows_snapshot_first _ a
                             (proj1 (no_new_request_allows a))))) sr).
        rewrite Hsync in Hfr. cbn [snd] in Hfr.
        apply (settled_kept sr s3 _ Hfr).
        apply (resetLoop_consumes _ _ _ 0 s2 sr Hloop).
      - injection H3 as <-.
        apply bResetPetScale_false. rewrite Hb. reflexivity. }
    match type of Hrun with ?m s3 = _ =>
      assert (Hresp : respects (layerwise (fun _ => no_new_request)) m) end;
      [|pose proof (Hresp s3) as Hfr; rewrite Hrun in Hfr; cbn [snd] in Hfr;
        exact (settled_kept s3 st' _ Hfr Hs3)].
    assert (Hsync : forall layers act,
              respects (layerwise (fun _ => no_new_request))
                (@syncViewports num _ layers act)).
    { intros layers act. apply syncViewports_layerwise; [typeclasses eauto|].
      intros l _ _.
      split; [apply allows_snapshot_first, no_new_request_allows|].
      split; [apply no_new_request_allows|].
      intros a _. apply allows_snapshot_first, no_new_request_allows. }
    apply respects_bind; [typeclasses eauto | |intros ?].
    { destruct (ee_syncViewports ee); [apply Hsync|].
      apply respects_reads; [typeclasses eauto | reflexivity]. }
    apply respects_bind; [typeclasses eauto | |intros ?].
    { apply clearCanvas_layerwise; typeclasses eauto. }
    apply renderLayers_layerwise; [typeclasses eauto|].
    intros l _. split; [apply no_new_request_allows|].
    split; [apply allows_snapshot_first, no_new_request_allows|].
    intros a' _. apply allows_snapshot_first, no_new_request_allows. }
  split.
  - intros l L' Hin HL'. destruct (Hsettled l Hin) as (L & HL & HP).
    congruence.
  - apply bResetPetScale_none.
    + unfold live. rewrite Forall_forall. intros l Hin.
      destruct (Hsettled l Hin) as (L & HL & _). eexists; exact HL.
    + intros l L Hin HL. destruct (Hsettled l Hin) as (L2 & HL2 & HP).
      congruence.
Qed.

End Requests.

(** ** The whole render: snapshots and synchronised viewports *)

Section SyncedRender.

Context {num : Type} `{NumberOps : Number num}.
Variable Math : MathObj num.
Variable getImageFitScale : @Canvas num -> @Image num -> num -> @FitScale num.
Local Open Scope js_scope.

#[export] Instance only_touching_LayerRel ls :
  LayerRel (@only_touching num ls).
Proof.
  split; unfold only_touching.
  - auto.
  - intros k K1 K2 K3 [H|H] [H'|H']; auto. right. congruence.
Qed.

(** The body of the loop of [resyncLayers], on a live layer. *)
Lemma resyncStep_run (st : @State num) x X :
  heap st !! x = Some X ->
  (L <- deref (Some x) ;;
   if isSome (viewport L) then updateLayerSyncProps (Some x) else ret tt) st
  = (Ret tt,
     match viewport X with
     | Some v =>
         set_heap
           (<[x := set_syncProps (Some {| originalScale := scale v |}) X]>
              (heap st)) st
     | None => st
     end).
Proof.
  intros HX. run_lookup HX. destruct (viewport X) as [v|] eqn:Ev; simpl.
  - apply (updateLayerSyncProps_run st x X v HX Ev).
  - reflexivity.
Qed.

(** After the loop of [resyncLayers], every listed layer with a viewport
    carries a snapshot of its scale. *)
Lemma resyncLoop_fresh ls :
  forall i (st st' : @State num),
    forEach_from i ls (fun layer _ =>
      L <- deref (Some layer) ;;
      if isSome (viewport L) then updateLayerSyncProps (Some layer)
      else ret tt) st = (Ret tt, st') ->
    forall l L v,
      l ∈ ls -> heap st !! l = Some L -> viewport L = Some v ->
      exists L',
        heap st' !! l = Some L' /\ viewport L' = Some v /\
        syncProps L' = Some {| originalScale := scale v |}.
Proof.
  induction ls as [|x xs IH]; intros i st st' Hrun l L v Hin HL Hv;
    [inversion Hin|].
  simpl in Hrun. apply bind_Ret_inv in Hrun as ([] & s1 & Hstep & Hrest).
  destruct (heap st !! x) as [X|] eqn:HX.
  2:{ rewrite (bind_Throw _ _ _ _ _ (deref_None _ _ HX)) in Hstep.
      discriminate. }
  rewrite (resyncStep_run st x X HX) in Hstep. injection Hstep as Hs1.
  destruct (decide (l ∈ xs)) as [Hxs|Hxs].
  - assert (H1 : exists L1, heap s1 !! l = Some L1 /\ viewport L1 = Some v).
    { subst s1. destruct (viewport X) as [vx|] eqn:Evx;
        [|exists L; split; assumption].
      simpl. destruct (decide (x = l)) as [->|Hne].
      - rewrite lookup_insert_eq. eexists. split; [reflexivity|].
        simpl. congruence.
      - rewrite lookup_insert_ne by assumption. exists L. split; assumption. }
    destruct H1 as (L1 & HL1 & Hv1).
    apply (IH (S i) s1 st' Hrest l L1 v Hxs HL1 Hv1).
  - apply elem_of_cons in Hin as [->|Hin]; [|contradiction].
    assert (X = L) by congruence. subst X. rewrite Hv in Hs1.
    pose proof (resyncLoop_layerwise (only_touching xs) xs
                  (fun k Hk K v' _ => or_introl Hk) (S i) s1) as Hfr.
    rewrite Hrest in Hfr. cbn [snd] in Hfr.
    assert (Hx1 : heap s1 !! x
                  = Some (set_syncProps (Some {| originalScale := scale v |}) L))
      by (subst s1; apply lookup_insert_eq).
    destruct (layerwise_lookup _ s1 st' x _ Hfr Hx1) as (L' & HL' & [Hc| ->]);
      [contradiction|].
    eexists. split; [exact HL'|]. split; [exact Hv | reflexivity].
Qed.

(** X17: when the sync flag has just gone from off to on and no PET resize
    is pending, whatever the outcome of the render, every layer of the
    registry that had a viewport carries a snapshot of the scale it had
    when the render started, replacing any earlier snapshot. *)
Theorem resync_records_current_scales ee inv (st : @State num) :
  lastSyncViewportsState st = false -> ee_syncViewports ee = true ->
  live st (getLayers (ee_registry ee)) ->
  (forall l L, l ∈ getLayers (ee_registry ee) ->
     heap st !! l = Some L -> petResizePending L = false) ->
  forall l L v,
    l ∈ getLayers (ee_registry ee) ->
    heap st !! l = Some L -> viewport L = Some v ->
    exists L',
      heap (drawCompositeImage Math getImageFitScale ee inv st).2 !! l
      = Some L' /\
      syncProps L' = Some {| originalScale := scale v |}.
Proof.
  intros Hlast Hflag Hlive Hno l L v Hin HL Hv.
  unfold drawCompositeImage.
  unfold bind at 1. unfold get_lastSyncViewportsState at 1. cbn beta iota.
  unfold bind at 1. unfold put_lastSyncViewportsState at 1. cbn beta iota.
  rewrite Hlast, Hflag. cbn [negb andb].
  set (st1 := set_lastSync true st).
  destruct (resyncLayers_run (getLayers (ee_registry ee)) st1 0 Hlive)
    as (st2 & Hrun2 & H12).
  pose proof (resyncLoop_fresh _ 0 st1 st2 Hrun2 l L v Hin HL Hv)
    as (L2 & HL2 & _ & Hs2).
  change (forEach_from 0 (getLayers (ee_registry ee)) _)
    with (@resyncLayers num (getLayers (ee_registry ee))) in Hrun2.
  rewrite (bind_Ret _ _ _ _ _ Hrun2).
  assert (Hno2 : forall k K, k ∈ getLayers (ee_registry ee) ->
            heap st2 !! k = Some K -> petResizePending K = false).
  { intros k K Hk HK.
    destruct H12 as (_ & _ & H12). specialize (H12 k).
    change (heap st1 !! k) with (heap st !! k) in H12.
    destruct (heap st !! k) as [K0|] eqn:HK0; [|congruence].
    destruct H12 as (K' & HK' & Hsame).
    assert (K' = K) by congruence. subst K'.
    specialize (Hno k K0 Hk HK0). rewrite <- Hsame in Hno. exact Hno. }
  rewrite (bind_Ret _ _ _ _ _
             (bResetPetScale_none (getLayers (ee_registry ee)) st2
                (only_syncProps_live _ _ _ H12 Hlive) Hno2)).
  unfold bind at 1. unfold ret at 1. cbn beta iota.
  match goal with |- exists _, heap (?m st2).2 !! l = _ /\ _ =>
    assert (Hkept : respects snapshots_kept m) end.
  { apply respects_bind; [typeclasses eauto | |intros ?].
    { apply syncViewports_snapshots_kept. }
    apply respects_bind; [typeclasses eauto | |intros ?].
    { apply clearCanvas_snapshots_kept. }
    apply renderLayers_snapshots_kept. }
  exact (Hkept st2 l L2 _ HL2 Hs2).
Qed.

Lemma Done_in_line (st0 st : @State num) a A av l :
  viewport A = Some av -> Done st0 a A av st l -> in_line st a l.
Proof.
  intros Hav (L0 & lv0 & HL0 & Hlv0 & Ha & Hl).
  exists (capture av A), (synced_layer av (anchorScale av A) lv0 L0), av,
    (synced_viewport av (anchorScale lv0 L0 / anchorScale av A) lv0),
    {| originalScale := anchorScale av A |},
    {| originalScale := anchorScale lv0 L0 |}.
  split; [exact Ha|]. split; [exact Hl|].
  split; [rewrite capture_viewport; exact Hav|]. split; [reflexivity|].
  split; [apply capture_syncProps|].
  split; [apply (capture_syncProps lv0 L0)|].
  repeat split.
Qed.

Lemma in_line_kept (P : loc -> @Layer num -> @Layer num -> Prop)
    (st st' : @State num) a l :
  (forall k K K', P k K K' ->
     viewport K' = viewport K /\
     forall s, syncProps K = Some s -> syncProps K' = Some s) ->
  layerwise P st st' -> in_line st a l -> in_line st' a l.
Proof.
  intros HP Hfr (A & L & av & lv & sa & sl & HA & HL & Hav & Hlv & Hsa & Hsl
                 & Hfields).
  pose proof (Hfr a) as Ha'. rewrite HA in Ha'.
  destruct Ha' as (A' & HA' & HPA).
  pose proof (Hfr l) as Hl'. rewrite HL in Hl'.
  destruct Hl' as (L' & HL' & HPL).
  destruct (HP _ _ _ HPA) as [HvA HsA].
  destruct (HP _ _ _ HPL) as [HvL HsL].
  exists A', L', av, lv, sa, sl.
  split; [exact HA'|]. split; [exact HL'|].
  split; [congruence|]. split; [congruence|].
  split; [apply HsA, Hsa|]. split; [apply HsL, Hsl|]. exact Hfields.
Qed.

Lemma drawn_over_keeps (k : loc) (K K' : @Layer num) :
  drawn_over K K' ->
  viewport K' = viewport K /\
  forall s, syncProps K = Some s -> syncProps K' = Some s.
Proof.
  intros (_ & _ & Hv & _ & Hs). split; [exact Hv|].
  intros s HK. destruct Hs as [Hs|Hs]; congruence.
Qed.

Lemma clear_and_render_drawn_over cnv layers act inv :
  respects (layerwise (fun _ => drawn_over))
    (clearCanvas cnv ;; renderLayers Math cnv layers act inv).
Proof.
  apply respects_bind; [typeclasses eauto | |intros ?].
  - apply clearCanvas_layerwise; typeclasses eauto.
  - apply renderLayers_layerwise; [typeclasses eauto|].
    intros l _. destruct (drawn_over_allows (num := num) l) as [H1 H2].
    split; [exact H1|]. split; [apply H2|]. intros k _. apply H2.
Qed.

(** From the start of a render that returns to its last synchronisation
    pass, the layers keep what they show. *)
Lemma render_until_last_sync ee inv (st st' : @State num) :
  drawCompositeImage Math getImageFitScale ee inv st = (Ret tt, st') ->
  exists s3,
    layerwise (fun _ => same_subject) st s3 /\
    ((if ee_syncViewports ee
      then syncViewports (getVisibleLayers (ee_registry ee))
             (getActiveLayer (ee_registry ee))
      else ret tt) ;;
     clearCanvas (ee_canvas ee) ;;
     renderLayers Math (ee_canvas ee) (getVisibleLayers (ee_registry ee))
       (getActiveLayer (ee_registry ee)) inv) s3 = (Ret tt, st').
Proof.
  intros Hrun. unfold drawCompositeImage in Hrun.
  apply bind_Ret_inv in Hrun as (last & s0 & H0 & Hrun).
  injection H0 as <- <-.
  apply bind_Ret_inv in Hrun as ([] & s1 & H1 & Hrun).
  injection H1 as <-.
  apply bind_Ret_inv in Hrun as ([] & s2 & H2 & Hrun).
  apply bind_Ret_inv in Hrun as (reset & s2' & Hb & Hrun).
  pose proof (bResetPetScale_reads (getLayers (ee_registry ee)) s2) as Hrd.
  rewrite Hb in Hrd. cbn [snd] in Hrd. subst s2'.
  apply bind_Ret_inv in Hrun as ([] & s3 & H3 & Hrun).
  exists s3. split; [|exact Hrun].
  transitivity (set_lastSync (ee_syncViewports ee) st).
  { apply layerwise_same_heap; [typeclasses eauto | reflexivity]. }
  transitivity s2.
  { pose proof (before_clearing_resync (getLayers (ee_registry ee))
                  (lastSyncViewportsState st) (ee_syncViewports ee)
                  (set_lastSync (ee_syncViewports ee) st)) as [_ Hfr].
    rewrite H2 in Hfr. exact Hfr. }
  destruct reset; [|injection H3 as <-; reflexivity].
  apply bind_Ret_inv in H3 as ([] & sr & Hr & Hsync).
  transitivity sr.
  - pose proof (before_clearing_reset getImageFitScale (ee_canvas ee)
                  (getLayers (ee_registry ee)) s2) as [_ Hfr].
    rewrite Hr in Hfr. exact Hfr.
  - pose proof (before_clearing_sync (getVisibleLayers (ee_registry ee))
                  (getActiveLayer (ee_registry ee)) sr) as [_ Hfr].
    rewrite Hsync in Hfr. exact Hfr.
Qed.

(** A synchronisation pass followed by the clearing and the drawing leaves
    the visible layers in line with the active one. *)
Lemma synced_then_drawn_in_line cnv visible inv (st s3 st' : @State num)
    a A av :
  layerwise (fun _ => same_subject) st s3 ->
  heap st !! a = Some A -> viewport A = Some av -> live st visible ->
  (syncViewports visible (Some a) ;;
   clearCanvas cnv ;;
   renderLayers Math cnv visible (Some a) inv) s3 = (Ret tt, st') ->
  forall l L lv,
    l ∈ visible -> l <> a ->
    heap st !! l = Some L -> viewport L = Some lv ->
    in_line st' a l.
Proof.
  intros Hfr HA Hav Hlive Hrest l L lv Hin Hne HL Hlv.
  apply bind_Ret_inv in Hrest as ([] & s4 & Hsync & Hrest).
  destruct (layerwise_lookup _ st s3 a A Hfr HA) as (A3 & HA3 & (_ & _ & HvA & _)).
  rewrite Hav in HvA. destruct (viewport A3) as [av3|] eqn:Hav3;
    [|contradiction].
  destruct (layerwise_lookup _ st s3 l L Hfr HL) as (L3 & HL3 & (_ & _ & HvL & _)).
  rewrite Hlv in HvL. destruct (viewport L3) as [lv3|] eqn:Hlv3;
    [|contradiction].
  destruct (syncLoop_Inv s3 a A3 av3 Hav3 visible
              s3 0 (Inv_init s3 a A3 av3 HA3)
              (layerwise_live _ st s3 _ Hfr Hlive))
    as (s4' & Hrun4 & _ & _ & Hdone).
  unfold syncViewports, forEach in Hsync. rewrite Hrun4 in Hsync.
  injection Hsync as ->.
  pose proof (Done_in_line s3 s4 a A3 av3 l Hav3
                (Hdone l Hin Hne L3 lv3 HL3 Hlv3)) as Hline.
  pose proof (clear_and_render_drawn_over cnv visible (Some a) inv s4) as Hfr2.
  rewrite Hrest in Hfr2. cbn [snd] in Hfr2.
  apply (in_line_kept (fun _ => drawn_over) s4 st' a l drawn_over_keeps Hfr2
           Hline).
Qed.

(** X18: after a composite render with the sync flag on that returns, every
    visible layer other than the active one that had a viewport follows the
    active layer: both carry a snapshot, and the layer's scale is the active
    layer's scale times the ratio of the two snapshots, its translation the
    active layer's divided by that ratio, its rotation and flips the active
    layer's.  The active layer and the visible layers are live objects and
    the active layer has a viewport. *)
Theorem synced_render_leaves_layers_in_line ee inv (st st' : @State num)
    a A av :
  ee_syncViewports ee = true ->
  getActiveLayer (ee_registry ee) = Some a ->
  heap st !! a = Some A -> viewport A = Some av ->
  live st (getVisibleLayers (ee_registry ee)) ->
  drawCompositeImage Math getImageFitScale ee inv st = (Ret tt, st') ->
  forall l L lv,
    l ∈ getVisibleLayers (ee_registry ee) -> l <> a ->
    heap st !! l = Some L -> viewport L = Some lv ->
    in_line st' a l.
Proof.
  intros Hflag Hact HA Hav Hlive Hrun l L lv Hin Hne HL Hlv.
  destruct (render_until_last_sync ee inv st st' Hrun) as (s3 & Hfr & Hrest).
  rewrite Hflag, Hact in Hrest.
  apply (synced_then_drawn_in_line (ee_canvas ee)
           (getVisibleLayers (ee_registry ee)) inv st s3 st' a A av
           Hfr HA Hav Hlive Hrest l L lv Hin Hne HL Hlv).
Qed.

(** ** The PET resize branch: the forced synchronisation *)

(** The program a render amounts to when a PET resize is pending, whatever
    procedure stands for the synchroniser. *)
Lemma drawCompositeImage_with_when_resize_requested
    (sync : list loc -> ref -> @M num unit) ee inv (st : @State num) :
  let allLayers := getLayers (ee_registry ee) in
  let activeLayer := getActiveLayer (ee_registry ee) in
  let visibleLayers := getVisibleLayers (ee_registry ee) in
  live st allLayers -> resize_requested st allLayers ->
  drawCompositeImage_with sync Math getImageFitScale ee inv st
  = (last <- get_lastSyncViewportsState ;;
     put_lastSyncViewportsState (ee_syncViewports ee) ;;
     (if negb last && ee_syncViewports ee
      then resyncLayers allLayers else ret tt) ;;
     resetPetScale getImageFitScale (ee_canvas ee) allLayers ;;
     sync visibleLayers activeLayer ;;
     (if ee_syncViewports ee
      then sync visibleLayers activeLayer else ret tt) ;;
     clearCanvas (ee_canvas ee) ;;
     renderLayers Math (ee_canvas ee) visibleLayers activeLayer inv) st.
Proof.
  intros allLayers activeLayer visibleLayers Hlive Hreq.
  unfold drawCompositeImage_with. fold allLayers activeLayer visibleLayers.
  apply bind_ext_on. intros last st0 H0.
  unfold get_lastSyncViewportsState in H0. injection H0 as <- <-.
  apply bind_ext_on. intros [] st1 H1.
  unfold put_lastSyncViewportsState in H1. injection H1 as <-.
  apply bind_ext_on. intros [] st2 H2.
  assert (H12 : only_syncProps (set_lastSync (ee_syncViewports ee) st) st2).
  { destruct (negb (lastSyncViewportsState st) && ee_syncViewports ee).
    - destruct (resyncLayers_run allLayers
                  (set_lastSync (ee_syncViewports ee) st) 0 Hlive)
        as (st' & Hrun & Hrel).
      unfold resyncLayers, forEach in H2. rewrite Hrun in H2.
      injection H2 as <-. exact Hrel.
    - injection H2 as <-. reflexivity. }
  assert (Hlive2 : live st2 allLayers)
    by (apply (only_syncProps_live _ _ _ H12); exact Hlive).
  assert (Hreq2 : resize_requested st2 allLayers)
    by (apply (only_syncProps_requested _ _ _ H12); exact Hreq).
  destruct Hreq2 as (l & L & Hin & HL & HP).
  rewrite (bind_Ret _ _ _ _ _
             (bResetPetScale_pending allLayers st2 l L Hlive2 Hin HL HP)).
  rewrite bind_assoc. apply bind_ext_on. intros [] st3 _.
  reflexivity.
Qed.

(** With a PET resize pending, a render that returns has brought the
    visible layers in line with the active one, whatever the sync flag. *)
Lemma resize_render_in_line ee inv (st st' : @State num) a A av :
  live st (getLayers (ee_registry ee)) ->
  resize_requested st (getLayers (ee_registry ee)) ->
  getActiveLayer (ee_registry ee) = Some a ->
  heap st !! a = Some A -> viewport A = Some av ->
  live st (getVisibleLayers (ee_registry ee)) ->
  drawCompositeImage Math getImageFitScale ee inv st = (Ret tt, st') ->
  forall l L lv,
    l ∈ getVisibleLayers (ee_registry ee) -> l <> a ->
    heap st !! l = Some L -> viewport L = Some lv ->
    in_line st' a l.
Proof.
  intros Hlive Hreq Hact HA Hav Hvis Hrun.
  destruct (ee_syncViewports ee) eqn:Hflag.
  - destruct (render_until_last_sync ee inv st st' Hrun) as (s3 & Hfr & Hrest).
    rewrite Hflag, Hact in Hrest.
    apply (synced_then_drawn_in_line (ee_canvas ee)
             (getVisibleLayers (ee_registry ee)) inv st s3 st' a A av
             Hfr HA Hav Hvis Hrest).
  - change (drawCompositeImage Math getImageFitScale ee inv st)
      with (drawCompositeImage_with syncViewports Math getImageFitScale
              ee inv st) in Hrun.
    rewrite (drawCompositeImage_with_when_resize_requested syncViewports
               ee inv st Hlive Hreq), Hflag, Hact in Hrun.
    apply bind_Ret_inv in Hrun as (last & s0 & H0 & Hrun).
    injection H0 as <- <-.
    apply bind_Ret_inv in Hrun as ([] & s1 & H1 & Hrun).
    injection H1 as <-.
    apply bind_Ret_inv in Hrun as ([] & s2 & H2 & Hrun).
    apply bind_Ret_inv in Hrun as ([] & sr & Hr & Hrun).
    apply bind_Ret_inv in Hrun as ([] & s4 & Hsync & Hrun).
    apply bind_Ret_inv in Hrun as ([] & s5 & H5 & Hrun).
    injection H5 as <-.
    assert (Hfr : layerwise (fun _ => same_subject) st sr).
    { transitivity (set_lastSync false st).
      { apply layerwise_same_heap; [typeclasses eauto | reflexivity]. }
      transitivity s2.
      { pose proof (before_clearing_resync (getLayers (ee_registry ee))
                      (lastSyncViewportsState st) false
                      (set_lastSync false st)) as [_ Hfr].
        rewrite H2 in Hfr. exact Hfr. }
      pose proof (before_clearing_reset getImageFitScale (ee_canvas ee)
                    (getLayers (ee_registry ee)) s2) as [_ Hfr].
      rewrite Hr in Hfr. exact Hfr. }
    apply (synced_then_drawn_in_line (ee_canvas ee)
             (getVisibleLayers (ee_registry ee)) inv st sr st' a A av
             Hfr HA Hav Hvis).
    rewrite (bind_Ret _ _ _ _ _ Hsync). exact Hrun.
Qed.

(** C5: in a composite render where some layer is a PET layer with a
    pending resize request (all layers being live objects), the render
    calls its synchroniser on the visible layers right after the resize
    processing, also when the sync flag is off, and when the flag is on it
    calls it a second time right after the first: this holds for whatever
    procedure [sync] stands where the source says [syncViewports], so the
    two calls are two runs, not one.  The render is that program with
    [syncViewports] for [sync].  The forced pass does synchronise: whatever
    the flag, when the render returns every visible layer other than the
    active one that had a viewport follows the active layer (the active
    layer and the visible layers being live objects, the active layer with
    a viewport). *)
Theorem sync_pass_forced_by_pet_resize ee inv (st : @State num) :
  let allLayers := getLayers (ee_registry ee) in
  let activeLayer := getActiveLayer (ee_registry ee) in
  let visibleLayers := getVisibleLayers (ee_registry ee) in
  live st allLayers -> resize_requested st allLayers ->
  (forall sync : list loc -> ref -> @M num unit,
     (ee_syncViewports ee = false ->
      drawCompositeImage_with sync Math getImageFitScale ee inv st
      = (put_lastSyncViewportsState false ;;
         resetPetScale getImageFitScale (ee_canvas ee) allLayers ;;
         sync visibleLayers activeLayer ;;
         clearCanvas (ee_canvas ee) ;;
         renderLayers Math (ee_canvas ee) visibleLayers activeLayer inv) st) /\
     (ee_syncViewports ee = true ->
      drawCompositeImage_with sync Math getImageFitScale ee inv st
      = (last <- get_lastSyncViewportsState ;;
         put_lastSyncViewportsState true ;;
         (if negb last then resyncLayers allLayers else ret tt) ;;
         resetPetScale getImageFitScale (ee_canvas ee) allLayers ;;
         sync visibleLayers activeLayer ;;
         sync visibleLayers activeLayer ;;
         clearCanvas (ee_canvas ee) ;;
         renderLayers Math (ee_canvas ee) visibleLayers activeLayer inv) st)) /\
  drawCompositeImage_with syncViewports Math getImageFitScale
  = drawCompositeImage Math getImageFitScale /\
  (forall st' a A av,
     activeLayer = Some a -> heap st !! a = Some A -> viewport A = Some av ->
     live st visibleLayers ->
     drawCompositeImage Math getImageFitScale ee inv st = (Ret tt, st') ->
     forall l L lv,
       l ∈ visibleLayers -> l <> a ->
       heap st !! l = Some L -> viewport L = Some lv ->
       in_line st' a l).
Proof.
  intros allLayers activeLayer visibleLayers Hlive Hreq.
  split; [|split].
  - intros sync.
    pose proof (drawCompositeImage_with_when_resize_requested sync ee inv st
                  Hlive Hreq) as Hgen.
    fold allLayers activeLayer visibleLayers in Hgen.
    split; intros Hflag; rewrite Hgen, Hflag.
    + unfold bind at 1. unfold get_lastSyncViewportsState at 1.
      cbn beta iota. rewrite andb_false_r.
      apply bind_ext_on. intros [] st1 _.
      unfold bind at 1. unfold ret at 1. cbn beta iota.
      apply bind_ext_on. intros [] st2 _.
      apply bind_ext_on. intros [] st3 _.
      unfold bind at 1. unfold ret at 1. reflexivity.
    + apply bind_ext_on. intros last st0 _. rewrite andb_true_r. reflexivity.
  - reflexivity.
  - intros st' a A av Hact HA Hav Hvis Hrun.
    apply (resize_render_in_line ee inv st st' a A av Hlive Hreq Hact HA Hav
             Hvis Hrun).
Qed.

End SyncedRender.

(** ** Turning synchronisation on *)

Section EnablingSync.

Context {num : Type} `{NumberOps : Number num}.
Variable Math : MathObj num.
Variable getImageFitScale : @Canvas num -> @Image num -> num -> @FitScale num.
Local Open Scope js_scope.

(** X19: turning synchronisation on anchors every layer at its present
    scale.  When the sync flag has just gone from off to on and no PET
    resize is pending, a render that returns leaves the active layer's
    scale as it was, and gives every other visible layer that had a viewport
    the scale [a * (s / a)], where [s] is the scale the layer had and [a]
    the active layer's, as the code's arithmetic evaluates it; the visible
    layers and the active layer are layers of the registry, all live
    objects. *)
Theorem enabling_sync_rescales_from_present_scales ee inv
    (st st' : @State num) a A av :
  lastSyncViewportsState st = false -> ee_syncViewports ee = true ->
  getActiveLayer (ee_registry ee) = Some a ->
  live st (getLayers (ee_registry ee)) ->
  (forall l L, l ∈ getLayers (ee_registry ee) ->
     heap st !! l = Some L -> petResizePending L = false) ->
  (forall l, l ∈ getVisibleLayers (ee_registry ee) ->
     l ∈ getLayers (ee_registry ee)) ->
  a ∈ getLayers (ee_registry ee) ->
  heap st !! a = Some A -> viewport A = Some av ->
  drawCompositeImage Math getImageFitScale ee inv st = (Ret tt, st') ->
  forall l L lv,
    l ∈ getVisibleLayers (ee_registry ee) ->
    heap st !! l = Some L -> viewport L = Some lv ->
    exists L' lv',
      heap st' !! l = Some L' /\ viewport L' = Some lv' /\
      scale lv' = if bool_decide (l = a) then scale lv
                  else scale av * (scale lv / scale av).
Proof.
  intros Hlast Hflag Hact Hlive Hno Hsub Hain HA Hav Hrun l L lv Hin HL Hlv.
  unfold drawCompositeImage in Hrun. rewrite Hflag, Hact in Hrun.
  apply bind_Ret_inv in Hrun as (last & s0 & H0 & Hrun).
  injection H0 as <- <-. rewrite Hlast in Hrun. cbn [negb andb] in Hrun.
  apply bind_Ret_inv in Hrun as ([] & s1 & H1 & Hrun).
  injection H1 as <-.
  apply bind_Ret_inv in Hrun as ([] & s2 & H2 & Hrun).
  apply bind_Ret_inv in Hrun as (reset & s2' & Hb & Hrun).
  pose proof (bResetPetScale_reads (getLayers (ee_registry ee)) s2) as Hrd.
  rewrite Hb in Hrd. cbn [snd] in Hrd. subst s2'.
  pose proof (resyncLayers_layerwise (fun _ => no_new_request)
                (getLayers (ee_registry ee))
                (fun k _ => proj1 (no_new_request_allows k))
                (set_lastSync true st)) as Hnn.
  rewrite H2 in Hnn. cbn [snd] in Hnn.
  assert (reset = false) as ->.
  { destruct reset; [|reflexivity].
    destruct (bResetPetScale_true (getLayers (ee_registry ee)) s2)
      as (k & K & Hk & HK & HP); [rewrite Hb; reflexivity|].
    destruct (layerwise_lookup_back _ _ s2 k K Hnn HK) as (K0 & HK0 & Hreq).
    specialize (Hreq HP). rewrite (Hno k K0 Hk HK0) in Hreq. discriminate. }
  apply bind_Ret_inv in Hrun as ([] & s3 & H3 & Hrun). injection H3 as <-.
  apply bind_Ret_inv in Hrun as ([] & s4 & Hsync & Hrest).
  unfold resyncLayers, forEach in H2.
  destruct (resyncLoop_fresh _ 0 _ s2 H2 a A av Hain HA Hav)
    as (A2 & HA2 & HvA2 & HsA2).
  destruct (resyncLoop_fresh _ 0 _ s2 H2 l L lv (Hsub l Hin) HL Hlv)
    as (L2 & HL2 & HvL2 & HsL2).
  assert (Hlive2 : live s2 (getVisibleLayers (ee_registry ee))).
  { unfold live in *. rewrite Forall_forall in *. intros k Hk.
    destruct (Hlive k (Hsub k Hk)) as [K HK].
    destruct (layerwise_lookup _ _ s2 k K Hnn HK) as (K' & HK' & _).
    eexists; exact HK'. }
  destruct (syncLoop_Inv s2 a A2 av HvA2 (getVisibleLayers (ee_registry ee))
              s2 0 (Inv_init s2 a A2 av HA2) Hlive2)
    as (s4' & Hrun4 & HI & _ & Hdone).
  unfold syncViewports, forEach in Hsync. rewrite Hrun4 in Hsync.
  injection Hsync as ->.
  assert (H4 : exists L4 lv4,
            heap s4 !! l = Some L4 /\ viewport L4 = Some lv4 /\
            scale lv4 = if bool_decide (l = a) then scale lv
                        else scale av * (scale lv / scale av)).
  { destruct (decide (l = a)) as [->|Hne].
    - destruct (Inv_active s2 a A2 av HvA2 s4 HI) as (A4 & HA4 & HvA4 & _).
      rewrite bool_decide_eq_true_2 by reflexivity.
      exists A4, av. split; [exact HA4|]. split; [exact HvA4|]. congruence.
    - destruct (Hdone l Hin Hne L2 lv HL2 HvL2)
        as (L0 & lv0 & HL0 & Hlv0 & _ & Hl4).
      assert (L0 = L2) by congruence. subst L0.
      assert (lv0 = lv) by congruence. subst lv0.
      rewrite bool_decide_eq_false_2 by exact Hne.
      eexists _, _. split; [exact Hl4|]. split; [reflexivity|].
      unfold anchorScale. rewrite HsA2, HsL2. reflexivity. }
  destruct H4 as (L4 & lv4 & HL4 & Hlv4 & Hs4).
  pose proof (clear_and_render_drawn_over Math (ee_canvas ee)
                (getVisibleLayers (ee_registry ee)) (Some a) inv s4) as Hfr.
  rewrite Hrest in Hfr. cbn [snd] in Hfr.
  destruct (layerwise_lookup _ s4 st' l L4 Hfr HL4)
    as (L' & HL' & (_ & _ & Hv' & _)).
  exists L', lv4. split; [exact HL'|]. split; [congruence | exact Hs4].
Qed.

End EnablingSync.

(** ** The whole render: when it returns *)

Section Returns.

Context {num : Type} `{NumberOps : Number num}.
Variable Math : MathObj num.
Variable getImageFitScale : @Canvas num -> @Image num -> num -> @FitScale num.
Local Open Scope js_scope.

Lemma same_subject_colormap (L L' : @Layer num) v v' :
  same_subject L L' -> viewport L = Some v -> viewport L' = Some v' ->
  layer_colormap v' L' = layer_colormap v L.
Proof.
  intros (_ & _ & Hv & Ho) HL HL'. rewrite HL, HL' in Hv.
  destruct Hv as (_ & Hc & _). unfold layer_colormap. rewrite Hc.
  destruct (options L) as [o|], (options L') as [o'|]; try contradiction;
    [|reflexivity].
  destruct Ho as (_ & _ & _ & ->). reflexivity.
Qed.

Lemma drawable_kept (st s : @State num) l :
  layerwise (fun _ => same_subject) st s -> drawable st l -> drawable s l.
Proof.
  intros Hfr (L & HL & Hd).
  destruct (layerwise_lookup _ st s l L Hfr HL) as (L' & HL' & Hsame).
  exists L'. split; [exact HL'|].
  pose proof Hsame as (_ & Hi & Hv & _). rewrite Hi.
  destruct (image L) as [img|]; [|exact I].
  destruct Hd as (id & v & c & Hid & Hf & HvL & Hc).
  rewrite HvL in Hv. destruct (viewport L') as [v'|] eqn:Ev'; [|contradiction].
  exists id, v', c. split; [exact Hid|]. split; [exact Hf|].
  split; [reflexivity|].
  rewrite (same_subject_colormap L L' v v' Hsame HvL Ev'). exact Hc.
Qed.

Lemma renderLayer_same_subject cnv act inv l i :
  respects (layerwise (fun _ => same_subject))
    (renderLayer Math cnv act inv l i).
Proof.
  apply renderLayer_layerwise; [typeclasses eauto | | |].
  - apply same_subject_allows.
  - apply allows_snapshot_first, same_subject_allows.
  - intros a _. apply allows_snapshot_first, same_subject_allows.
Qed.

(** The loop of [renderLayers] over layers that can be drawn. *)
Lemma renderLoop_returns cnv act inv ls :
  forall i (st : @State num),
    (forall l, l ∈ ls -> drawable st l) ->
    exists st',
      forEach_from i ls (renderLayer Math cnv act inv) st = (Ret tt, st').
Proof.
  induction ls as [|x xs IH]; intros i st Hd.
  - exists st. reflexivity.
  - assert (Hstep : exists s1,
              renderLayer Math cnv act inv x i st = (Ret tt, s1)).
    { destruct (Hd x) as (L & HL & HdL); [left|].
      destruct (image L) as [img|] eqn:Ei.
      - destruct HdL as (id & v & c & Hid & Hf & Hv & Hc).
        pose proof (renderLayer_log Math cnv act inv x i st L img v HL Ei Hv)
          as Hwp.
        unfold wp in Hwp.
        destruct (renderLayer Math cnv act inv x i st) as [out s1].
        cbn [fst snd] in Hwp. destruct Hwp as [_ Hret].
        rewrite (Hret id c Hid Hf Hc). exists s1. reflexivity.
      - exists st. apply (renderLayer_no_image Math cnv act inv x i st L HL Ei). }
    destruct Hstep as (s1 & Hstep).
    pose proof (renderLayer_same_subject cnv act inv x i st) as Hfr.
    rewrite Hstep in Hfr. cbn [snd] in Hfr.
    destruct (IH (S i) s1) as (st' & Hrest).
    { intros l Hl. apply (drawable_kept st s1 l Hfr). apply Hd. right.
      exact Hl. }
    exists st'. simpl. rewrite (bind_Ret _ _ _ _ _ Hstep). exact Hrest.
Qed.

Lemma drawCompositeImage_returns ee inv (st : @State num) a A :
  getActiveLayer (ee_registry ee) = Some a -> heap st !! a = Some A ->
  live st (getLayers (ee_registry ee)) ->
  (forall l L, l ∈ getLayers (ee_registry ee) ->
     heap st !! l = Some L -> petResizePending L = false) ->
  (forall l, l ∈ getVisibleLayers (ee_registry ee) -> drawable st l) ->
  exists st',
    drawCompositeImage Math getImageFitScale ee inv st = (Ret tt, st').
Proof.
  intros Hact HA Hlive Hno Hd. unfold drawCompositeImage.
  unfold bind at 1. unfold get_lastSyncViewportsState at 1. cbn beta iota.
  unfold bind at 1. unfold put_lastSyncViewportsState at 1. cbn beta iota.
  set (st1 := set_lastSync (ee_syncViewports ee) st).
  assert (H01 : layerwise (fun _ : loc => @same_subject num) st st1)
    by (apply layerwise_same_heap; [typeclasses eauto | reflexivity]).
  assert (Hpre : exists st2,
    (if negb (lastSyncViewportsState st) && ee_syncViewports ee
     then resyncLayers (getLayers (ee_registry ee)) else ret tt) st1
    = (Ret tt, st2) /\ only_syncProps st1 st2).
  { destruct (negb (lastSyncViewportsState st) && ee_syncViewports ee).
    - apply (resyncLayers_run (getLayers (ee_registry ee)) st1 0 Hlive).
    - exists st1. split; reflexivity. }
  destruct Hpre as (st2 & Hrun2 & H12).
  pose proof (before_clearing_resync (getLayers (ee_registry ee))
                (lastSyncViewportsState st) (ee_syncViewports ee) st1)
    as [_ Hfr12].
  rewrite Hrun2 in Hfr12. cbn [snd] in Hfr12.
  rewrite (bind_Ret _ _ _ _ _ Hrun2).
  assert (Hno2 : forall l L, l ∈ getLayers (ee_registry ee) ->
            heap st2 !! l = Some L -> petResizePending L = false).
  { intros l L Hin HL.
    destruct H12 as (_ & _ & H12). specialize (H12 l).
    change (heap st1 !! l) with (heap st !! l) in H12.
    destruct (heap st !! l) as [K|] eqn:HK; [|congruence].
    destruct H12 as (K' & HK' & Hsame).
    assert (K' = L) by congruence. subst K'.
    specialize (Hno l K Hin HK). rewrite <- Hsame in Hno. exact Hno. }
  rewrite (bind_Ret _ _ _ _ _
             (bResetPetScale_none (getLayers (ee_registry ee)) st2
                (only_syncProps_live _ _ _ H12 Hlive) Hno2)).
  unfold bind at 1. unfold ret at 1. cbn beta iota.
  assert (H02 : layerwise (fun _ : loc => @same_subject num) st st2)
    by (transitivity st1; assumption).
  assert (Hsync : exists st3,
    (if ee_syncViewports ee
     then syncViewports (getVisibleLayers (ee_registry ee))
            (getActiveLayer (ee_registry ee))
     else ret tt) st2 = (Ret tt, st3) /\
    layerwise (fun _ => same_subject) st st3).
  { destruct (ee_syncViewports ee); [|exists st2; split; [reflexivity|exact H02]].
    rewrite Hact.
    destruct (layerwise_lookup _ st st2 a A H02 HA) as (A2 & HA2 & _).
    destruct (syncViewports_settles st2 (getVisibleLayers (ee_registry ee))
                a A2 HA2) as (st3 & Hrun3 & _).
    { unfold live. rewrite Forall_forall. intros l Hin.
      destruct (Hd l Hin) as (L & HL & _).
      destruct (layerwise_lookup _ st st2 l L H02 HL) as (L2 & HL2 & _).
      eexists; exact HL2. }
    exists st3. split; [exact Hrun3|]. transitivity st2; [exact H02|].
    pose proof (before_clearing_sync (getVisibleLayers (ee_registry ee))
                  (Some a) st2) as [_ Hfr].
    rewrite Hrun3 in Hfr. exact Hfr. }
  destruct Hsync as (st3 & Hrun3 & H03).
  rewrite (bind_Ret _ _ _ _ _ Hrun3).
  unfold bind at 1. unfold clearCanvas at 1.
  unfold bind at 1. unfold emit at 1. cbn beta iota.
  unfold bind at 1. unfold emit at 1. cbn beta iota.
  unfold emit at 1. cbn beta iota.
  apply renderLoop_returns. intros l Hin.
  apply (drawable_kept st). 2: apply Hd, Hin.
  transitivity st3; [exact H03|].
  apply layerwise_same_heap; [typeclasses eauto | reflexivity].
Qed.

(** X20: a composite render returns when every layer of the registry is a
    live object, none is a PET layer with a pending resize request, the
    active layer is a live object, and every visible layer is a live object
    that either has no image, or has an image whose id is not a fusion
    reformat's, a viewport, and a colormap to read from its viewport or its
    options. *)
Theorem plain_render_returns ee inv (st : @State num) a A :
  getActiveLayer (ee_registry ee) = Some a -> heap st !! a = Some A ->
  live st (getLayers (ee_registry ee)) ->
  (forall l L, l ∈ getLayers (ee_registry ee) ->
     heap st !! l = Some L -> petResizePending L = false) ->
  (forall l, l ∈ getVisibleLayers (ee_registry ee) -> drawable st l) ->
  exists st',
    drawCompositeImage Math getImageFitScale ee inv st = (Ret tt, st').
Proof. apply drawCompositeImage_returns. Qed.

End Returns.

(** ** The whole render: runs *)

Lemma ct_pet_no_request l L :
  l ∈ [1; 2] -> heap ct_pet !! l = Some L -> petResizePending L = false.
Proof.
  intros Hin Hl.
  apply elem_of_cons in Hin as [->|Hin];
    [|apply elem_of_cons in Hin as [->|Hin]; [|inversion Hin]];
    vm_compute in Hl; injection Hl as <-; reflexivity.
Qed.

Lemma ct_pet_drawable l : l ∈ [1; 2] -> drawable ct_pet l.
Proof.
  intros Hin.
  apply elem_of_cons in Hin as [->|Hin];
    [|apply elem_of_cons in Hin as [->|Hin]; [|inversion Hin]].
  - exists ct_layer. split; [reflexivity|].
    exists "ct:1"%string, ct_viewport, None. repeat split.
  - exists pet_layer. split; [reflexivity|].
    exists "pet:1"%string, pet_viewport, (Some (ColormapId "hotIron")).
    repeat split.
Qed.

Lemma plain_redraw_keeps_viewports_witness :
  layerwise (render_touch [1; 2] (Some 1)) ct_pet
    (drawCompositeImage approx_Math fit_extent element_sync_off false ct_pet).2.
Proof.
  apply (plain_redraw_keeps_viewports approx_Math fit_extent element_sync_off
           false ct_pet eq_refl).
  apply ct_pet_no_request.
Defined.

Lemma resize_requests_are_consumed_witness :
  (forall l L',
     l ∈ [1; 2] ->
     heap (drawCompositeImage approx_Math fit_extent element_sync_off false
             resize_pending).2 !! l = Some L' ->
     petResizePending L' = false) /\
  bResetPetScale [1; 2]
    (drawCompositeImage approx_Math fit_extent element_sync_off false
       resize_pending).2
  = (Ret false,
     (drawCompositeImage approx_Math fit_extent element_sync_off false
        resize_pending).2).
Proof.
  apply (resize_requests_are_consumed approx_Math fit_extent element_sync_off
           false resize_pending).
  vm_compute. reflexivity.
Defined.

Lemma resync_records_current_scales_witness :
  exists L',
    heap (drawCompositeImage approx_Math fit_extent element_sync_on false
            ct_pet).2 !! 2 = Some L' /\
    syncProps L' = Some {| originalScale := scale pet_viewport |}.
Proof.
  apply (resync_records_current_scales approx_Math fit_extent element_sync_on
           false ct_pet eq_refl eq_refl ct_pet_live ct_pet_no_request
           2 pet_layer pet_viewport); try reflexivity.
  right. left.
Defined.

Lemma synced_render_leaves_layers_in_line_witness :
  in_line
    (drawCompositeImage approx_Math fit_extent element_sync_on false ct_pet).2
    1 2.
Proof.
  refine (synced_render_leaves_layers_in_line approx_Math fit_extent
            element_sync_on false ct_pet _ 1 ct_layer ct_viewport
            eq_refl eq_refl eq_refl eq_refl ct_pet_live _
            2 pet_layer pet_viewport _ _ eq_refl eq_refl).
  - vm_compute. reflexivity.
  - right. left.
  - discriminate.
Defined.

Lemma plain_render_returns_witness :
  exists st',
    drawCompositeImage approx_Math fit_extent element_sync_on false ct_pet
    = (Ret tt, st').
Proof.
  apply (plain_render_returns approx_Math fit_extent element_sync_on false
           ct_pet 1 ct_layer eq_refl eq_refl ct_pet_live ct_pet_no_request
           ct_pet_drawable).
Defined.

Lemma enabling_sync_rescales_from_present_scales_witness :
  exists L' lv',
    heap (drawCompositeImage approx_Math fit_extent element_sync_on false
            ct_pet).2 !! 2 = Some L' /\
    viewport L' = Some lv' /\
    scale lv' = (scale ct_viewport * (scale pet_viewport / scale ct_viewport))%float.
Proof.
  refine (enabling_sync_rescales_from_present_scales approx_Math fit_extent
            element_sync_on false ct_pet _ 1 ct_layer ct_viewport
            eq_refl eq_refl eq_refl ct_pet_live ct_pet_no_request
            (fun l H => H) _ eq_refl eq_refl _
            2 pet_layer pet_viewport _ eq_refl eq_refl).
  - left.
  - vm_compute. reflexivity.
  - right. left.
Defined.

(** ** The PET resize branch: a run with the sync flag off *)

Lemma sync_pass_forced_by_pet_resize_witness :
  (forall sync : list loc -> ref -> @M float unit,
     drawCompositeImage_with sync approx_Math fit_extent element_sync_off
       false resize_pending
     = (put_lastSyncViewportsState false ;;
        resetPetScale fit_extent canvas512 [1; 2] ;;
        sync [1; 2] (Some 1) ;;
        clearCanvas canvas512 ;;
        renderLayers approx_Math canvas512 [1; 2] (Some 1) false)
         resize_pending) /\
  in_line
    (drawCompositeImage approx_Math fit_extent element_sync_off false
       resize_pending).2 1 2.
Proof.
  pose proof (sync_pass_forced_by_pet_resize approx_Math fit_extent
                element_sync_off false resize_pending resize_pending_live
                resize_pending_requested) as (Hcalls & _ & Hline).
  split.
  - intros sync. apply (proj1 (Hcalls sync)). reflexivity.
  - refine (Hline _ 1 ct_zoomed (set_scale 3%float ct_viewport) eq_refl eq_refl
              eq_refl resize_pending_live _ 2 pet_resizing pet_viewport
              _ _ eq_refl eq_refl).
    + vm_compute. reflexivity.
    + right. left.
    + discriminate.
Defined.
